(** * agent-uac: planning and synchronisation engine

    A shallow embedding of the core of the repository (src/utils/json.ts,
    src/utils/fs.ts, src/secrets.ts, src/planner.ts, skills.ts, sync.ts and
    the agent adapters) together with the properties stated for it.

    Conventions.
    - A JavaScript string is a [string]; every [ascii] stands for one code
      unit, and the default [Array.prototype.sort] order is the
      lexicographic order on code units ([String.leb]).
    - A JavaScript value built by [JSON.parse], [TOML.parse] or an object
      literal is a [json] tree.  An object is the list of its own
      enumerable properties in enumeration order.
    - Code that touches the disk runs in a state-and-exception monad over
      an abstract file system that also records every mutating system call
      it issues. *)

From Stdlib Require Import String Ascii ZArith List Lia DecimalString DecimalZ DecimalPos.
From stdpp Require Import gmap strings list sorting.

Local Open Scope string_scope.
Local Open Scope list_scope.
Set Warnings "-register-all".

(* ================================================================== *)
(** * Part I: the embedding                                            *)
(* ================================================================== *)

(** ** Strings *)

Definition str_le (a b : string) : Prop := String.leb a b = true.

#[global] Instance str_le_dec a b : Decision (str_le a b).
Proof. unfold str_le. apply _. Defined.

(** [array.sort()] without a comparator on an array of strings. *)
Definition sort_strings (l : list string) : list string := merge_sort str_le l.

(** [s.startsWith(p)] *)
Definition startsWith (p s : string) : bool := String.prefix p s.

(** [s.slice(n)] for [0 <= n]. *)
Fixpoint slice (n : nat) (s : string) : string :=
  match n, s with
  | O, _ => s
  | S n', String _ s' => slice n' s'
  | S _, EmptyString => EmptyString
  end.

(** White space removed by [String.prototype.trim] among the code units
    below 256: TAB, LF, VT, FF, CR, SPACE and NBSP. *)
Definition is_space (c : ascii) : bool :=
  let n := nat_of_ascii c in
  (((9 <=? n) && (n <=? 13)) || (n =? 32) || (n =? 160))%nat.

Fixpoint trim_start (s : string) : string :=
  match s with
  | String c s' => if is_space c then trim_start s' else s
  | EmptyString => EmptyString
  end.

Fixpoint trim_end (s : string) : string :=
  match s with
  | String c s' =>
      match trim_end s' with
      | EmptyString => if is_space c then EmptyString else String c EmptyString
      | t => String c t
      end
  | EmptyString => EmptyString
  end.

Definition trim (s : string) : string := trim_end (trim_start s).

Arguments slice : simpl never.
Arguments trim : simpl never.

Definition dquote : string := String (ascii_of_nat 34) EmptyString.

(** [s.split(",")] for a separator of one code unit. *)
Fixpoint split_on (sep : ascii) (s : string) : list string :=
  match s with
  | EmptyString => [EmptyString]
  | String c s' =>
      if Ascii.eqb c sep then EmptyString :: split_on sep s'
      else match split_on sep s' with
           | piece :: rest => String c piece :: rest
           | [] => [String c EmptyString]
           end
  end.

(** [l.join(sep)] *)
Fixpoint join (sep : string) (l : list string) : string :=
  match l with
  | [] => ""
  | [x] => x
  | x :: l' => x +:+ sep +:+ join sep l'
  end.

(** ** JavaScript values *)

Inductive json : Type :=
| JNull
| JBool (b : bool)
| JNum (n : Z)
| JStr (s : string)
| JArr (items : list json)
| JObj (props : list (string * json)).

(** Numbers are the integers, which [JSON.stringify] prints in plain
    decimal notation with every digit (as the engine does for the integers
    it holds exactly, below [2^53] in absolute value).  Fractions, [NaN]
    and the infinities have no term here: what is proved of numbers is
    proved of these integers, and a property that compares two values is
    stated on their canonical texts, not on the values. *)

Definition keys {A} (o : list (string * A)) : list string := map fst o.

(** [o[k]] on an object; [None] is [undefined]. *)
Fixpoint obj_get {A} (k : string) (o : list (string * A)) : option A :=
  match o with
  | [] => None
  | (k', v) :: o' => if String.eqb k k' then Some v else obj_get k o'
  end.

Definition obj_has {A} (k : string) (o : list (string * A)) : bool :=
  match obj_get k o with Some _ => true | None => false end.

(** *** Property order

    The engine enumerates the own properties of an ordinary object with
    the canonical array indices first, in ascending numeric order, and the
    other string keys after them in creation order. *)

Definition is_digit (c : ascii) : bool :=
  let n := nat_of_ascii c in ((48 <=? n) && (n <=? 57))%nat.

Fixpoint digits_value (s : string) (acc : N) : option N :=
  match s with
  | EmptyString => Some acc
  | String c s' =>
      if is_digit c then digits_value s' (acc * 10 + (N_of_ascii c - 48))%N
      else None
  end.

(** A canonical numeric string below [2^32 - 1]. *)
Definition array_index (k : string) : option N :=
  match k with
  | EmptyString => None
  | String c rest =>
      if (Ascii.eqb c "0" && negb (String.eqb rest EmptyString))%bool then None
      else match digits_value k 0 with
           | Some n => if (n <? 4294967295)%N then Some n else None
           | None => None
           end
  end.

Fixpoint obj_replace {A} (k : string) (v : A) (o : list (string * A)) :=
  match o with
  | [] => []
  | (k', v') :: o' =>
      if String.eqb k k' then (k', v) :: o' else (k', v') :: obj_replace k v o'
  end.

(** Position of a fresh array index [i] among the properties. *)
Fixpoint obj_insert_index {A} (i : N) (k : string) (v : A) (o : list (string * A)) :=
  match o with
  | [] => [(k, v)]
  | (k', v') :: o' =>
      match array_index k' with
      | Some j => if (j <? i)%N then (k', v') :: obj_insert_index i k v o'
                  else (k, v) :: o
      | None => (k, v) :: o
      end
  end.

(** [o[k] = v] for a key that names an own data property or none at
    all: the property is overwritten where it stands, or created. *)
Definition obj_set {A} (o : list (string * A)) (k : string) (v : A) :=
  if obj_has k o then obj_replace k v o
  else match array_index k with
       | Some i => obj_insert_index i k v o
       | None => (o ++ [(k, v)])%list
       end.

(** The key that [Object.prototype] answers with an accessor. *)
Definition is_proto (k : string) : bool := String.eqb k "__proto__".

(** [o[k] = v] on an object that started as [{}] and received its
    properties by such assignments only.  The key [__proto__] reaches the
    setter of [Object.prototype]: no own property is created.  The setter
    changes the prototype when [v] is an object, which has no term here:
    an object is its own properties.  The objects built this way are then
    enumerated or serialised, which looks at own properties only, or read
    at names that a key [__proto__] of a hand-made file could put on the
    prototype; such a read is modelled as the read of the own property. *)
Definition assign {A} (o : list (string * A)) (k : string) (v : A) : list (string * A) :=
  if is_proto k then o else obj_set o k v.

(** The entries that such assignments keep. *)
Definition kept {A} (es : list (string * A)) : list (string * A) :=
  List.filter (fun e => negb (is_proto (fst e))) es.

(** An object built from [{}] by assigning the entries one after the other. *)
Definition obj_of_entries {A} (es : list (string * A)) : list (string * A) :=
  fold_left (fun acc e => assign acc (fst e) (snd e)) es [].

(** The entries made own properties one after the other. *)
Definition own_entries {A} (es : list (string * A)) : list (string * A) :=
  fold_left (fun acc e => obj_set acc (fst e) (snd e)) es [].

(** ** utils/json.ts *)

(** [record[key]] for a key taken from [Object.keys(record)]: the lookup
    cannot miss, the default is never used. *)
Definition obj_at (k : string) (o : list (string * json)) : json :=
  default JNull (obj_get k o).

(** [sortValue]: arrays keep their order, objects are rebuilt with their
    keys in sorted order, everything else is returned as it is.  The
    recursive calls on the property values are made first; this is the
    same object as the one the loop builds, since the loop reads every
    property exactly once. *)
Fixpoint sortValue (value : json) : json :=
  match value with
  | JArr items => JArr (map sortValue items)
  | JObj props =>
      let record := map (fun kv => (fst kv, sortValue (snd kv))) props in
      JObj (obj_of_entries
              (map (fun key => (key, obj_at key record))
                   (sort_strings (keys record))))
  | _ => value
  end.

(** *** [JSON.stringify] without indentation *)

Definition print_Z (n : Z) : string := NilZero.string_of_int (Z.to_int n).

Definition hex_digit (n : nat) : ascii :=
  ascii_of_nat (if n <? 10 then 48 + n else 87 + n)%nat.

(** The text after the backslash for a code unit that has to be escaped. *)
Definition escape_code (c : ascii) : option string :=
  let n := nat_of_ascii c in
  if (n =? 34)%nat then Some dquote
  else if (n =? 92)%nat then Some "\"
  else if (n =? 8)%nat then Some "b"
  else if (n =? 12)%nat then Some "f"
  else if (n =? 10)%nat then Some "n"
  else if (n =? 13)%nat then Some "r"
  else if (n =? 9)%nat then Some "t"
  else if (n <? 32)%nat then
    Some ("u00" +:+ String (hex_digit (n / 16)) (String (hex_digit (n mod 16)) ""))
  else None.

Definition escape_char (c : ascii) : string :=
  match escape_code c with
  | Some code => String "\" code
  | None => String c ""
  end.

(** The quoted string followed by [k]. *)
Fixpoint quote_body (s : string) (k : string) : string :=
  match s with
  | EmptyString => dquote +:+ k
  | String c s' => escape_char c +:+ quote_body s' k
  end.

Definition quote_then (s k : string) : string := dquote +:+ quote_body s k.

(** [stringify_then v k] is the text of [v] followed by [k]. *)
Fixpoint stringify_then (v : json) (k : string) : string :=
  match v with
  | JNull => "null" +:+ k
  | JBool true => "true" +:+ k
  | JBool false => "false" +:+ k
  | JNum n => print_Z n +:+ k
  | JStr s => quote_then s k
  | JArr items =>
      match items with
      | [] => "[]" +:+ k
      | x :: rest =>
          "[" +:+ stringify_then x
            ((fix tail (l : list json) : string :=
                match l with
                | [] => "]" +:+ k
                | y :: l' => "," +:+ stringify_then y (tail l')
                end) rest)
      end
  | JObj props =>
      match props with
      | [] => "{}" +:+ k
      | (key, x) :: rest =>
          "{" +:+ quote_then key (":" +:+ stringify_then x
            ((fix tail (l : list (string * json)) : string :=
                match l with
                | [] => "}" +:+ k
                | (key', y) :: l' =>
                    "," +:+ quote_then key' (":" +:+ stringify_then y (tail l'))
                end) rest))
      end
  end.

Definition JSON_stringify (v : json) : string := stringify_then v "".

Definition stableStringify (value : json) : string :=
  JSON_stringify (sortValue value).

Record ServerDiff := {
  added : list string;
  removed : list string;
  changed : list string;
  unchanged : nat
}.

(** The first loop of [diffServerMaps], one iteration. *)
Definition diff_desired_step (current desired : list (string * json))
    (acc : list string * list string * nat) (id : string)
  : list string * list string * nat :=
  let '(added, changed, unchanged) := acc in
  if negb (obj_has id current) then ((added ++ [id])%list, changed, unchanged)
  else if negb (String.eqb (stableStringify (obj_at id current))
                           (stableStringify (obj_at id desired)))
       then (added, (changed ++ [id])%list, unchanged)
       else (added, changed, S unchanged).

Definition diffServerMaps (current desired : list (string * json)) : ServerDiff :=
  let currentIds := keys current in
  let desiredIds := keys desired in
  let '(added, changed, unchanged) :=
    fold_left (diff_desired_step current desired) desiredIds ([], [], 0) in
  let removed := List.filter (fun id => negb (obj_has id desired)) currentIds in
  {| added := sort_strings added;
     removed := sort_strings removed;
     changed := sort_strings changed;
     unchanged := unchanged |}.

Definition hasDiff (diff : ServerDiff) : bool :=
  ((0 <? length (added diff)) || (0 <? length (removed diff))
   || (0 <? length (changed diff)))%nat.

(** ** Exceptions *)

(** A computation either returns or throws an [Error] with a message. *)
Inductive result (A : Type) : Type :=
| Ok (a : A)
| Throw (message : string).
Arguments Ok {A} a.
Arguments Throw {A} message.

Definition result_bind {A B} (r : result A) (f : A -> result B) : result B :=
  match r with
  | Ok a => f a
  | Throw m => Throw m
  end.

Definition result_map {A B} (f : A -> B) (r : result A) : result B :=
  result_bind r (fun a => Ok (f a)).

(** ** secrets.ts *)

(** [process.env[key]] when it is a string. *)
Definition Env : Type := string -> option string.

Record SecretResolveOptions := { allowMissingEnv : option bool }.

(** Truthiness of an optional boolean property. *)
Definition truthy_flag (b : option bool) : bool := default false b.

Definition invalid_empty_ref (context : string) : string :=
  "Invalid empty env reference at " +:+ context +:+ ".".

Definition missing_env (key context : string) : string :=
  "Missing environment variable " +:+ dquote +:+ key +:+ dquote
  +:+ " referenced at " +:+ context +:+ ".".

Definition resolveStringRef (env : Env) (input context : string)
    (options : SecretResolveOptions) : result string :=
  if negb (startsWith "env://" input) then Ok input
  else
    let key := trim (slice 6 input) in
    if String.eqb key "" then Throw (invalid_empty_ref context)
    else match env key with
         | None =>
             if truthy_flag (allowMissingEnv options) then Ok input
             else Throw (missing_env key context)
         | Some value => Ok value
         end.

(** Template text [`${context}[${index}]`] and [`${context}.${key}`]. *)
Definition index_context (context : string) (index : nat) : string :=
  context +:+ "[" +:+ print_Z (Z.of_nat index) +:+ "]".

Definition key_context (context key : string) : string :=
  context +:+ "." +:+ key.

Fixpoint resolveValue (env : Env) (options : SecretResolveOptions)
    (value : json) (context : string) : result json :=
  match value with
  | JStr s => result_map JStr (resolveStringRef env s context options)
  | JArr items =>
      result_map JArr
        ((fix each (l : list json) (index : nat) : result (list json) :=
            match l with
            | [] => Ok []
            | entry :: l' =>
                result_bind
                  (resolveValue env options entry (index_context context index))
                  (fun r => result_map (cons r) (each l' (S index)))
            end) items 0)
  | JObj props =>
      result_map (fun es => JObj (obj_of_entries es))
        ((fix each (l : list (string * json)) : result (list (string * json)) :=
            match l with
            | [] => Ok []
            | (key, entry) :: l' =>
                result_bind
                  (resolveValue env options entry (key_context context key))
                  (fun r => result_map (cons (key, r)) (each l'))
            end) props)
  | _ => Ok value
  end.

Definition resolveServerSecrets (env : Env) (serverId : string) (server : json)
    (options : SecretResolveOptions) : result json :=
  resolveValue env options server ("mcp.servers." +:+ serverId).

(** ** types.ts *)

Inductive AgentName := codex | gemini | claude | vscode | antigravity.

#[global] Instance AgentName_eq_dec : EqDecision AgentName.
Proof. solve_decision. Defined.

Definition agent_name (a : AgentName) : string :=
  match a with
  | codex => "codex"
  | gemini => "gemini"
  | claude => "claude"
  | vscode => "vscode"
  | antigravity => "antigravity"
  end.

Definition AGENTS : list AgentName := [codex; gemini; claude; vscode; antigravity].

Record TargetConfig := {
  enabled : option bool;
  allow : option (list string);
  deny : option (list string);
  outputPath : option string;
  skillsEnabled : option bool;
  allowSkills : option (list string);
  denySkills : option (list string);
  skillsOutputDir : option string
}.

(** The object literal [{}] used when a target is not configured. *)
Definition empty_target : TargetConfig :=
  {| enabled := None; allow := None; deny := None; outputPath := None;
     skillsEnabled := None; allowSkills := None; denySkills := None;
     skillsOutputDir := None |}.

Record UnifiedSkill := {
  content : option string;
  sourcePath : option string;
  fileName : option string;
  skill_enabledIn : option (AgentName -> option bool)
}.

(** A server definition is kept as the object it is at run time, because
    the secret resolver walks it generically. *)
Record UnifiedConfig := {
  version : string;
  mcp_servers : list (string * json);
  skills_items : option (list (string * UnifiedSkill));
  targets : option (AgentName -> option TargetConfig)
}.

Record SkillMaterialized := {
  sm_fileName : string;
  sm_content : string
}.

(** ** planner.ts and skills.ts: enablement *)

(** [x === false] for an optional boolean. *)
Definition is_false (b : option bool) : bool :=
  match b with Some false => true | _ => false end.

(** [list.includes(id)] *)
Definition includes (id : string) (l : list string) : bool :=
  existsb (String.eqb id) l.

(** [list && list.length > 0 && !list.includes(id)] *)
Definition excluded_by_allow (l : option (list string)) (id : string) : bool :=
  match l with
  | Some l => (0 <? length l)%nat && negb (includes id l)
  | None => false
  end.

(** [list && list.includes(id)] *)
Definition listed_in (l : option (list string)) (id : string) : bool :=
  match l with
  | Some l => includes id l
  | None => false
  end.

(** [server.enabledIn && server.enabledIn[agent]] read from the object. *)
Definition server_enabledIn (server : json) (agent : AgentName) : option json :=
  match server with
  | JObj props =>
      match obj_get "enabledIn" props with
      | Some (JObj flags) => obj_get (agent_name agent) flags
      | _ => None
      end
  | _ => None
  end.

Definition json_is_false (v : option json) : bool :=
  match v with Some (JBool false) => true | _ => false end.

Definition serverEnabledForAgent (serverId : string) (server : json)
    (agent : AgentName) (target : TargetConfig) : bool :=
  if is_false (enabled target) then false
  else if excluded_by_allow (allow target) serverId then false
  else if listed_in (deny target) serverId then false
  else if json_is_false (server_enabledIn server agent) then false
  else true.

Definition skill_flag (skill : UnifiedSkill) (agent : AgentName) : option bool :=
  match skill_enabledIn skill with
  | Some flags => flags agent
  | None => None
  end.

Definition skillEnabledForAgent (skillId : string) (skill : UnifiedSkill)
    (agent : AgentName) (target : TargetConfig) : bool :=
  if is_false (enabled target) || is_false (skillsEnabled target) then false
  else if excluded_by_allow (allowSkills target) skillId then false
  else if listed_in (denySkills target) skillId then false
  else if is_false (skill_flag skill agent) then false
  else true.

(** ** The platform

    Functions of Node and of the npm packages the code calls.  They are
    parameters of the development: nothing is assumed about them beyond
    what a statement says. *)

Class Platform := {
  (** [path.join(a, b)], [path.dirname], [path.basename], [path.extname],
      [path.isAbsolute], [path.resolve] *)
  path_join : string -> string -> string;
  path_dirname : string -> string;
  path_basename : string -> string;
  path_extname : string -> string;
  path_isAbsolute : string -> bool;
  path_resolve : string -> string;
  (** [os.homedir()], [process.cwd()], [process.pid], [process.env] *)
  os_homedir : string;
  process_cwd : string;
  process_pid : N;
  process_env : Env;
  (** the n-th reading of the clock: [Date.now()], and the text
      [toISOString()] gives for a reading *)
  clock_ms : nat -> N;
  iso_string : N -> string;
  (** [JSON.parse] and [TOML.parse]; a thrown error is its [String(error)] *)
  JSON_parse : string -> result json;
  TOML_parse : string -> result json;
  (** [JSON.stringify(v, null, 2)] and [TOML.stringify] *)
  JSON_pretty : json -> string;
  TOML_stringify : json -> string;
  (** [a.localeCompare(b) <= 0] *)
  locale_leb : string -> string -> bool;
  (** what the specification leaves open about adapters/antigravity.ts,
      whose source is not part of the corpus: its fixed home-relative
      default path and its field mapping *)
  antigravity_default_path : string;
  antigravity_normalizeServer : string -> json -> result json
}.

(** ** The file system *)

(** A disk of regular files and directories.  A file is kept under the
    text of its path: the programs below hand the system calls paths they
    have built with [path.join] from resolved directories, and on this disk
    two paths of different text are two files.  Links, case-insensitive
    names and two spellings of one path are outside it; a statement that
    depends on which file a path names says so through [path.resolve]. *)
Record FS := {
  files : gmap string string;
  dirs : gset string
}.

(** The mutating system calls. *)
Inductive Op :=
| OpMkdir (dir : list string)
| OpWriteFile (target : string) (data : string)
| OpRename (source target : string)
| OpCopyFile (source target : string)
| OpRm (target : string).

Definition apply_op (op : Op) (s : FS) : FS :=
  match op with
  | OpMkdir ds => {| files := files s; dirs := list_to_set ds ∪ dirs s |}
  | OpWriteFile p c => {| files := <[p := c]> (files s); dirs := dirs s |}
  | OpRename a b =>
      match files s !! a with
      | Some c => {| files := <[b := c]> (delete a (files s)); dirs := dirs s |}
      | None => s
      end
  | OpCopyFile a b =>
      match files s !! a with
      | Some c => {| files := <[b := c]> (files s); dirs := dirs s |}
      | None => s
      end
  | OpRm p => {| files := delete p (files s); dirs := dirs s |}
  end.

Definition replay (ops : list Op) (s : FS) : FS :=
  fold_left (fun acc op => apply_op op acc) ops s.

(** The path an operation writes to, when it writes a file. *)
Definition written_path (op : Op) : option string :=
  match op with
  | OpMkdir _ => None
  | OpWriteFile p _ => Some p
  | OpRename _ b => Some b
  | OpCopyFile _ b => Some b
  | OpRm p => Some p
  end.

(** The paths whose content an operation can change. *)
Definition touches (op : Op) (p : string) : Prop :=
  match op with
  | OpMkdir _ => False
  | OpWriteFile q _ => q = p
  | OpRename a b => a = p \/ b = p
  | OpCopyFile _ b => b = p
  | OpRm q => q = p
  end.

#[global] Instance touches_dec op p : Decision (touches op p).
Proof. destruct op; simpl; apply _. Defined.

(** The step of sync.ts on whose behalf a call is issued: the snapshot
    bookkeeping, the native configuration of an agent, or its managed
    skills.  It is a label kept next to the call, for the statements only. *)
Inductive Origin :=
| OOther
| OSnapshot
| OMcp (agentName : string)
| OSkills (agentName : string).

#[global] Instance Origin_eq_dec : EqDecision Origin.
Proof. solve_decision. Defined.

(** The state of the machine: the disk, the calls issued so far (oldest
    first), the number of clock readings taken and the current label. *)
Record World := {
  disk : FS;
  trace : list (Origin * Op);
  ticks : nat;
  origin : Origin
}.

Definition M (A : Type) : Type := World -> result A * World.

Definition ret {A} (a : A) : M A := fun w => (Ok a, w).

Definition throw {A} (message : string) : M A := fun w => (Throw message, w).

Definition bind {A B} (m : M A) (f : A -> M B) : M B :=
  fun w =>
    match m w with
    | (Ok a, w') => f a w'
    | (Throw e, w') => (Throw e, w')
    end.

Definition lift {A} (r : result A) : M A := fun w => (r, w).

(** [try { m } catch { h }] *)
Definition try_catch {A} (m : M A) (h : string -> M A) : M A :=
  fun w =>
    match m w with
    | (Ok a, w') => (Ok a, w')
    | (Throw e, w') => h e w'
    end.

Declare Scope m_scope.
Notation "x ← y ; z" := (bind y (fun x => z))
  (at level 20, y at level 100, z at level 200, only parsing) : m_scope.
Notation "y ;; z" := (bind y (fun _ => z))
  (at level 100, z at level 200, only parsing, right associativity) : m_scope.
Local Open Scope m_scope.

Fixpoint for_each {A} (l : list A) (body : A -> M unit) : M unit :=
  match l with
  | [] => ret tt
  | x :: l' => body x ;; for_each l' body
  end.

Fixpoint map_M {A B} (f : A -> M B) (l : list A) : M (list B) :=
  match l with
  | [] => ret []
  | x :: l' => y ← f x; ys ← map_M f l'; ret (y :: ys)
  end.

Definition issue (op : Op) : M unit :=
  fun w => (Ok tt, {| disk := apply_op op (disk w);
                      trace := trace w ++ [(origin w, op)];
                      ticks := ticks w;
                      origin := origin w |}).

Definition set_origin (o : Origin) (w : World) : World :=
  {| disk := disk w; trace := trace w; ticks := ticks w; origin := o |}.

(** Run [m] with the calls it issues labelled [o]. *)
Definition with_origin {A} (o : Origin) (m : M A) : M A :=
  fun w =>
    match m (set_origin o w) with
    | (r, w') => (r, set_origin (origin w) w')
    end.

Definition is_file (s : FS) (p : string) : bool := bool_decide (is_Some (files s !! p)).
Definition is_dir (s : FS) (p : string) : bool := bool_decide (p ∈ dirs s).

(** *** System calls (node:fs/promises) *)

(** [access(p)] succeeds *)
Definition sys_access (p : string) : M bool :=
  fun w => (Ok (is_file (disk w) p || is_dir (disk w) p), w).

Definition sys_readFile (p : string) : M string :=
  fun w =>
    match files (disk w) !! p with
    | Some c => (Ok c, w)
    | None => (Throw ("ENOENT: no such file or directory, open " +:+ p), w)
    end.

Definition sys_writeFile (p data : string) : M unit := issue (OpWriteFile p data).

Definition sys_rename (a b : string) : M unit :=
  fun w =>
    match files (disk w) !! a with
    | Some _ => issue (OpRename a b) w
    | None => (Throw ("ENOENT: no such file or directory, rename " +:+ a), w)
    end.

Definition sys_copyFile (a b : string) : M unit :=
  fun w =>
    match files (disk w) !! a with
    | Some _ => issue (OpCopyFile a b) w
    | None => (Throw ("ENOENT: no such file or directory, copyfile " +:+ a), w)
    end.

(** [rm(p, { force: true })]: a missing path is not an error, a directory is. *)
Definition sys_rm_force (p : string) : M unit :=
  fun w =>
    if is_dir (disk w) p
    then (Throw ("ERR_FS_EISDIR: path is a directory: rm " +:+ p), w)
    else issue (OpRm p) w.

Section WithPlatform.
Context `{Platform}.

(** The directory and the directories above it. *)
Fixpoint ancestors (fuel : nat) (dir : string) : list string :=
  match fuel with
  | O => [dir]
  | S fuel' =>
      let up := path_dirname dir in
      if String.eqb up dir then [dir] else dir :: ancestors fuel' up
  end.

(** [mkdir(dir, { recursive: true })] *)
Definition sys_mkdir_recursive (dir : string) : M unit :=
  issue (OpMkdir (ancestors (String.length dir) dir)).

(** [Date.now()] *)
Definition date_now : M N :=
  fun w => (Ok (clock_ms (ticks w)),
            {| disk := disk w; trace := trace w; ticks := S (ticks w);
               origin := origin w |}).

(** [readdir(dir, { withFileTypes: true })] restricted to the entries
    that are directories, by name. *)
Definition sys_readdir_dirs (dir : string) : M (list string) :=
  fun w =>
    if is_dir (disk w) dir then
      (Ok (map path_basename
             (List.filter (fun p => String.eqb (path_dirname p) dir
                                    && negb (String.eqb p dir))
                          (elements (dirs (disk w))))), w)
    else (Throw ("ENOTDIR: not a directory, scandir " +:+ dir), w).

(** ** utils/fs.ts *)

Definition pathExists (filePath : string) : M bool := sys_access filePath.

Definition ensureParentDir (filePath : string) : M unit :=
  sys_mkdir_recursive (path_dirname filePath).

Definition readTextIfExists (filePath : string) : M (option string) :=
  e ← pathExists filePath;
  if negb e then ret None
  else c ← sys_readFile filePath; ret (Some c).

Definition print_N (n : N) : string := print_Z (Z.of_N n).

Definition temp_path (filePath : string) (pid now : N) : string :=
  filePath +:+ ".tmp-" +:+ print_N pid +:+ "-" +:+ print_N now.

Definition writeTextAtomic (filePath content : string) : M unit :=
  ensureParentDir filePath;;
  now ← date_now;
  let tempPath := temp_path filePath process_pid now in
  sys_writeFile tempPath content;;
  sys_rename tempPath filePath.

Definition copyIfExists (fromPath toPath : string) : M bool :=
  e ← pathExists fromPath;
  if negb e then ret false
  else
    ensureParentDir toPath;;
    sys_copyFile fromPath toPath;;
    ret true.

(** ** JavaScript readings of a value *)

(** [v.k]; [None] is [undefined].  Reading a property of a primitive
    gives [undefined]. *)
Definition prop (k : string) (v : json) : option json :=
  match v with
  | JObj o => obj_get k o
  | _ => None
  end.

Definition truthy (v : option json) : bool :=
  match v with
  | None | Some JNull => false
  | Some (JBool b) => b
  | Some (JNum n) => negb (n =? 0)%Z
  | Some (JStr s) => negb (String.eqb s "")
  | Some (JArr _) | Some (JObj _) => true
  end.

(** The own properties of an array, as an object has them. *)
Definition array_as_object (l : list json) : list (string * json) :=
  imap (fun i v => (print_Z (Z.of_nat i), v)) l.

Definition string_as_object (s : string) : list (string * json) :=
  array_as_object (map (fun c => JStr (String c "")) (list_ascii_of_string s)).

(** [{ ...v }] *)
Definition spread (v : json) : list (string * json) :=
  match v with
  | JObj o => o
  | JArr l => array_as_object l
  | JStr s => string_as_object s
  | _ => []
  end.

(** [v.length > 0] *)
Definition length_positive (v : json) : bool :=
  match v with
  | JArr l => (0 <? length l)%nat
  | JStr s => (0 <? String.length s)%nat
  | JObj o => match obj_get "length" o with
              | Some (JNum n) => (0 <? n)%Z
              | _ => false
              end
  | _ => false
  end.

(** [Object.keys(v).length > 0] *)
Definition has_keys (v : json) : bool :=
  match spread v with [] => false | _ => true end.

(** [`${v}`] *)
Fixpoint template_text (v : json) : string :=
  match v with
  | JNull => "null"
  | JBool true => "true"
  | JBool false => "false"
  | JNum n => print_Z n
  | JStr s => s
  | JArr l =>
      (fix join (l : list json) : string :=
         match l with
         | [] => ""
         | [x] => match x with JNull => "" | _ => template_text x end
         | x :: l' =>
             match x with JNull => "" | _ => template_text x end
             +:+ "," +:+ join l'
         end) l
  | JObj _ => "[object Object]"
  end.

Definition template_opt (v : option json) : string :=
  match v with Some x => template_text x | None => "undefined" end.

(** ** adapters/base.ts *)

Record LoadResult := {
  exists_ : bool;
  data : json
}.

Record AgentAdapter := {
  agent : AgentName;
  resolvePath : TargetConfig -> M string;
  load : string -> M LoadResult;
  createEmpty : json;
  extractServers : json -> result (list (string * json));
  withServers : json -> list (string * json) -> json;
  normalizeServer : string -> json -> result json;
  format : json -> string
}.

(** [target?.outputPath] is truthy *)
Definition output_override (target : TargetConfig) : option string :=
  match outputPath target with
  | Some p => if String.eqb p "" then None else Some p
  | None => None
  end.

(** The body shared by the [load] methods: they differ in the parser, the
    name in the error message and the empty document. *)
Definition load_with (parse : string -> result json) (what : string)
    (empty : json) (filePath : string) : M LoadResult :=
  content ← readTextIfExists filePath;
  match content with
  | None => ret {| exists_ := false; data := empty |}
  | Some text =>
      if String.eqb (trim text) "" then ret {| exists_ := false; data := empty |}
      else match parse text with
           | Throw error =>
               throw ("Failed parsing " +:+ what +:+ " (" +:+ filePath +:+ "): " +:+ error)
           | Ok parsed => ret {| exists_ := true; data := parsed |}
           end
  end.

(** [root.key] with [root = data as Record<string, unknown>]: reading a
    property of [null] is a [TypeError]; then
    [!servers || typeof servers !== "object"]. *)
Definition extract_key (key : string) (data : json) : result (list (string * json)) :=
  match data with
  | JNull => Throw ("TypeError: Cannot read properties of null (reading '" +:+ key +:+ "')")
  | _ =>
      match prop key data with
      | Some (JObj servers) => Ok servers
      | Some (JArr servers) => Ok (array_as_object servers)
      | _ => Ok []
      end
  end.

(** [{ ...data }] followed by [root.key = servers] *)
Definition with_key (key : string) (data : json) (servers : list (string * json)) : json :=
  JObj (obj_set (spread data) key (JObj servers)).

Definition requires_command (serverId : string) : string :=
  "Server " +:+ dquote +:+ serverId +:+ dquote +:+ " requires " +:+ dquote
  +:+ "command" +:+ dquote +:+ " for stdio transport.".

Definition requires_url (serverId : string) (server : json) : string :=
  "Server " +:+ dquote +:+ serverId +:+ dquote +:+ " requires " +:+ dquote
  +:+ "url" +:+ dquote +:+ " for " +:+ template_opt (prop "transport" server)
  +:+ " transport.".

(** [if (cond(server.k)) result.k = server.k] *)
Definition copy_if (cond : json -> bool) (k : string) (server : json)
    (result : list (string * json)) : list (string * json) :=
  match prop k server with
  | Some v => if truthy (Some v) && cond v then obj_set result k v else result
  | None => result
  end.

Definition copy_number (k : string) (server : json)
    (result : list (string * json)) : list (string * json) :=
  match prop k server with
  | Some (JNum n) => obj_set result k (JNum n)
  | _ => result
  end.

Definition is_stdio (server : json) : bool :=
  match prop "transport" server with
  | Some (JStr t) => String.eqb t "stdio"
  | _ => false
  end.

(** The [normalizeServer] methods differ in whether the record carries a
    [type] for stdio servers, a [type] for the other transports, and the
    start-up timeout. *)
Definition normalize_with (stdio_type other_type timeout : bool)
    (serverId : string) (server : json) : result json :=
  if is_stdio server then
    match prop "command" server with
    | Some command =>
        if truthy (Some command) then
          let r0 := if stdio_type then [("type", JStr "stdio"); ("command", command)]
                    else [("command", command)] in
          let r1 := copy_if length_positive "args" server r0 in
          let r2 := copy_if has_keys "env" server r1 in
          let r3 := if timeout then copy_number "startup_timeout_sec" server r2 else r2 in
          Ok (JObj r3)
        else Throw (requires_command serverId)
    | None => Throw (requires_command serverId)
    end
  else
    match prop "url" server with
    | Some url =>
        if truthy (Some url) then
          let r0 := if other_type
                    then [("type", default JNull (prop "transport" server)); ("url", url)]
                    else [("url", url)] in
          Ok (JObj (copy_if has_keys "headers" server r0))
        else Throw (requires_url serverId server)
    | None => Throw (requires_url serverId server)
    end.

Definition fixed_path (default_path : string) (target : TargetConfig) : M string :=
  match output_override target with
  | Some p => ret p
  | None => ret default_path
  end.

(** *** adapters/codex.ts *)
Definition CodexAdapter : AgentAdapter := {|
  agent := codex;
  resolvePath := fixed_path (path_join (path_join os_homedir ".codex") "config.toml");
  load := load_with TOML_parse "Codex TOML config" (JObj []);
  createEmpty := JObj [];
  extractServers := extract_key "mcp_servers";
  withServers := with_key "mcp_servers";
  normalizeServer := normalize_with false false true;
  format := TOML_stringify
|}.

Definition format_json (data : json) : string :=
  JSON_pretty data +:+ String (ascii_of_nat 10) "".

(** *** adapters/gemini.ts *)
Definition GeminiAdapter : AgentAdapter := {|
  agent := gemini;
  resolvePath := fixed_path (path_join (path_join os_homedir ".gemini") "settings.json");
  load := load_with JSON_parse "Gemini config" (JObj []);
  createEmpty := JObj [];
  extractServers := extract_key "mcpServers";
  withServers := with_key "mcpServers";
  normalizeServer := normalize_with true true true;
  format := format_json
|}.

(** *** adapters/claude.ts *)
Definition claude_resolvePath (target : TargetConfig) : M string :=
  match output_override target with
  | Some p => ret p
  | None =>
      let primary := path_join os_homedir ".claude.json" in
      e ← pathExists primary;
      if e then ret primary
      else ret (path_join (path_join os_homedir ".claude") "settings.json")
  end.

Definition ClaudeAdapter : AgentAdapter := {|
  agent := claude;
  resolvePath := claude_resolvePath;
  load := load_with JSON_parse "Claude config" (JObj []);
  createEmpty := JObj [];
  extractServers := extract_key "mcpServers";
  withServers := with_key "mcpServers";
  normalizeServer := normalize_with true true false;
  format := format_json
|}.

(** *** adapters/vscode.ts *)
Definition vscode_default_path : string :=
  let appData := default (path_join (path_join os_homedir "AppData") "Roaming")
                         (process_env "APPDATA") in
  path_join (path_join (path_join appData "Code") "User") "mcp.json".

Definition VscodeAdapter : AgentAdapter := {|
  agent := vscode;
  resolvePath := fixed_path vscode_default_path;
  load := load_with JSON_parse "VS Code MCP config" (JObj [("servers", JObj [])]);
  createEmpty := JObj [("servers", JObj [])];
  extractServers := extract_key "servers";
  withServers := with_key "servers";
  normalizeServer := normalize_with false true false;
  format := format_json
|}.

(** *** adapters/antigravity.ts *)

(** Modelled from the spec: adapters/antigravity.ts is missing from the
    corpus.  Sections 4.2 and 6 give the contract: the explicit override
    wins over a fixed home-relative default path; a missing or empty file
    loads as the empty document; the dialect is JSON and the servers live
    under [mcpServers]; [withServers] substitutes that key. *)
Definition AntigravityAdapter : AgentAdapter := {|
  agent := antigravity;
  resolvePath := fixed_path antigravity_default_path;
  load := load_with JSON_parse "Antigravity config" (JObj []);
  createEmpty := JObj [];
  extractServers := extract_key "mcpServers";
  withServers := with_key "mcpServers";
  normalizeServer := antigravity_normalizeServer;
  format := format_json
|}.

(** *** adapters/index.ts *)
Definition getAdapters : list AgentAdapter :=
  [CodexAdapter; GeminiAdapter; ClaudeAdapter; VscodeAdapter; AntigravityAdapter].

(** ** skills.ts *)

Record ManagedSkillsState := {
  manifestExists : bool;
  manifest : json;
  skillsById : list (string * SkillMaterialized)
}.

Definition defaultSkillsOutputDir (a : AgentName) : string :=
  let under (d : string) :=
    path_join (path_join (path_join os_homedir d) "skills") "uac-managed" in
  match a with
  | codex => under ".codex"
  | gemini => under ".gemini"
  | _ => under ".claude"
  end.

Definition resolveSkillsDir (a : AgentName) (target : TargetConfig) : string :=
  default (defaultSkillsOutputDir a) (skillsOutputDir target).

Definition getManifestPath (skillsDir : string) : string :=
  path_join skillsDir ".uac-skills-manifest.json".

Definition empty_manifest : json :=
  JObj [("version", JNum 1); ("items", JArr [])].

(** [manifest.items ?? []] as the [for ... of] loop sees it. *)
Definition manifest_items (manifest : json) : result (list json) :=
  match manifest with
  | JNull => Throw "TypeError: Cannot read properties of null (reading 'items')"
  | _ =>
      match prop "items" manifest with
      | None | Some JNull => Ok []
      | Some (JArr l) => Ok l
      | Some (JStr s) => Ok (map (fun c => JStr (String c "")) (list_ascii_of_string s))
      | Some _ => Throw "TypeError: manifest.items is not iterable"
      end
  end.

(** An argument of [path.join] has to be a string. *)
Definition path_arg (v : option json) : result string :=
  match v with
  | Some (JStr s) => Ok s
  | _ => Throw "TypeError [ERR_INVALID_ARG_TYPE]: The path argument must be of type string"
  end.

(** [item.fileName] of a manifest item, for [path.join]. *)
Definition item_fileName (item : json) : result string :=
  match item with
  | JNull => Throw "TypeError: Cannot read properties of null (reading 'fileName')"
  | _ => path_arg (prop "fileName" item)
  end.

Definition readManagedSkills (skillsDir : string) : M ManagedSkillsState :=
  let manifestPath := getManifestPath skillsDir in
  let absent := {| manifestExists := false; manifest := empty_manifest;
                   skillsById := [] |} in
  rawManifest ← readTextIfExists manifestPath;
  match rawManifest with
  | None => ret absent
  | Some raw =>
      if String.eqb (trim raw) "" then ret absent
      else
        match JSON_parse raw with
        | Throw error =>
            throw ("Failed to parse skills manifest (" +:+ manifestPath +:+ "): " +:+ error)
        | Ok parsed =>
            items ← lift (manifest_items parsed);
            byId ← (fix each (l : list json) (acc : list (string * SkillMaterialized))
                      : M (list (string * SkillMaterialized)) :=
                      match l with
                      | [] => ret acc
                      | item :: l' =>
                          name ← lift (item_fileName item);
                          content ← readTextIfExists (path_join skillsDir name);
                          each l' (assign acc (template_opt (prop "id" item))
                                     {| sm_fileName := name;
                                        sm_content := default "" content |})
                      end) items [];
            ret {| manifestExists := true; manifest := parsed; skillsById := byId |}
        end
  end.

Definition loadSkillContent (skillId : string) (skill : UnifiedSkill)
    (configDir : string) : M string :=
  match content skill with
  | Some text => ret text
  | None =>
      match sourcePath skill with
      | Some source =>
          if String.eqb source "" then
            throw ("Skill " +:+ dquote +:+ skillId +:+ dquote +:+ " requires either "
                   +:+ dquote +:+ "content" +:+ dquote +:+ " or " +:+ dquote
                   +:+ "sourcePath" +:+ dquote +:+ ".")
          else
            let full := if path_isAbsolute source then source
                        else path_join configDir source in
            e ← pathExists full;
            if negb e then
              throw ("Skill " +:+ dquote +:+ skillId +:+ dquote
                     +:+ " source file not found: " +:+ full)
            else sys_readFile full
      | None =>
          throw ("Skill " +:+ dquote +:+ skillId +:+ dquote +:+ " requires either "
                 +:+ dquote +:+ "content" +:+ dquote +:+ " or " +:+ dquote
                 +:+ "sourcePath" +:+ dquote +:+ ".")
      end
  end.

Definition buildDesiredSkills (config : UnifiedConfig) (a : AgentName)
    (target : TargetConfig) (configDir : string)
  : M (list (string * SkillMaterialized)) :=
  let items := default [] (skills_items config) in
  (fix each (l : list (string * UnifiedSkill)) (acc : list (string * SkillMaterialized))
     : M (list (string * SkillMaterialized)) :=
     match l with
     | [] => ret acc
     | (skillId, skill) :: l' =>
         if negb (skillEnabledForAgent skillId skill a target) then each l' acc
         else
           text ← loadSkillContent skillId skill configDir;
           each l' (assign acc skillId
                      {| sm_fileName := default (skillId +:+ ".md") (fileName skill);
                         sm_content := text |})
     end) items [].

(** ** planner.ts *)

Record AgentPlan := {
  plan_agent : AgentName;
  plan_path : string;
  plan_adapter : AgentAdapter;
  targetConfig : TargetConfig;
  fileExists : bool;
  currentData : json;
  currentServers : list (string * json);
  desiredServers : list (string * json);
  diff : ServerDiff;
  plan_skillsDir : string;
  currentSkills : list (string * SkillMaterialized);
  desiredSkills : list (string * SkillMaterialized);
  skillsDiff : ServerDiff;
  skillsManifestExists : bool
}.

Record BuildPlanOptions := {
  opt_agents : option (list AgentName);
  opt_configDir : option string;
  opt_resolveSecrets : option bool
}.

(** [options.resolveSecrets !== true] *)
Definition not_true (b : option bool) : bool :=
  match b with Some true => false | _ => true end.

Definition normalizeForAgent (a : AgentName) (adapter : AgentAdapter)
    (config : UnifiedConfig) (target : TargetConfig) (options : BuildPlanOptions)
  : result (list (string * json)) :=
  (fix each (l : list (string * json)) (acc : list (string * json))
     : result (list (string * json)) :=
     match l with
     | [] => Ok acc
     | (serverId, server) :: l' =>
         if negb (serverEnabledForAgent serverId server a target) then each l' acc
         else
           result_bind
             (resolveServerSecrets process_env serverId server
                {| allowMissingEnv := Some (not_true (opt_resolveSecrets options)) |})
             (fun resolved =>
                result_bind (normalizeServer adapter serverId resolved)
                  (fun record => each l' (assign acc serverId record)))
     end) (mcp_servers config) [].

(** A materialised skill as the object the diff engine compares. *)
Definition skill_value (sm : SkillMaterialized) : json :=
  JObj [("fileName", JStr (sm_fileName sm)); ("content", JStr (sm_content sm))].

Definition skill_values (m : list (string * SkillMaterialized)) : list (string * json) :=
  map (fun kv => (fst kv, skill_value (snd kv))) m.

Definition target_of (config : UnifiedConfig) (a : AgentName) : TargetConfig :=
  match targets config with
  | Some t => default empty_target (t a)
  | None => empty_target
  end.

Definition plan_for (config : UnifiedConfig) (options : BuildPlanOptions)
    (configDir : string) (adapter : AgentAdapter) : M AgentPlan :=
  let target := target_of config (agent adapter) in
  targetPath ← resolvePath adapter target;
  loaded ← load adapter targetPath;
  current ← lift (extractServers adapter (data loaded));
  desired ← lift (normalizeForAgent (agent adapter) adapter config target options);
  let serverDiff := diffServerMaps current desired in
  let skillsDir := resolveSkillsDir (agent adapter) target in
  currentSkillsState ← readManagedSkills skillsDir;
  desiredSk ← buildDesiredSkills config (agent adapter) target configDir;
  let skDiff := diffServerMaps (skill_values (skillsById currentSkillsState))
                               (skill_values desiredSk) in
  ret {| plan_agent := agent adapter;
         plan_path := targetPath;
         plan_adapter := adapter;
         targetConfig := target;
         fileExists := exists_ loaded;
         currentData := data loaded;
         currentServers := current;
         desiredServers := desired;
         diff := serverDiff;
         plan_skillsDir := path_resolve skillsDir;
         currentSkills := skillsById currentSkillsState;
         desiredSkills := desiredSk;
         skillsDiff := skDiff;
         skillsManifestExists := manifestExists currentSkillsState |}.

Definition buildPlan (config : UnifiedConfig) (options : BuildPlanOptions)
  : M (list AgentPlan) :=
  let configDir := default process_cwd (opt_configDir options) in
  let filter := default AGENTS (opt_agents options) in
  let adapters :=
    List.filter (fun item => bool_decide (agent item ∈ filter)) getAdapters in
  map_M (plan_for config options configDir) adapters.

(** ** config.ts: the state directory *)

Definition getStateDir : string := path_join os_homedir ".uac".

Definition getSnapshotRoot : string := path_join getStateDir "snapshots".

(** ** sync.ts *)

Record AppliedAgent := {
  ap_agent : string;
  mcpPath : string;
  mcpChanged : bool;
  mcpBackupPath : option string;
  mcpExistedBefore : bool;
  ap_skillsDir : string;
  skillsChanged : bool;
  skillsBackupDir : option string;
  skillsManifestExistedBefore : bool
}.

Record SyncResult := {
  snapshotId : string;
  snapshotDir : string;
  applied : list AppliedAgent
}.

(** The object [JSON.stringify] sees: a property whose value is
    [undefined] is left out. *)
Definition optional_prop (k : string) (v : option string) : list (string * json) :=
  match v with
  | Some s => [(k, JStr s)]
  | None => []
  end.

Definition applied_value (a : AppliedAgent) : json :=
  JObj ([("agent", JStr (ap_agent a));
         ("mcpPath", JStr (mcpPath a));
         ("mcpChanged", JBool (mcpChanged a))]
        ++ optional_prop "mcpBackupPath" (mcpBackupPath a)
        ++ [("mcpExistedBefore", JBool (mcpExistedBefore a));
            ("skillsDir", JStr (ap_skillsDir a));
            ("skillsChanged", JBool (skillsChanged a))]
        ++ optional_prop "skillsBackupDir" (skillsBackupDir a)
        ++ [("skillsManifestExistedBefore", JBool (skillsManifestExistedBefore a))])%list.

(** The [RollbackMeta] object. *)
Definition meta_value (id createdAt : string) (l : list AppliedAgent) : json :=
  JObj [("snapshotId", JStr id);
        ("createdAt", JStr createdAt);
        ("applied", JArr (map applied_value l))].

(** [text.replace(/[:.]/g, "-")] *)
Fixpoint replace_colon_dot (s : string) : string :=
  match s with
  | EmptyString => EmptyString
  | String c s' =>
      String (if (Ascii.eqb c ":" || Ascii.eqb c ".")%bool then "-"%char else c)
             (replace_colon_dot s')
  end.

(** [new Date().toISOString()] *)
Definition date_iso : M string := now ← date_now; ret (iso_string now).

Definition makeSnapshotId : M string :=
  iso ← date_iso; ret (replace_colon_dot iso).

Definition hasSkillsDiff (plan : AgentPlan) : bool := hasDiff (skillsDiff plan).

Definition backupSkillsState (plan : AgentPlan) (snapDir : string) : M string :=
  let agentBackupDir :=
    path_join (path_join snapDir "skills") (agent_name (plan_agent plan)) in
  sys_mkdir_recursive agentBackupDir;;
  let manifestPath := getManifestPath (plan_skillsDir plan) in
  manifestRaw ← readTextIfExists manifestPath;
  match manifestRaw with
  | Some raw => writeTextAtomic (path_join agentBackupDir "manifest.json") raw
  | None => ret tt
  end;;
  for_each (map snd (currentSkills plan)) (fun skill =>
    let source := path_join (plan_skillsDir plan) (sm_fileName skill) in
    e ← pathExists source;
    if e then
      copyIfExists source (path_join agentBackupDir (sm_fileName skill));; ret tt
    else ret tt);;
  ret agentBackupDir.

(** [items.sort((a, b) => a.id.localeCompare(b.id))]: a stable sort. *)
Fixpoint insert_by_id (x : string * string) (l : list (string * string)) :=
  match l with
  | [] => [x]
  | y :: l' => if locale_leb (fst y) (fst x) then y :: insert_by_id x l' else x :: l
  end.

Definition sort_by_id (l : list (string * string)) : list (string * string) :=
  fold_left (fun acc x => insert_by_id x acc) l [].

Definition manifest_value (items : list (string * string)) : json :=
  JObj [("version", JNum 1);
        ("items", JArr (map (fun it => JObj [("id", JStr (fst it));
                                             ("fileName", JStr (snd it))]) items))].

Definition applySkills (plan : AgentPlan) : M unit :=
  ensureParentDir (path_join (plan_skillsDir plan) ".placeholder");;
  let manifestPath := getManifestPath (plan_skillsDir plan) in
  let desiredEntries := desiredSkills plan in
  for_each (currentSkills plan) (fun '(skillId, current) =>
    if obj_has skillId desiredEntries then ret tt
    else
      let filePath := path_join (plan_skillsDir plan) (sm_fileName current) in
      e ← pathExists filePath;
      if e then sys_rm_force filePath else ret tt);;
  for_each desiredEntries (fun '(skillId, desired) =>
    writeTextAtomic (path_join (plan_skillsDir plan) (sm_fileName desired))
                    (sm_content desired));;
  let items := sort_by_id (map (fun e => (fst e, sm_fileName (snd e))) desiredEntries) in
  writeTextAtomic manifestPath (format_json (manifest_value items)).

(** The extension of the backup file: [path.extname(plan.path) || ".bak"] *)
Definition backup_ext (p : string) : string :=
  let ext := path_extname p in
  if String.eqb ext "" then ".bak" else ext.

Definition mcp_backup_path (snapDir : string) (plan : AgentPlan) : string :=
  path_join snapDir (agent_name (plan_agent plan) +:+ backup_ext (plan_path plan)).

(** One iteration of the loop of [applyPlan]. *)
Definition apply_one (snapDir : string) (plan : AgentPlan) : M AppliedAgent :=
  let changed := hasDiff (diff plan) in
  let skChanged := hasSkillsDiff plan in
  let name := agent_name (plan_agent plan) in
  backup ← with_origin (OMcp name)
             (if changed then
                let backupPath := mcp_backup_path snapDir plan in
                backupMade ← copyIfExists (plan_path plan) backupPath;
                ret (if backupMade then Some backupPath else None)
              else ret None);
  skBackup ← with_origin (OSkills name)
               (if skChanged then
                  d ← backupSkillsState plan snapDir; ret (Some d)
                else ret None);
  with_origin (OMcp name)
    (if changed then
       let nextData := withServers (plan_adapter plan) (currentData plan)
                                   (desiredServers plan) in
       let serialized := format (plan_adapter plan) nextData in
       ensureParentDir (plan_path plan);;
       writeTextAtomic (plan_path plan) serialized
     else ret tt);;
  with_origin (OSkills name) (if skChanged then applySkills plan else ret tt);;
  ret {| ap_agent := agent_name (plan_agent plan);
         mcpPath := plan_path plan;
         mcpChanged := changed;
         mcpBackupPath := backup;
         mcpExistedBefore := fileExists plan;
         ap_skillsDir := plan_skillsDir plan;
         skillsChanged := skChanged;
         skillsBackupDir := skBackup;
         skillsManifestExistedBefore := skillsManifestExists plan |}.

Definition meta_path (snapDir : string) : string := path_join snapDir "meta.json".

Definition applyPlan (plans : list AgentPlan) : M SyncResult :=
  id ← makeSnapshotId;
  let snapDir := path_join getSnapshotRoot id in
  with_origin OSnapshot (sys_mkdir_recursive snapDir);;
  done ← map_M (apply_one snapDir) plans;
  createdAt ← date_iso;
  with_origin OSnapshot
    (sys_writeFile (meta_path snapDir) (format_json (meta_value id createdAt done)));;
  ret {| snapshotId := id; snapshotDir := snapDir; applied := done |}.

(** [pathExists(v)] on a value read from parsed JSON: [access] rejects
    anything that is not a string and [pathExists] catches the error. *)
Definition pathExists_value (v : option json) : M bool :=
  match v with
  | Some (JStr p) => pathExists p
  | _ => ret false
  end.

(** [restoreMcp] reads the entry that [JSON.parse] returned. *)
Definition restoreMcp (entry : json) : M unit :=
  if negb (truthy (prop "mcpChanged" entry)) then ret tt
  else
    restored ←
      (if truthy (prop "mcpBackupPath" entry) then
         e ← pathExists_value (prop "mcpBackupPath" entry);
         if e then
           backupPath ← lift (path_arg (prop "mcpBackupPath" entry));
           target ← lift (path_arg (prop "mcpPath" entry));
           copyIfExists backupPath target;; ret true
         else ret false
       else ret false);
    if restored : bool then ret tt
    else if negb (truthy (prop "mcpExistedBefore" entry)) then
      e ← pathExists_value (prop "mcpPath" entry);
      if e then
        target ← lift (path_arg (prop "mcpPath" entry));
        sys_rm_force target
      else ret tt
    else ret tt.

Definition remove_listed (skillsDir : string) (items : list json) : M unit :=
  for_each items (fun item =>
    name ← lift (item_fileName item);
    let filePath := path_join skillsDir name in
    e ← pathExists filePath;
    if e then sys_rm_force filePath else ret tt).

Definition removeManagedSkillsFromCurrentManifest (skillsDir : string) : M unit :=
  let manifestPath := getManifestPath skillsDir in
  currentManifestRaw ← readTextIfExists manifestPath;
  match currentManifestRaw with
  | None => ret tt
  | Some raw =>
      if String.eqb (trim raw) "" then ret tt
      else
        try_catch
          (parsed ← lift (JSON_parse raw);
           items ← lift (manifest_items parsed);
           remove_listed skillsDir items)
          (fun _ => ret tt)
  end.

Definition restoreSkills (entry : json) : M unit :=
  if negb (truthy (prop "skillsChanged" entry)) then ret tt
  else
    skillsDir ← lift (path_arg (prop "skillsDir" entry));
    ensureParentDir (path_join skillsDir ".placeholder");;
    removeManagedSkillsFromCurrentManifest skillsDir;;
    let manifestPath := getManifestPath skillsDir in
    restored ←
      (if truthy (prop "skillsBackupDir" entry) then
         e ← pathExists_value (prop "skillsBackupDir" entry);
         if e then
           backupDir ← lift (path_arg (prop "skillsBackupDir" entry));
           backupManifestRaw ← readTextIfExists (path_join backupDir "manifest.json");
           match backupManifestRaw with
           | Some raw =>
               if negb (String.eqb raw "") && negb (String.eqb (trim raw) "") then
                 backupManifest ← lift (JSON_parse raw);
                 items ← lift (manifest_items backupManifest);
                 for_each items (fun item =>
                   name ← lift (item_fileName item);
                   let backupFile := path_join backupDir name in
                   e' ← pathExists backupFile;
                   if e' then
                     copyIfExists backupFile (path_join skillsDir name);; ret tt
                   else ret tt);;
                 writeTextAtomic manifestPath (format_json backupManifest);;
                 ret true
               else ret false
           | None => ret false
           end
         else ret false
       else ret false);
    if restored : bool then ret tt
    else if negb (truthy (prop "skillsManifestExistedBefore" entry)) then
      e ← pathExists manifestPath;
      if e then sys_rm_force manifestPath else ret tt
    else ret tt.

(** [parsed.applied.filter(...)] *)
Definition applied_entries (parsed : json) : result (list json) :=
  match parsed with
  | JNull => Throw "TypeError: Cannot read properties of null (reading 'applied')"
  | _ =>
      match prop "applied" parsed with
      | Some (JArr l) => Ok l
      | _ => Throw "TypeError: parsed.applied.filter is not a function"
      end
  end.

(** [filter.has(item.agent)] *)
Definition agent_selected (filter : list string) (item : json) : bool :=
  match prop "agent" item with
  | Some (JStr a) => includes a filter
  | _ => false
  end.

(** The body of the loop of [rollbackSnapshot]. *)
Definition restore_entry (item : json) : M unit :=
  let name := template_opt (prop "agent" item) in
  with_origin (OMcp name) (restoreMcp item);;
  with_origin (OSkills name) (restoreSkills item).

Definition rollbackSnapshot (id : string) (agents : option (list string))
  : M (list json) :=
  let snapDir := path_join getSnapshotRoot id in
  let metaPath := meta_path snapDir in
  metaRaw ← readTextIfExists metaPath;
  match metaRaw with
  | None => throw ("Snapshot not found: " +:+ id)
  | Some raw =>
      parsed ← lift (JSON_parse raw);
      entries ← lift (applied_entries parsed);
      let selected :=
        match agents with
        | Some (a :: l) => List.filter (agent_selected (a :: l)) entries
        | _ => entries
        end in
      for_each selected restore_entry;;
      ret selected
  end.

(** [names.sort((a, b) => b.localeCompare(a))] *)
Fixpoint insert_desc (x : string) (l : list string) : list string :=
  match l with
  | [] => [x]
  | y :: l' => if locale_leb x y then y :: insert_desc x l' else x :: l
  end.

Definition sort_desc (l : list string) : list string :=
  fold_left (fun acc x => insert_desc x acc) l [].

Definition listSnapshots (limit : nat) : M (list string) :=
  let root := getSnapshotRoot in
  e ← pathExists root;
  if negb e then ret []
  else
    names ← sys_readdir_dirs root;
    ret (take limit (sort_desc names)).

Definition readSnapshotMeta (id : string) : M (option json) :=
  let metaPath := meta_path (path_join getSnapshotRoot id) in
  e ← pathExists metaPath;
  if negb e then ret None
  else
    raw ← sys_readFile metaPath;
    parsed ← lift (JSON_parse raw);
    ret (Some parsed).

End WithPlatform.

Definition is_added (current : list (string * json)) (id : string) : bool :=
  negb (obj_has id current).

Definition same_value (current desired : list (string * json)) (id : string) : bool :=
  String.eqb (stableStringify (obj_at id current)) (stableStringify (obj_at id desired)).

Definition is_changed (current desired : list (string * json)) (id : string) : bool :=
  obj_has id current && negb (same_value current desired id).

Definition is_unchanged (current desired : list (string * json)) (id : string) : bool :=
  obj_has id current && same_value current desired id.

Fixpoint distinct_keys (v : json) : bool :=
  match v with
  | JArr l => forallb distinct_keys l
  | JObj o => bool_decide (NoDup (keys o))
              && forallb (fun kv => distinct_keys (snd kv)) o
  | _ => true
  end.

Inductive key_perm : json -> json -> Prop :=
| kp_null : key_perm JNull JNull
| kp_bool b : key_perm (JBool b) (JBool b)
| kp_num n : key_perm (JNum n) (JNum n)
| kp_str s : key_perm (JStr s) (JStr s)
| kp_arr l l' : Forall2 key_perm l l' -> key_perm (JArr l) (JArr l')
| kp_obj o o' o'' :
    Forall2 (fun x y => fst x = fst y /\ key_perm (snd x) (snd y)) o o' ->
    o' ≡ₚ o'' ->
    key_perm (JObj o) (JObj o'').

Definition entry_map (f : json -> json) (o : list (string * json)) :=
  map (fun kv => (fst kv, f (snd kv))) o.

Definition canon_props (record : list (string * json)) : list (string * json) :=
  obj_of_entries (map (fun key => (key, obj_at key record))
                      (sort_strings (keys record))).

Fixpoint arr_tail (l : list json) (k : string) : string :=
  match l with
  | [] => "]" +:+ k
  | y :: l' => "," +:+ stringify_then y (arr_tail l' k)
  end.

Fixpoint obj_tail (l : list (string * json)) (k : string) : string :=
  match l with
  | [] => "}" +:+ k
  | (key, y) :: l' => "," +:+ quote_then key (":" +:+ stringify_then y (obj_tail l' k))
  end.

Definition all_ascii : list ascii := map ascii_of_nat (seq 0 256).

(** The escape of [c] is no prefix of a quote or of the escape of
    another code unit, and a quote is no prefix of it. *)
Definition escape_ok (c : ascii) : bool :=
  negb (String.prefix dquote (escape_char c))
  && negb (String.prefix (escape_char c) dquote)
  && forallb (fun c' => implb (String.prefix (escape_char c) (escape_char c'))
                             (Ascii.eqb c c')) all_ascii.

Fixpoint all_digits (s : string) : bool :=
  match s with
  | EmptyString => true
  | String c s' => is_digit c && all_digits s'
  end.

(** A continuation that cannot extend a number. *)
Definition delimited (k : string) : Prop :=
  match k with
  | EmptyString => True
  | String c _ => is_digit c = false
  end.

(** The first character tells the kind of value. *)
Definition head_ok (v : json) (c : ascii) : Prop :=
  match v with
  | JNull => c = "n"%char
  | JBool true => c = "t"%char
  | JBool false => c = "f"%char
  | JNum _ => c = "-"%char \/ is_digit c = true
  | JStr _ => c = ascii_of_nat 34
  | JArr _ => c = "["%char
  | JObj _ => c = "{"%char
  end.

Definition unchanged_ids (current desired : list (string * json)) : list string :=
  List.filter (is_unchanged current desired) (keys desired).

Inductive jctx :=
| CHole
| CArr (before : list json) (inner : jctx) (after : list json)
| CObj (before : list (string * json)) (key : string) (inner : jctx)
       (after : list (string * json)).

Fixpoint plug (c : jctx) (v : json) : json :=
  match c with
  | CHole => v
  | CArr before inner after => JArr (before ++ plug inner v :: after)
  | CObj before key inner after => JObj (before ++ (key, plug inner v) :: after)
  end.

(** No key on the way to the hole is [__proto__]: an object rebuilt by
    assignments keeps the property that holds the hole. *)
Fixpoint ctx_kept (c : jctx) : bool :=
  match c with
  | CHole => true
  | CArr _ inner _ => ctx_kept inner
  | CObj _ key inner _ => negb (is_proto key) && ctx_kept inner
  end.

(** [k'] may be enumerated after [k]: the keys differ, and an array index
    comes after smaller array indices only. *)
Definition may_follow (k k' : string) : bool :=
  negb (String.eqb k k')
  && match array_index k' with
     | Some i' => match array_index k with
                  | Some i => (i <? i')%N
                  | None => false
                  end
     | None => true
     end.

Fixpoint enum_ordered (ks : list string) : bool :=
  match ks with
  | [] => true
  | k :: ks' => forallb (may_follow k) ks' && enum_ordered ks'
  end.

(** The value is one the engine can hold: the properties of every object
    are listed in enumeration order. *)
Fixpoint js_value (v : json) : bool :=
  match v with
  | JArr l => forallb js_value l
  | JObj o => enum_ordered (keys o) && forallb (fun kv => js_value (snd kv)) o
  | _ => true
  end.

Fixpoint resolve_items (env : Env) (options : SecretResolveOptions)
    (l : list json) (context : string) (index : nat) : result (list json) :=
  match l with
  | [] => Ok []
  | entry :: l' =>
      result_bind (resolveValue env options entry (index_context context index))
        (fun r => result_map (cons r) (resolve_items env options l' context (S index)))
  end.

Fixpoint resolve_props (env : Env) (options : SecretResolveOptions)
    (l : list (string * json)) (context : string) : result (list (string * json)) :=
  match l with
  | [] => Ok []
  | (key, entry) :: l' =>
      result_bind (resolveValue env options entry (key_context context key))
        (fun r => result_map (cons (key, r)) (resolve_props env options l' context))
  end.

(** The context string at the hole. *)
Fixpoint hole_context (c : jctx) (context : string) : string :=
  match c with
  | CHole => context
  | CArr before inner _ => hole_context inner (index_context context (length before))
  | CObj _ key inner _ => hole_context inner (key_context context key)
  end.

(** The values around the hole, resolved; the object that is rebuilt
    keeps no property named [__proto__]. *)
Fixpoint resolve_ctx (env : Env) (options : SecretResolveOptions)
    (c : jctx) (context : string) : result jctx :=
  match c with
  | CHole => Ok CHole
  | CArr before inner after =>
      result_bind (resolve_items env options before context 0) (fun bs =>
      result_bind (resolve_ctx env options inner
                     (index_context context (length before))) (fun c' =>
      result_bind (resolve_items env options after context (S (length before)))
        (fun afs => Ok (CArr bs c' afs))))
  | CObj before key inner after =>
      result_bind (resolve_props env options before context) (fun bs =>
      result_bind (resolve_ctx env options inner (key_context context key)) (fun c' =>
      result_bind (resolve_props env options after context)
        (fun afs => Ok (CObj (kept bs) key c' (kept afs)))))
  end.

(** What resolution makes of a string when nothing is missing. *)
Definition substitute_string (env : Env) (s : string) : string :=
  if startsWith "env://" s
  then default s (env (trim (slice 6 s)))
  else s.

(** The value with every reference to a set variable replaced by the
    value of the variable; a property named [__proto__] is left out, as
    the object is rebuilt by assignments. *)
Fixpoint substitute (env : Env) (v : json) : json :=
  match v with
  | JStr s => JStr (substitute_string env s)
  | JArr l => JArr (map (substitute env) l)
  | JObj o => JObj (kept (map (fun kv => (fst kv, substitute env (snd kv))) o))
  | _ => v
  end.

(** No string of the value is a reference with an empty key. *)
Fixpoint no_empty_ref (v : json) : bool :=
  match v with
  | JStr s => negb (startsWith "env://" s && String.eqb (trim (slice 6 s)) "")
  | JArr l => forallb no_empty_ref l
  | JObj o => forallb (fun kv => no_empty_ref (snd kv)) o
  | _ => true
  end.

Definition nonstrict : SecretResolveOptions := {| allowMissingEnv := Some true |}.

Definition chained_env : Env :=
  fun k => if String.eqb k "A" then Some "env://B"
           else if String.eqb k "B" then Some "x" else None.

Definition chained_spec (value : string) : json :=
  JObj [("transport", JStr "stdio"); ("command", JStr "npx");
        ("env", JObj [("TOKEN", JStr value)])].

(** The precedence as the specification words it, highest first: the
    agent is disabled; the id is denied; a non-empty allow list leaves the
    id out; the item is switched off for the agent; otherwise on. *)
Definition spec_enablement (agent_off denied not_allowed item_off : bool) : bool :=
  if agent_off then false
  else if denied then false
  else if not_allowed then false
  else if item_off then false
  else true.

(** The calls issued between two states. *)
Definition since (w w' : World) : list (Origin * Op) :=
  drop (length (trace w)) (trace w').

(** [m] only appends to the record of calls, the disk follows the calls
    and the label is restored; [Q] holds of the label and the new calls. *)
Definition emits {A} (Q : Origin -> list (Origin * Op) -> Prop) (m : M A) : Prop :=
  forall w, exists calls,
    trace (m w).2 = trace w ++ calls
    /\ disk (m w).2 = replay (map snd calls) (disk w)
    /\ origin (m w).2 = origin w
    /\ Q (origin w) calls.

(** [m] leaves the machine as it found it. *)
Definition readonly {A} (m : M A) : Prop := forall w, (m w).2 = w.

(** Every [writeFile] writes a temporary file that the next call renames. *)
Inductive atomic_ops `{Platform} : list Op -> Prop :=
| atomic_nil : atomic_ops []
| atomic_other op rest :
    (forall p c, op <> OpWriteFile p c) -> atomic_ops rest -> atomic_ops (op :: rest)
| atomic_write target now content rest :
    atomic_ops rest ->
    atomic_ops (OpWriteFile (temp_path target process_pid now) content
                :: OpRename (temp_path target process_pid now) target :: rest).

Definition labelled_by (o : Origin) (calls : list (Origin * Op)) : Prop :=
  Forall (fun e => fst e = o) calls.

(** What the code below the steps of sync.ts emits: calls under the
    current label, every write atomic. *)
Definition Q_leaf `{Platform} (o : Origin) (calls : list (Origin * Op)) : Prop :=
  labelled_by o calls /\ atomic_ops (map snd calls).

Definition Q_atomic `{Platform} (_ : Origin) (calls : list (Origin * Op)) : Prop :=
  atomic_ops (map snd calls).

Definition Q_any (_ : Origin) (_ : list (Origin * Op)) : Prop := True.

(** The three calls of [writeTextAtomic]. *)
Definition atomic_write_calls `{Platform} (o : Origin) (filePath content : string)
    (now : N) : list (Origin * Op) :=
  [(o, OpMkdir (ancestors (String.length (path_dirname filePath))
                          (path_dirname filePath)));
   (o, OpWriteFile (temp_path filePath process_pid now) content);
   (o, OpRename (temp_path filePath process_pid now) filePath)].

(** The state after one more reading of the clock. *)
Definition tick (w : World) : World :=
  {| disk := disk w; trace := trace w; ticks := S (ticks w); origin := origin w |}.

(** No call is labelled [o]. *)
Definition Q_not (o : Origin) (_ : Origin) (calls : list (Origin * Op)) : Prop :=
  Forall (fun e => fst e <> o) calls.

(** The state after one more call, with the clock read [n] more times. *)
Definition after_call (n : nat) (o : Origin) (op : Op) (w : World) : World :=
  {| disk := apply_op op (disk w);
     trace := trace w ++ [(o, op)];
     ticks := n + ticks w;
     origin := origin w |}.

#[global] Instance Op_eq_dec : EqDecision Op.
Proof. solve_decision. Defined.

(** Among [calls], the native file [P] of agent [a] is touched only by
    the native-configuration steps of that agent, and its backup copy [B]
    only by the call that makes the copy. *)
Definition isolated (a : string) (P B : string) (calls : list (Origin * Op)) : Prop :=
  Forall (fun e => (touches (snd e) P -> fst e = OMcp a)
                   /\ (touches (snd e) B -> e = (OMcp a, OpCopyFile P B))) calls.

#[global] Instance isolated_dec a P B calls : Decision (isolated a P B calls).
Proof. unfold isolated. apply _. Defined.

(** The paths whose file a call can change. *)
Definition op_paths (op : Op) : list string :=
  match op with
  | OpMkdir _ => []
  | OpWriteFile p _ => [p]
  | OpRename a b => [a; b]
  | OpCopyFile _ b => [b]
  | OpRm p => [p]
  end.

(** Two spellings of one path: [path.resolve] gives the same absolute,
    normalised path for both.  The disk above keeps a file under the text
    of its path; on it, as on a disk without links and with case-sensitive
    names, two resolved paths that differ are two files. *)
Definition same_file `{Platform} (p q : string) : Prop :=
  path_resolve p = path_resolve q.

#[global] Instance same_file_dec `{Platform} p q : Decision (same_file p q).
Proof. unfold same_file. apply _. Defined.

(** Among [calls], the native file [P] of agent [a] is changed, under
    any spelling of its path, only by the native-configuration steps of
    that agent, and its backup copy [B] only by the call that makes the
    copy. *)
Definition isolated_file `{Platform} (a : string) (P B : string)
    (calls : list (Origin * Op)) : Prop :=
  Forall (fun e =>
            Forall (fun q => (same_file q P -> fst e = OMcp a)
                             /\ (same_file q B -> e = (OMcp a, OpCopyFile P B)))
                   (op_paths (snd e))) calls.

#[global] Instance isolated_file_dec `{Platform} a P B calls :
  Decision (isolated_file a P B calls).
Proof. unfold isolated_file. apply _. Defined.

(** The calls that write the native file. *)
Definition native_write_calls `{Platform} (o : Origin) (P content : string) (now : N)
  : list (Origin * Op) :=
  (o, OpMkdir (ancestors (String.length (path_dirname P)) (path_dirname P)))
  :: atomic_write_calls o P content now.

(** What [applyPlan] writes to the native file of a plan. *)
Definition serialized `{Platform} (plan : AgentPlan) : string :=
  format (plan_adapter plan)
    (withServers (plan_adapter plan) (currentData plan) (desiredServers plan)).

(** What the entry [e] of the snapshot records about the file [P] with
    backup [B], and what the disk holds before the rollback: [c] is the
    content written by the sync, [oF] the content before it. *)
Definition ready (P B : string) (e : AppliedAgent) (oF : option string) (c : string)
    (w : World) : Prop :=
  files (disk w) !! P = Some c
  /\ match oF with
     | Some F => mcpBackupPath e = Some B /\ files (disk w) !! B = Some F
     | None => mcpBackupPath e = None /\ mcpExistedBefore e = false
     end.

(** [JSON.parse] reads the entries of [res] back from the [meta.json] on disk. *)
Definition meta_readable `{Platform} (res : SyncResult) (w : World) : Prop :=
  exists text,
    files (disk w) !! meta_path (snapshotDir res) = Some text
    /\ result_bind (JSON_parse text) applied_entries
       = Ok (map applied_value (applied res)).

(** ** An example machine

    A concrete [Platform] on which the programs above run to a value: POSIX
    paths, a clock that starts at the epoch and advances one millisecond
    per reading, [JSON.stringify(v, null, 2)] and a [JSON.parse] for the
    integers, strings, arrays and objects of [json].  It serves the closed
    examples of Part II. *)

Fixpoint last_index (c : ascii) (s : string) (i : nat) (found : option nat) : option nat :=
  match s with
  | EmptyString => found
  | String d s' => last_index c s' (S i) (if Ascii.eqb d c then Some i else found)
  end.

(** [path.posix.dirname] and [path.posix.basename] of a path that does not
    end in a slash. *)
Definition posix_dirname (p : string) : string :=
  match last_index "/" p 0 None with
  | None => "."
  | Some O => "/"
  | Some i => String.substring 0 i p
  end.

Definition posix_basename (p : string) : string :=
  match last_index "/" p 0 None with
  | None => p
  | Some i => String.substring (S i) (String.length p - S i) p
  end.

Definition posix_extname (p : string) : string :=
  let b := posix_basename p in
  match last_index "." b 0 None with
  | None | Some O => ""
  | Some i => String.substring i (String.length b - i) b
  end.

Definition posix_isAbsolute (p : string) : bool := startsWith "/" p.

Definition posix_join (a b : string) : string := a +:+ "/" +:+ b.

(** The segments of a normalised path: the empty and [.] segments are
    dropped and a [..] segment cancels the segment before it. *)
Fixpoint posix_segments (acc l : list string) : list string :=
  match l with
  | [] => rev acc
  | s :: l' =>
      if String.eqb s "" || String.eqb s "." then posix_segments acc l'
      else if String.eqb s ".." then posix_segments (tail acc) l'
      else posix_segments (s :: acc) l'
  end.

(** [path.posix.resolve] of one path, from the working directory [/work]:
    the path made absolute and normalised, so that the two spellings
    [/work/mcp.json] and [/work/./mcp.json] resolve to one path. *)
Definition posix_resolve (p : string) : string :=
  let absolute := if posix_isAbsolute p then p else posix_join "/work" p in
  "/" +:+ join "/" (posix_segments [] (split_on "/" absolute)).

Definition newline : string := String (ascii_of_nat 10) "".

(** [JSON.stringify(v, null, 2)] *)
Fixpoint pretty (indent : string) (v : json) : string :=
  let inner := indent +:+ "  " in
  match v with
  | JArr [] => "[]"
  | JArr (x :: rest) =>
      "[" +:+ newline +:+ inner +:+ pretty inner x
      +:+ (fix tail (l : list json) : string :=
             match l with
             | [] => newline +:+ indent +:+ "]"
             | y :: l' => "," +:+ newline +:+ inner +:+ pretty inner y +:+ tail l'
             end) rest
  | JObj [] => "{}"
  | JObj ((key, x) :: rest) =>
      "{" +:+ newline +:+ inner +:+ quote_then key (": " +:+ pretty inner x)
      +:+ (fix tail (l : list (string * json)) : string :=
             match l with
             | [] => newline +:+ indent +:+ "}"
             | (k, y) :: l' =>
                 "," +:+ newline +:+ inner +:+ quote_then k (": " +:+ pretty inner y)
                 +:+ tail l'
             end) rest
  | _ => JSON_stringify v
  end.

(** *** A parser for JSON texts *)

Definition is_json_space (c : ascii) : bool :=
  let n := nat_of_ascii c in
  ((n =? 32) || (n =? 10) || (n =? 13) || (n =? 9))%nat.

Fixpoint skip_space (s : string) : string :=
  match s with
  | String c s' => if is_json_space c then skip_space s' else s
  | EmptyString => EmptyString
  end.

Definition digit_value (c : ascii) : option Z :=
  let n := nat_of_ascii c in
  if ((48 <=? n) && (n <=? 57))%nat then Some (Z.of_nat (n - 48)) else None.

Fixpoint parse_digits (acc : Z) (s : string) : Z * string :=
  match s with
  | String c s' =>
      match digit_value c with
      | Some d => parse_digits (10 * acc + d) s'
      | None => (acc, s)
      end
  | EmptyString => (acc, EmptyString)
  end.

Definition hex_value (c : ascii) : option nat :=
  let n := nat_of_ascii c in
  if ((48 <=? n) && (n <=? 57))%nat then Some (n - 48)%nat
  else if ((97 <=? n) && (n <=? 102))%nat then Some (n - 87)%nat
  else if ((65 <=? n) && (n <=? 70))%nat then Some (n - 55)%nat
  else None.

(** The code unit an escape letter stands for. *)
Definition unescape (c : ascii) : option ascii :=
  let n := nat_of_ascii c in
  if (n =? 34)%nat then Some c
  else if (n =? 92)%nat then Some c
  else if (n =? 47)%nat then Some c
  else if (n =? 98)%nat then Some (ascii_of_nat 8)
  else if (n =? 102)%nat then Some (ascii_of_nat 12)
  else if (n =? 110)%nat then Some (ascii_of_nat 10)
  else if (n =? 114)%nat then Some (ascii_of_nat 13)
  else if (n =? 116)%nat then Some (ascii_of_nat 9)
  else None.

(** The string up to the closing quote, and the text after it. *)
Fixpoint parse_string_body (s : string) : option (string * string) :=
  match s with
  | EmptyString => None
  | String c s' =>
      if (nat_of_ascii c =? 34)%nat then Some (EmptyString, s')
      else if (nat_of_ascii c =? 92)%nat then
        match s' with
        | String e s'' =>
            if (nat_of_ascii e =? 117)%nat then
              match s'' with
              | String h1 (String h2 (String h3 (String h4 rest))) =>
                  match hex_value h1, hex_value h2, hex_value h3, hex_value h4 with
                  | Some 0%nat, Some 0%nat, Some a, Some b =>
                      match parse_string_body rest with
                      | Some (r, k) => Some (String (ascii_of_nat (16 * a + b)) r, k)
                      | None => None
                      end
                  | _, _, _, _ => None
                  end
              | _ => None
              end
            else
              match unescape e with
              | Some d =>
                  match parse_string_body s'' with
                  | Some (r, k) => Some (String d r, k)
                  | None => None
                  end
              | None => None
              end
        | EmptyString => None
        end
      else if (nat_of_ascii c <? 32)%nat then None
      else
        match parse_string_body s' with
        | Some (r, k) => Some (String c r, k)
        | None => None
        end
  end.

(** A value, the elements of an array after its bracket and the members of
    an object after its brace, each with the text that follows. *)
Fixpoint parse_value (fuel : nat) (s : string) : option (json * string) :=
  match fuel with
  | O => None
  | S fuel' =>
      match skip_space s with
      | EmptyString => None
      | String c rest =>
          let n := nat_of_ascii c in
          if (n =? 123)%nat then
            match skip_space rest with
            | String d rest' =>
                if (nat_of_ascii d =? 125)%nat then Some (JObj [], rest')
                else
                  match parse_members fuel' rest with
                  | Some (es, k) => Some (JObj (own_entries es), k)
                  | None => None
                  end
            | EmptyString => None
            end
          else if (n =? 91)%nat then
            match skip_space rest with
            | String d rest' =>
                if (nat_of_ascii d =? 93)%nat then Some (JArr [], rest')
                else
                  match parse_items fuel' rest with
                  | Some (l, k) => Some (JArr l, k)
                  | None => None
                  end
            | EmptyString => None
            end
          else if (n =? 34)%nat then
            match parse_string_body rest with
            | Some (str, k) => Some (JStr str, k)
            | None => None
            end
          else if (n =? 45)%nat then
            match rest with
            | String d _ =>
                match digit_value d with
                | Some _ => let '(z, k) := parse_digits 0 rest in Some (JNum (- z), k)
                | None => None
                end
            | EmptyString => None
            end
          else if startsWith "true" (String c rest) then Some (JBool true, slice 4 (String c rest))
          else if startsWith "false" (String c rest) then Some (JBool false, slice 5 (String c rest))
          else if startsWith "null" (String c rest) then Some (JNull, slice 4 (String c rest))
          else
            match digit_value c with
            | Some _ => let '(z, k) := parse_digits 0 (String c rest) in Some (JNum z, k)
            | None => None
            end
      end
  end
with parse_items (fuel : nat) (s : string) : option (list json * string) :=
  match fuel with
  | O => None
  | S fuel' =>
      match parse_value fuel' s with
      | Some (v, k) =>
          match skip_space k with
          | String c rest =>
              if (nat_of_ascii c =? 44)%nat then
                match parse_items fuel' rest with
                | Some (l, k') => Some (v :: l, k')
                | None => None
                end
              else if (nat_of_ascii c =? 93)%nat then Some ([v], rest)
              else None
          | EmptyString => None
          end
      | None => None
      end
  end
with parse_members (fuel : nat) (s : string) : option (list (string * json) * string) :=
  match fuel with
  | O => None
  | S fuel' =>
      match skip_space s with
      | String q rest =>
          if (nat_of_ascii q =? 34)%nat then
            match parse_string_body rest with
            | Some (key, k) =>
                match skip_space k with
                | String c k' =>
                    if (nat_of_ascii c =? 58)%nat then
                      match parse_value fuel' k' with
                      | Some (v, k'') =>
                          match skip_space k'' with
                          | String d rest' =>
                              if (nat_of_ascii d =? 44)%nat then
                                match parse_members fuel' rest' with
                                | Some (es, kk) => Some ((key, v) :: es, kk)
                                | None => None
                                end
                              else if (nat_of_ascii d =? 125)%nat then Some ([(key, v)], rest')
                              else None
                          | EmptyString => None
                          end
                      | None => None
                      end
                    else None
                | EmptyString => None
                end
            | None => None
            end
          else None
      | EmptyString => None
      end
  end.

Definition parse_json (s : string) : result json :=
  match parse_value (2 * String.length s + 2) s with
  | Some (v, k) =>
      match skip_space k with
      | EmptyString => Ok v
      | _ => Throw "SyntaxError: Unexpected non-whitespace character after JSON"
      end
  | None => Throw "SyntaxError: Unexpected token in JSON"
  end.

Definition pad3 (n : N) : string :=
  let d := print_N (n mod 1000) in
  (if (n mod 1000 <? 10)%N then "00" else if (n mod 1000 <? 100)%N then "0" else "") +:+ d.

(** [toISOString()] of an instant within the first second after the epoch. *)
Definition epoch_iso (ms : N) : string := "1970-01-01T00:00:00." +:+ pad3 ms +:+ "Z".

Definition example_env : Env :=
  fun k => if String.eqb k "TOKEN" then Some "s3cret" else None.

(** The TOML codec is outside the examples: the example machine has none. *)
Definition example_platform : Platform := {|
  path_join := posix_join;
  path_dirname := posix_dirname;
  path_basename := posix_basename;
  path_extname := posix_extname;
  path_isAbsolute := posix_isAbsolute;
  path_resolve := posix_resolve;
  os_homedir := "/home/user";
  process_cwd := "/work";
  process_pid := 4242%N;
  process_env := example_env;
  clock_ms := N.of_nat;
  iso_string := epoch_iso;
  JSON_parse := parse_json;
  TOML_parse := fun _ => Throw "TomlError: no TOML codec on the example machine";
  JSON_pretty := pretty "";
  TOML_stringify := fun _ => "";
  locale_leb := String.leb;
  antigravity_default_path := "/home/user/.gemini/antigravity/mcp_config.json";
  antigravity_normalizeServer := normalize_with true true false
|}.

(** A machine whose disk holds the given files and directories, before
    any call. *)
Definition machine (fs : list (string * string)) (ds : list string) : World :=
  {| disk := {| files := list_to_map fs; dirs := list_to_set ds |};
     trace := []; ticks := 0; origin := OOther |}.

(** A stdio server of the unified configuration. *)
Definition example_server : json :=
  JObj [("transport", JStr "stdio");
        ("command", JStr "npx");
        ("args", JArr [JStr "-y"; JStr "files-server"])].

Definition only (agents : list AgentName) : BuildPlanOptions :=
  {| opt_agents := Some agents; opt_configDir := None; opt_resolveSecrets := None |}.

(** Every target at its default. *)
Definition example_config : UnifiedConfig :=
  {| version := "1";
     mcp_servers := [("files", example_server)];
     skills_items := None;
     targets := None |}.

(** Gemini and Claude both directed to one file. *)
Definition shared_path : string := "/work/mcp.json".

Definition shared_config : UnifiedConfig :=
  {| version := "1";
     mcp_servers := [("files", example_server)];
     skills_items := None;
     targets := Some (fun a =>
       match a with
       | gemini | claude =>
           Some {| enabled := None; allow := None; deny := None;
                   outputPath := Some shared_path;
                   skillsEnabled := Some false; allowSkills := None; denySkills := None;
                   skillsOutputDir := None |}
       | _ => None
       end) |}.

(** The text of an empty Gemini or Claude document. *)
Definition empty_document : string := "{" +:+ dquote +:+ "mcpServers" +:+ dquote +:+ ": {}}".

(** A call issued for an agent. *)
Definition agent_call (e : Origin * Op) : Prop :=
  match fst e with
  | OMcp _ | OSkills _ => True
  | _ => False
  end.

(** What the loop of [applyPlan] emits: calls for agents, every
    [writeFile] to a temporary file that the next call renames. *)
Definition Q_sync `{Platform} (_ : Origin) (calls : list (Origin * Op)) : Prop :=
  Forall agent_call calls /\ atomic_ops (map snd calls).

(** The call writes the file [p] where it stands. *)
Definition writes_in_place (op : Op) (p : string) : Prop :=
  match op with
  | OpWriteFile q _ => q = p
  | OpCopyFile _ b => b = p
  | _ => False
  end.

(** [crash ops s s']: the disk [s'] is one that a crash can leave while
    the calls [ops] run from [s].  The calls before the crash are
    complete; of a [writeFile] or [copyFile] under way only a beginning of
    the data has reached the file. *)
Inductive crash : list Op -> FS -> FS -> Prop :=
| crash_now ops s : crash ops s s
| crash_writing p c c' ops s :
    startsWith c' c = true ->
    crash (OpWriteFile p c :: ops) s
          {| files := <[p := c']> (files s); dirs := dirs s |}
| crash_copying a b c c' ops s :
    files s !! a = Some c ->
    startsWith c' c = true ->
    crash (OpCopyFile a b :: ops) s
          {| files := <[b := c']> (files s); dirs := dirs s |}
| crash_later op ops s s' :
    crash ops (apply_op op s) s' -> crash (op :: ops) s s'.

(** The machine restarted on the disk [s]. *)
Definition at_rest (s : FS) : World :=
  {| disk := s; trace := []; ticks := 0; origin := OOther |}.

(** A temporary file of [writeTextAtomic]. *)
Definition temp_file `{Platform} (p : string) : Prop :=
  exists target now, p = temp_path target process_pid now.

(** The directory [backupSkillsState] copies the skills of a plan to. *)
Definition skills_backup_dir `{Platform} (snapDir : string) (plan : AgentPlan) : string :=
  path_join (path_join snapDir "skills") (agent_name (plan_agent plan)).

(** The files of an agent: the native configuration file and the files
    of the managed skills directory (the skill files and the manifest). *)
Definition agent_file `{Platform} (plan : AgentPlan) (p : string) : Prop :=
  p = plan_path plan \/ exists name, p = path_join (plan_skillsDir plan) name.

(** The files the snapshot keeps for a plan: the copy of the native file
    and the files of the skills backup directory. *)
Definition backup_file `{Platform} (snapDir : string) (plan : AgentPlan) (p : string)
  : Prop :=
  p = mcp_backup_path snapDir plan
  \/ exists name, p = path_join (skills_backup_dir snapDir plan) name.

(** The calls of a careful writer: directories are created; a file in
    [written] is replaced by renaming a temporary file that was written
    just before, or removed; only a file in [copied] is the target of a
    [copyFile]. *)
Inductive careful_ops `{Platform} (written copied : string -> Prop) : list Op -> Prop :=
| careful_nil : careful_ops written copied []
| careful_mkdir ds rest :
    careful_ops written copied rest -> careful_ops written copied (OpMkdir ds :: rest)
| careful_write target now content rest :
    written target ->
    careful_ops written copied rest ->
    careful_ops written copied
      (OpWriteFile (temp_path target process_pid now) content
       :: OpRename (temp_path target process_pid now) target :: rest)
| careful_copy source target rest :
    copied target ->
    careful_ops written copied rest ->
    careful_ops written copied (OpCopyFile source target :: rest)
| careful_rm target rest :
    written target ->
    careful_ops written copied rest ->
    careful_ops written copied (OpRm target :: rest).

(** What the steps of [applyPlan] for [plans] write and copy to. *)
Definition written_for `{Platform} (snapDir : string) (plans : list AgentPlan)
    (p : string) : Prop :=
  exists plan, plan ∈ plans /\ (agent_file plan p \/ backup_file snapDir plan p).

Definition copied_for `{Platform} (snapDir : string) (plans : list AgentPlan)
    (p : string) : Prop :=
  exists plan, plan ∈ plans /\ backup_file snapDir plan p.

Definition Q_careful `{Platform} (written copied : string -> Prop)
    (_ : Origin) (calls : list (Origin * Op)) : Prop :=
  careful_ops written copied (map snd calls).

(** The snapshot directory of a sync started in the state [w]. *)
Definition snapshot_dir_at `{Platform} (w : World) : string :=
  path_join getSnapshotRoot (replace_colon_dot (iso_string (clock_ms (ticks w)))).

(** The two calls [applyPlan] issues for the snapshot itself. *)
Definition snapshot_mkdir `{Platform} (snapDir : string) : Origin * Op :=
  (OSnapshot, OpMkdir (ancestors (String.length snapDir) snapDir)).


(** ** Sample data *)

(** One record with its keys in two orders. *)
Definition command_first : json :=
  JObj [("command", JStr "npx"); ("args", JArr [JStr "-y"; JStr "files-server"])].

Definition args_first : json :=
  JObj [("args", JArr [JStr "-y"; JStr "files-server"]); ("command", JStr "npx")].

Definition with_args (l : list json) : json :=
  JObj [("command", JStr "npx"); ("args", JArr l)].

Definition strict : SecretResolveOptions := {| allowMissingEnv := None |}.

Definition empty_env : Env := fun _ => None.

(** The place of [env.API_KEY] in a server definition. *)
Definition api_key_place : jctx :=
  CObj [("transport", JStr "stdio"); ("command", JStr "npx")] "env"
       (CObj [] "API_KEY" CHole []) [].

Definition denying (x : string) : TargetConfig :=
  {| enabled := None; allow := None; deny := Some [x]; outputPath := None;
     skillsEnabled := None; allowSkills := None; denySkills := None;
     skillsOutputDir := None |}.

Definition enabled_for_claude : json :=
  JObj [("transport", JStr "stdio"); ("command", JStr "npx");
        ("enabledIn", JObj [("claude", JBool true)])].

Section Samples.
#[local] Existing Instance example_platform.

Definition gemini_settings : string := "/home/user/.gemini/settings.json".

(** A machine with an empty Gemini document. *)
Definition example_machine : World :=
  machine [(gemini_settings, empty_document)]
          ["/"; "/home"; "/home/user"; "/home/user/.gemini"].

(** The plan [buildPlan] makes for Gemini on that machine. *)
Definition example_plan : AgentPlan :=
  {| plan_agent := gemini;
     plan_path := gemini_settings;
     plan_adapter := GeminiAdapter;
     targetConfig := empty_target;
     fileExists := true;
     currentData := JObj [("mcpServers", JObj [])];
     currentServers := [];
     desiredServers :=
       [("files", JObj [("type", JStr "stdio"); ("command", JStr "npx");
                        ("args", JArr [JStr "-y"; JStr "files-server"])])];
     diff := {| added := ["files"]; removed := []; changed := []; unchanged := 0 |};
     plan_skillsDir := "/home/user/.gemini/skills/uac-managed";
     currentSkills := [];
     desiredSkills := [];
     skillsDiff := {| added := []; removed := []; changed := []; unchanged := 0 |};
     skillsManifestExists := false |}.

Definition no_result : SyncResult :=
  {| snapshotId := ""; snapshotDir := ""; applied := [] |}.

Definition result_of (r : result SyncResult * World) : SyncResult :=
  match r.1 with Ok res => res | Throw _ => no_result end.

Definition entries_of (r : result (list json) * World) : list json :=
  match r.1 with Ok l => l | Throw _ => [] end.

(** The sync of the example plan, and the rollback of its snapshot. *)
Definition example_sync : result SyncResult * World :=
  applyPlan [example_plan] example_machine.

Definition example_rollback : result (list json) * World :=
  rollbackSnapshot (snapshotId (result_of example_sync)) None example_sync.2.

Definition example_calls : list Op := map snd (since example_machine example_sync.2).

(** The disk when the machine stops just before [meta.json] is written,
    and when it stops after the first character of [meta.json]. *)
Definition interrupted : FS :=
  replay (take (length example_calls - 1) example_calls) (disk example_machine).

Definition example_meta : string := meta_path (snapshotDir (result_of example_sync)).

Definition half_written : FS :=
  {| files := <[example_meta := "{"]> (files interrupted); dirs := dirs interrupted |}.

(** Gemini and Claude directed to one file that holds an empty document. *)
Definition shared_machine : World :=
  machine [(shared_path, empty_document)] ["/"; "/work"].

Definition shared_target : TargetConfig :=
  {| enabled := None; allow := None; deny := None;
     outputPath := Some shared_path;
     skillsEnabled := Some false; allowSkills := None; denySkills := None;
     skillsOutputDir := None |}.

Definition shared_plan (a : AgentName) (adapter : AgentAdapter) : AgentPlan :=
  {| plan_agent := a;
     plan_path := shared_path;
     plan_adapter := adapter;
     targetConfig := shared_target;
     fileExists := true;
     currentData := JObj [("mcpServers", JObj [])];
     currentServers := [];
     desiredServers :=
       [("files", JObj [("type", JStr "stdio"); ("command", JStr "npx");
                        ("args", JArr [JStr "-y"; JStr "files-server"])])];
     diff := {| added := ["files"]; removed := []; changed := []; unchanged := 0 |};
     plan_skillsDir := path_resolve (defaultSkillsOutputDir a);
     currentSkills := [];
     desiredSkills := [];
     skillsDiff := {| added := []; removed := []; changed := []; unchanged := 0 |};
     skillsManifestExists := false |}.

Definition shared_plans : list AgentPlan :=
  [shared_plan gemini GeminiAdapter; shared_plan claude ClaudeAdapter].

Definition shared_sync : result SyncResult * World :=
  applyPlan shared_plans shared_machine.

Definition shared_rollback : result (list json) * World :=
  rollbackSnapshot (snapshotId (result_of shared_sync)) None shared_sync.2.

(** A Gemini document that is only white space. *)
Definition blank_machine : World :=
  machine [(gemini_settings, "  " +:+ newline)]
          ["/"; "/home"; "/home/user"; "/home/user/.gemini"].
End Samples.

(** ** Further notions for the statements *)

(** Every reference of the value can be resolved under [options]: its key
    is not blank, and its variable is set unless missing variables are
    allowed. *)
Fixpoint resolvable (env : Env) (options : SecretResolveOptions) (v : json) : bool :=
  match v with
  | JStr s =>
      if startsWith "env://" s then
        negb (String.eqb (trim (slice 6 s)) "")
        && (match env (trim (slice 6 s)) with Some _ => true | None => false end
            || truthy_flag (allowMissingEnv options))
      else true
  | JArr l => forallb (resolvable env options) l
  | JObj o => forallb (fun kv => resolvable env options (snd kv)) o
  | _ => true
  end.

(** The fields a native server record can carry. *)
Definition native_fields : list string :=
  ["type"; "command"; "args"; "env"; "startup_timeout_sec"; "url"; "headers"].

(** The adapters whose source is part of the corpus. *)
Definition source_adapters `{Platform} : list AgentAdapter :=
  [CodexAdapter; GeminiAdapter; ClaudeAdapter; VscodeAdapter].

(** No object of the value has a property named [__proto__]. *)
Fixpoint proto_free (v : json) : bool :=
  match v with
  | JArr l => forallb proto_free l
  | JObj o => forallb (fun kv => negb (is_proto (fst kv)) && proto_free (snd kv)) o
  | _ => true
  end.

(** The ids of [ids] come in descending [localeCompare] order. *)
Definition descending `{Platform} (ids : list string) : Prop :=
  Sorted (fun a b => locale_leb b a = true) ids.

(** A server of the unified configuration that is switched on for the
    agent. *)
Definition enabled_server (config : UnifiedConfig) (a : AgentName)
    (target : TargetConfig) (id : string) : Prop :=
  exists server, (id, server) ∈ mcp_servers config
                 /\ serverEnabledForAgent id server a target = true.

(** Every call is issued for one of the [agents]. *)
Definition on_behalf_of (agents : list string) (calls : list (Origin * Op)) : Prop :=
  Forall (fun e => exists name, name ∈ agents
                                /\ (fst e = OMcp name \/ fst e = OSkills name)) calls.

Definition Q_for (agents : list string) (_ : Origin) (calls : list (Origin * Op)) : Prop :=
  on_behalf_of agents calls.

(** The adapters of the corpus whose dialect is JSON. *)
Definition json_adapters `{Platform} : list AgentAdapter :=
  [GeminiAdapter; ClaudeAdapter; VscodeAdapter].

(** ** importers/mcpRouter.ts *)

Record ImportResult := {
  ir_config : UnifiedConfig;
  importedServerIds : list string;
  skippedServerIds : list string;
  warnings : list string
}.

(** [toStringRecord]: the string-valued properties of an object that is
    not an array; anything else gives the empty record. *)
Definition toStringRecord (value : option json) : list (string * json) :=
  match value with
  | Some (JObj o) =>
      obj_of_entries
        (List.filter (fun kv => match snd kv with JStr _ => true | _ => false end) o)
  | _ => []
  end.

(** [toStringArray] *)
Definition toStringArray (value : option json) : list json :=
  match value with
  | Some (JArr l) =>
      List.filter (fun item => match item with JStr _ => true | _ => false end) l
  | _ => []
  end.

(** [toNonEmptyString]; [None] is [null]. *)
Definition toNonEmptyString (value : option json) : option string :=
  match value with
  | Some (JStr s) =>
      let trimmed := trim s in
      if (0 <? String.length trimmed)%nat then Some trimmed else None
  | _ => None
  end.

(** [enabledIn: { codex: true, gemini: true, claude: true }] *)
Definition imported_enabledIn : json :=
  JObj [("codex", JBool true); ("gemini", JBool true); ("claude", JBool true)].

(** A property whose value may be [undefined]; such a property is not
    listed, as nothing that reads the configuration tells it from a
    missing one. *)
Definition optional_field (k : string) (v : option json) : list (string * json) :=
  match v with
  | Some x => [(k, x)]
  | None => []
  end.

Definition remote_server (transport url : string) (headers : list (string * json)) : json :=
  JObj ([("transport", JStr transport); ("url", JStr url)]
        ++ optional_field "headers"
             (match headers with [] => None | _ => Some (JObj headers) end)
        ++ [("enabledIn", imported_enabledIn)]).

Definition stdio_server (command : string) (args : list json)
    (env : list (string * json)) : json :=
  JObj ([("transport", JStr "stdio"); ("command", JStr command)]
        ++ optional_field "args" (match args with [] => None | _ => Some (JArr args) end)
        ++ optional_field "env" (match env with [] => None | _ => Some (JObj env) end)
        ++ [("enabledIn", imported_enabledIn)]).

Definition skipped_not_object (serverId : string) : string :=
  "Skipped " +:+ dquote +:+ serverId +:+ dquote +:+ ": server entry is not an object.".

Definition skipped_unusable (serverId : string) : string :=
  "Skipped " +:+ dquote +:+ serverId +:+ dquote +:+ ": missing usable " +:+ dquote
  +:+ "command" +:+ dquote +:+ " and " +:+ dquote +:+ "url" +:+ dquote +:+ ".".

(** What the loop over the entries keeps: the servers, the imported ids,
    the skipped ids and the warnings. *)
Record ImportState := {
  st_servers : list (string * json);
  st_imported : list string;
  st_skipped : list string;
  st_warnings : list string
}.

(** One entry of [mcpServers]: [Some server] when it is imported, else
    the warning. *)
Definition import_entry (serverId : string) (entry : json) : json + string :=
  match entry with
  | JObj _ =>
      let url := toNonEmptyString (prop "url" entry) in
      let command := toNonEmptyString (prop "command" entry) in
      let args := toStringArray (prop "args" entry) in
      let env := toStringRecord (prop "env" entry) in
      let headers := toStringRecord (prop "headers" entry) in
      let transportRaw :=
        match toNonEmptyString (prop "transport" entry) with
        | Some t => Some t
        | None => toNonEmptyString (prop "type" entry)
        end in
      match url with
      | Some u =>
          let transport :=
            match transportRaw with
            | Some t => if String.eqb t "http" then "http" else "sse"
            | None => "sse"
            end in
          inl (remote_server transport u headers)
      | None =>
          match command with
          | Some c => inl (stdio_server c args env)
          | None => inr (skipped_unusable serverId)
          end
      end
  | _ => inr (skipped_not_object serverId)
  end.

Definition import_step (st : ImportState) (e : string * json) : ImportState :=
  match import_entry (fst e) (snd e) with
  | inl server =>
      {| st_servers := assign (st_servers st) (fst e) server;
         st_imported := st_imported st ++ [fst e];
         st_skipped := st_skipped st;
         st_warnings := st_warnings st |}
  | inr warning =>
      {| st_servers := st_servers st;
         st_imported := st_imported st;
         st_skipped := st_skipped st ++ [fst e];
         st_warnings := st_warnings st ++ [warning] |}
  end.

(** The four empty collections the loop starts from. *)
Definition import_start : ImportState :=
  {| st_servers := []; st_imported := []; st_skipped := []; st_warnings := [] |}.

Definition missing_mcpServers : string :=
  "Invalid mcp-router JSON: missing object field " +:+ dquote +:+ "mcpServers"
  +:+ dquote +:+ ".".

Definition importFromMcpRouterJson (input : json) : result ImportResult :=
  match input with
  | JObj _ | JArr _ =>
      match prop "mcpServers" input with
      | Some (JObj entries) =>
          let st := fold_left import_step entries import_start in
          match st_imported st with
          | [] => Throw "No valid MCP servers were imported."
          | _ =>
              let imported := sort_strings (st_imported st) in
              let skipped := sort_strings (st_skipped st) in
              Ok {| ir_config :=
                      {| version := "1";
                         mcp_servers := st_servers st;
                         skills_items := None;
                         targets := Some (fun _ =>
                           Some {| enabled := Some true; allow := Some imported;
                                   deny := None; outputPath := None;
                                   skillsEnabled := None; allowSkills := None;
                                   denySkills := None; skillsOutputDir := None |}) |};
                    importedServerIds := imported;
                    skippedServerIds := skipped;
                    warnings := st_warnings st |}
          end
      | _ => Throw missing_mcpServers
      end
  | _ => Throw "Invalid JSON document."
  end.

(** An entry the importer can use: an object with a non-blank [url] or a
    non-blank [command]. *)
Definition usable (entry : json) : bool :=
  match entry with
  | JObj _ =>
      match toNonEmptyString (prop "url" entry),
            toNonEmptyString (prop "command" entry) with
      | None, None => false
      | _, _ => true
      end
  | _ => false
  end.

(** What the importer builds can be synchronised: the field its transport
    needs is there, and no agent is switched off. *)
Definition syncable (server : json) : Prop :=
  truthy (prop (if is_stdio server then "command" else "url") server) = true
  /\ forall a, json_is_false (server_enabledIn server a) = false.

(** ** index.ts and mcp-server.ts: the agent lists *)

(** The member of [AGENTS] with the given name. *)
Definition agent_of_name (name : string) : option AgentName :=
  List.find (fun a => String.eqb (agent_name a) name) AGENTS.

Definition invalid_agent (name : string) : string :=
  "Invalid agent " +:+ dquote +:+ name +:+ dquote +:+ ". Allowed: "
  +:+ join ", " (map agent_name AGENTS).

(** The loop that checks the requested names. *)
Fixpoint check_agents (requested : list string) : result (list AgentName) :=
  match requested with
  | [] => Ok []
  | name :: rest =>
      match agent_of_name name with
      | Some a => result_map (cons a) (check_agents rest)
      | None => Throw (invalid_agent name)
      end
  end.

(** [parseAgents]; [None] is [undefined]. *)
Definition parseAgents (input : option string) : result (option (list AgentName)) :=
  match input with
  | None => Ok None
  | Some s =>
      if String.eqb s "" then Ok None
      else
        let requested :=
          List.filter (fun entry => (0 <? String.length entry)%nat)
                      (map trim (split_on "," s)) in
        result_map Some (check_agents requested)
  end.

(** A text without a comma. *)
Definition no_comma (s : string) : bool :=
  forallb (fun c => negb (Ascii.eqb c ",")) (list_ascii_of_string s).

(** [getEnabledAgents] of mcp-server.ts *)
Definition getEnabledAgents (server : json) : list AgentName :=
  if negb (truthy (prop "enabledIn" server)) then AGENTS
  else
    List.filter
      (fun a =>
         match prop "enabledIn" server with
         | Some flags => negb (json_is_false (prop (agent_name a) flags))
         | None => true
         end) AGENTS.

(** The items of a manifest come in ascending [localeCompare] order of
    their ids. *)
Definition ascending_ids `{Platform} (items : list (string * string)) : Prop :=
  Sorted (fun a b => locale_leb (fst a) (fst b) = true) items.

(** The items [applySkills] collects, before it sorts them. *)
Definition desired_items (plan : AgentPlan) : list (string * string) :=
  map (fun e => (fst e, sm_fileName (snd e))) (desiredSkills plan).

(** ** More sample data *)

(** A stdio server without its command. *)
Definition no_command : json := JObj [("transport", JStr "stdio")].

(** A server whose environment refers to [TOKEN]. *)
Definition with_token : json :=
  JObj [("transport", JStr "stdio"); ("command", JStr "npx");
        ("env", JObj [("API_KEY", JStr "env://TOKEN")])].

(** An mcp-router document: a stdio server, a remote one, and an entry
    that is no object. *)
Definition router_document : json :=
  JObj [("mcpServers",
         JObj [("web", JObj [("url", JStr " https://example.com/mcp ");
                             ("type", JStr "http")]);
               ("files", JObj [("command", JStr "npx");
                               ("args", JArr [JStr "-y"; JNum 1; JStr "files-server"])]);
               ("broken", JStr "npx")])].

Definition router_entries : list (string * json) :=
  match prop "mcpServers" router_document with
  | Some (JObj entries) => entries
  | _ => []
  end.

Definition no_import : ImportResult :=
  {| ir_config := {| version := "1"; mcp_servers := []; skills_items := None;
                     targets := None |};
     importedServerIds := []; skippedServerIds := []; warnings := [] |}.

Definition router_import : ImportResult :=
  match importFromMcpRouterJson router_document with
  | Ok r => r
  | Throw _ => no_import
  end.

(** One inline skill, switched off for Claude. *)
Definition notes_skill : UnifiedSkill :=
  {| content := Some "Take notes.";
     sourcePath := None;
     fileName := None;
     skill_enabledIn := Some (fun a => match a with claude => Some false | _ => None end) |}.

Definition skilled_config : UnifiedConfig :=
  {| version := "1";
     mcp_servers := [];
     skills_items := Some [("notes", notes_skill)];
     targets := None |}.

Section MoreSamples.
#[local] Existing Instance example_platform.

(** The plan for Gemini when the configuration holds what the file
    holds. *)
Definition idle_plan : AgentPlan :=
  {| plan_agent := gemini;
     plan_path := gemini_settings;
     plan_adapter := GeminiAdapter;
     targetConfig := empty_target;
     fileExists := true;
     currentData := JObj [("mcpServers", JObj [])];
     currentServers := [];
     desiredServers := [];
     diff := {| added := []; removed := []; changed := []; unchanged := 0 |};
     plan_skillsDir := "/home/user/.gemini/skills/uac-managed";
     currentSkills := [];
     desiredSkills := [];
     skillsDiff := {| added := []; removed := []; changed := []; unchanged := 0 |};
     skillsManifestExists := false |}.

Definition example_snapshot : string := "/home/user/.uac/snapshots/s1".

(** The step of the sync for the example plan alone. *)
Definition example_apply : result AppliedAgent * World :=
  apply_one example_snapshot example_plan example_machine.

Definition no_entry : AppliedAgent :=
  {| ap_agent := ""; mcpPath := ""; mcpBackupPath := None; mcpExistedBefore := false;
     mcpChanged := false; ap_skillsDir := ""; skillsBackupDir := None;
     skillsManifestExistedBefore := false; skillsChanged := false |}.

Definition entry_of (r : result AppliedAgent * World) : AppliedAgent :=
  match r.1 with Ok e => e | Throw _ => no_entry end.

Definition example_next : json :=
  withServers GeminiAdapter (currentData example_plan) (desiredServers example_plan).

(** The plan for Gemini that adds the inline skill. *)
Definition skills_plan : AgentPlan :=
  {| plan_agent := gemini;
     plan_path := gemini_settings;
     plan_adapter := GeminiAdapter;
     targetConfig := empty_target;
     fileExists := true;
     currentData := JObj [("mcpServers", JObj [])];
     currentServers := [];
     desiredServers := [];
     diff := {| added := []; removed := []; changed := []; unchanged := 0 |};
     plan_skillsDir := "/home/user/.gemini/skills/uac-managed";
     currentSkills := [];
     desiredSkills := [("notes", {| sm_fileName := "notes.md";
                                    sm_content := "Take notes." |})];
     skillsDiff := {| added := ["notes"]; removed := []; changed := []; unchanged := 0 |};
     skillsManifestExists := false |}.
End MoreSamples.

(* ================================================================== *)
(** * Part II: the properties                                          *)
(* ================================================================== *)

(** ** The order on strings *)

Lemma ascii_compare_refl c : Ascii.compare c c = Eq.
Proof. unfold Ascii.compare. apply N.compare_refl. Qed.

Lemma ascii_compare_lt_trans a b c :
  Ascii.compare a b = Lt -> Ascii.compare b c = Lt -> Ascii.compare a c = Lt.
Proof. unfold Ascii.compare. rewrite !N.compare_lt_iff. lia. Qed.

Lemma string_compare_lt_trans a :
  forall b c, String.compare a b = Lt -> String.compare b c = Lt ->
              String.compare a c = Lt.
Proof.
  induction a as [|x a IH]; intros [|y b] [|z c]; simpl; try congruence.
  destruct (Ascii.compare x y) eqn:Hxy; try discriminate;
    destruct (Ascii.compare y z) eqn:Hyz; try discriminate; intros H1 H2.
  - apply Ascii.compare_eq_iff in Hxy, Hyz. subst.
    rewrite ascii_compare_refl. eauto.
  - apply Ascii.compare_eq_iff in Hxy. subst. by rewrite Hyz.
  - apply Ascii.compare_eq_iff in Hyz. subst. by rewrite Hxy.
  - by rewrite (ascii_compare_lt_trans _ _ _ Hxy Hyz).
Qed.

Lemma str_le_cases a b : str_le a b <-> String.compare a b = Lt \/ a = b.
Proof.
  unfold str_le, String.leb. split.
  - destruct (String.compare a b) eqn:E; try discriminate; intros _.
    + right. by apply String.compare_eq_iff.
    + by left.
  - intros [->| ->]; [done|].
    assert (String.compare b b = Eq) as ->; [|done].
    induction b as [|x b IH]; simpl; [done|]. by rewrite ascii_compare_refl.
Qed.

#[global] Instance str_le_trans : Transitive str_le.
Proof.
  intros a b c. rewrite !str_le_cases. intros [H1| ->] [H2| ->]; auto.
  left. eapply string_compare_lt_trans; eauto.
Qed.

#[global] Instance str_le_total : Total str_le.
Proof. intros a b. apply String.leb_total. Qed.

#[global] Instance str_le_antisym : AntiSymm (=) str_le.
Proof. intros a b Hab Hba. by apply String.leb_antisym. Qed.

Lemma sort_strings_perm l : sort_strings l ≡ₚ l.
Proof. apply merge_sort_Permutation. Qed.

Lemma sort_strings_sorted l : Sorted str_le (sort_strings l).
Proof. apply (Sorted_merge_sort str_le). Qed.

Lemma sort_strings_unique l1 l2 : l1 ≡ₚ l2 -> sort_strings l1 = sort_strings l2.
Proof.
  intros Hp. apply (Sorted_unique str_le); auto using sort_strings_sorted.
  by rewrite !sort_strings_perm.
Qed.

Lemma sort_strings_elem x l : x ∈ sort_strings l <-> x ∈ l.
Proof. by rewrite sort_strings_perm. Qed.

(** ** Objects as association lists *)

Lemma obj_has_elem {A} k (o : list (string * A)) :
  obj_has k o = true <-> k ∈ keys o.
Proof.
  unfold obj_has, keys. induction o as [|[k' v] o IH]; simpl.
  - split; [done|]. by intros ?%elem_of_nil.
  - rewrite elem_of_cons. destruct (String.eqb_spec k k') as [->|Hne].
    + split; auto.
    + rewrite IH. split; [auto|]. by intros [?|?].
Qed.

Lemma obj_has_false {A} k (o : list (string * A)) :
  obj_has k o = false <-> k ∉ keys o.
Proof. rewrite <- obj_has_elem. by destruct (obj_has k o). Qed.

Lemma obj_get_elem {A} k (v : A) o :
  NoDup (keys o) -> (k, v) ∈ o -> obj_get k o = Some v.
Proof.
  induction o as [|[k' v'] o IH]; simpl; intros Hnd Hin.
  - by apply elem_of_nil in Hin.
  - apply NoDup_cons in Hnd as [Hk Hnd]. apply elem_of_cons in Hin as [Heq|Hin].
    + inversion Heq; subst. by rewrite String.eqb_refl.
    + destruct (String.eqb_spec k k') as [->|Hne]; [|by auto].
      exfalso. apply Hk. unfold keys. apply list_elem_of_fmap.
      by exists (k', v).
Qed.

Lemma obj_get_Some_elem {A} k (v : A) o : obj_get k o = Some v -> (k, v) ∈ o.
Proof.
  induction o as [|[k' v'] o IH]; simpl; [done|].
  destruct (String.eqb_spec k k') as [->|Hne].
  - intros [= ->]. apply elem_of_cons. by left.
  - intros. apply elem_of_cons. right. auto.
Qed.

Lemma obj_get_perm {A} k (o1 o2 : list (string * A)) :
  NoDup (keys o1) -> o1 ≡ₚ o2 -> obj_get k o1 = obj_get k o2.
Proof.
  intros Hnd Hp.
  assert (NoDup (keys o2)) as Hnd2.
  { unfold keys in *. by rewrite <- Hp. }
  destruct (obj_get k o1) as [v|] eqn:E1.
  - symmetry. apply obj_get_elem; [done|]. rewrite <- Hp.
    by apply obj_get_Some_elem.
  - destruct (obj_get k o2) as [v|] eqn:E2; [|done].
    apply obj_get_Some_elem in E2. rewrite <- Hp in E2.
    apply obj_get_elem in E2; [congruence|done].
Qed.

(** ** The loops of [diffServerMaps] *)

Lemma diff_loop current desired ids a c n :
  fold_left (diff_desired_step current desired) ids (a, c, n)
  = (a ++ List.filter (is_added current) ids,
     c ++ List.filter (is_changed current desired) ids,
     n + length (List.filter (is_unchanged current desired) ids))%list.
Proof.
  revert a c n. induction ids as [|id ids IH]; intros a c n; simpl.
  - by rewrite !app_nil_r, Nat.add_0_r.
  - unfold is_added, is_changed, is_unchanged, same_value in *.
    destruct (obj_has id current); simpl.
    + destruct (String.eqb _ _); simpl; rewrite IH; simpl.
      * f_equal. lia.
      * by rewrite <- app_assoc.
    + rewrite IH. by rewrite <- app_assoc.
Qed.

Lemma diffServerMaps_eq current desired :
  diffServerMaps current desired =
  {| added := sort_strings (List.filter (is_added current) (keys desired));
     removed := sort_strings (List.filter (fun id => negb (obj_has id desired)) (keys current));
     changed := sort_strings (List.filter (is_changed current desired) (keys desired));
     unchanged := length (List.filter (is_unchanged current desired) (keys desired)) |}.
Proof. unfold diffServerMaps. by rewrite diff_loop. Qed.

Lemma json_induction (P : json -> Prop) :
  P JNull -> (forall b, P (JBool b)) -> (forall n, P (JNum n)) ->
  (forall s, P (JStr s)) ->
  (forall l, Forall P l -> P (JArr l)) ->
  (forall o, Forall (fun kv => P (snd kv)) o -> P (JObj o)) ->
  forall v, P v.
Proof.
  intros Hnull Hbool Hnum Hstr Harr Hobj.
  fix IH 1. intros [|b|n|s|l|o].
  - exact Hnull.
  - exact (Hbool b).
  - exact (Hnum n).
  - exact (Hstr s).
  - apply Harr. induction l as [|x l IHl]; constructor; [apply IH|exact IHl].
  - apply Hobj. induction o as [|[k x] o IHo]; constructor; [apply IH|exact IHo].
Qed.

Lemma sortValue_obj o : sortValue (JObj o) = JObj (canon_props (entry_map sortValue o)).
Proof. reflexivity. Qed.

Lemma keys_entry_map f o : keys (entry_map f o) = keys o.
Proof. unfold keys, entry_map. rewrite map_map. by apply map_ext. Qed.

Lemma canon_props_perm r1 r2 :
  NoDup (keys r1) -> r1 ≡ₚ r2 -> canon_props r1 = canon_props r2.
Proof.
  intros Hnd Hp. unfold canon_props. f_equal.
  rewrite (sort_strings_unique (keys r1) (keys r2)) by (unfold keys; by rewrite Hp).
  apply map_ext. intros k. unfold obj_at. by rewrite (obj_get_perm k r1 r2).
Qed.

Lemma sortValue_key_perm a :
  forall a', distinct_keys a = true -> key_perm a a' -> sortValue a = sortValue a'.
Proof.
  induction a as [| | | |l IH|o IH] using json_induction; intros a' Hd Hk;
    inversion Hk as [| | | |? l' Hl|? o' o'' Ho Hp]; subst; try reflexivity.
  - simpl. f_equal. simpl in Hd. clear Hk.
    revert IH Hd. induction Hl as [|x y l l' Hxy Hl IHl]; intros IH Hd; [done|].
    simpl in *. apply andb_true_iff in Hd as [Hx Hd].
    apply Forall_cons in IH as [IHx IH]. f_equal; auto.
  - rewrite !sortValue_obj. f_equal.
    simpl in Hd. apply andb_true_iff in Hd as [Hnd Hd].
    apply bool_decide_eq_true in Hnd.
    assert (entry_map sortValue o = entry_map sortValue o') as Hrec.
    { clear Hk Hnd Hp.
      revert IH Hd. induction Ho as [|x y l l' [Hk Hv] Hl IHl]; intros IH Hd; [done|].
      simpl in *. apply andb_true_iff in Hd as [Hx Hd].
      apply Forall_cons in IH as [IHx IH]. f_equal; auto.
      rewrite Hk. f_equal. auto. }
    transitivity (canon_props (entry_map sortValue o')); [by rewrite Hrec|].
    apply canon_props_perm.
    + rewrite keys_entry_map.
      assert (keys o = keys o') as <-; [|done].
      clear -Ho. induction Ho as [|x y l l' [Hk _] _ IHl]; [done|]. simpl. by f_equal.
    + unfold entry_map. by apply Permutation_map.
Qed.

Lemma stringify_arr_cons x rest k :
  stringify_then (JArr (x :: rest)) k = "[" +:+ stringify_then x (arr_tail rest k).
Proof.
  simpl. do 2 f_equal. induction rest as [|y rest IH]; simpl; [done|]. by rewrite IH.
Qed.

Lemma stringify_obj_cons key x rest k :
  stringify_then (JObj ((key, x) :: rest)) k
  = "{" +:+ quote_then key (":" +:+ stringify_then x (obj_tail rest k)).
Proof.
  simpl. do 4 f_equal. induction rest as [|[key' y] rest IH]; simpl; [done|].
  by rewrite IH.
Qed.

(** *** Strings *)

Lemma str_app_nil (t : string) : "" +:+ t = t.
Proof. reflexivity. Qed.

Lemma str_app_cons c (s t : string) : String c s +:+ t = String c (s +:+ t).
Proof. reflexivity. Qed.

Ltac sapp := rewrite ?str_app_cons, ?str_app_nil in *.

Lemma in_all_ascii c : In c all_ascii.
Proof.
  unfold all_ascii. apply in_map_iff. exists (nat_of_ascii c). split.
  - apply ascii_nat_embedding.
  - apply in_seq. pose proof (nat_ascii_bounded c). lia.
Qed.

Lemma escape_ok_everywhere : forallb escape_ok all_ascii = true.
Proof. vm_compute. reflexivity. Qed.

Lemma escape_ok_true c : escape_ok c = true.
Proof.
  exact (proj1 (forallb_forall escape_ok all_ascii) escape_ok_everywhere c
           (in_all_ascii c)).
Qed.

Lemma escape_no_quote c :
  String.prefix dquote (escape_char c) = false
  /\ String.prefix (escape_char c) dquote = false.
Proof.
  pose proof (escape_ok_true c) as Hc. unfold escape_ok in Hc.
  apply andb_true_iff in Hc as [Hc _]. apply andb_true_iff in Hc as [H1 H2].
  apply negb_true_iff in H1, H2. by split.
Qed.

Lemma escape_prefix c c' :
  String.prefix (escape_char c) (escape_char c') = true -> c = c'.
Proof.
  intros Hp. pose proof (escape_ok_true c) as Hc. unfold escape_ok in Hc.
  apply andb_true_iff in Hc as [_ Hc].
  pose proof (proj1 (forallb_forall _ _) Hc c' (in_all_ascii c')) as Hcc.
  simpl in Hcc. rewrite Hp in Hcc. by apply Ascii.eqb_eq.
Qed.

Lemma app_prefix_cases x : forall y r r',
  x +:+ r = y +:+ r' -> String.prefix x y = true \/ String.prefix y x = true.
Proof.
  induction x as [|a x IH]; intros [|b y] r r' Heq; sapp; simpl in *; auto.
  injection Heq as -> Heq. destruct (IH _ _ _ Heq) as [Hp|Hp].
  - left. destruct (Ascii.ascii_dec b b); [done|congruence].
  - right. destruct (Ascii.ascii_dec b b); [done|congruence].
Qed.

Lemma string_app_inv_head x r r' : x +:+ r = x +:+ r' -> r = r'.
Proof. apply String.app_inj. Qed.

Lemma string_app_assoc (a b c : string) : (a +:+ b) +:+ c = a +:+ (b +:+ c).
Proof. induction a as [|x a IH]; sapp; [done|]. f_equal. exact IH. Qed.

Lemma escape_char_inj c c' r r' :
  escape_char c +:+ r = escape_char c' +:+ r' -> c = c' /\ r = r'.
Proof.
  intros Heq.
  assert (c = c') as ->.
  { destruct (app_prefix_cases _ _ _ _ Heq) as [Hp|Hp].
    - by apply escape_prefix.
    - symmetry. by apply escape_prefix. }
  split; [done|]. by apply string_app_inv_head in Heq.
Qed.

Lemma escape_char_not_quote c r r' : escape_char c +:+ r <> dquote +:+ r'.
Proof.
  intros Heq. destruct (escape_no_quote c) as [H1 H2].
  destruct (app_prefix_cases _ _ _ _ Heq) as [Hp|Hp]; congruence.
Qed.

Lemma quote_body_inj s : forall s' k k',
  quote_body s k = quote_body s' k' -> s = s' /\ k = k'.
Proof.
  induction s as [|c s IH]; intros [|c' s'] k k'; simpl; intros Heq.
  - split; [done|]. by apply String.app_inj in Heq.
  - exfalso. symmetry in Heq. by apply escape_char_not_quote in Heq.
  - exfalso. by apply escape_char_not_quote in Heq.
  - apply escape_char_inj in Heq as [-> Heq]. apply IH in Heq as [-> ->]. done.
Qed.

Lemma quote_then_inj s s' k k' :
  quote_then s k = quote_then s' k' -> s = s' /\ k = k'.
Proof.
  unfold quote_then. intros Heq. apply String.app_inj in Heq.
  by apply quote_body_inj.
Qed.

(** *** Numbers *)

Lemma uint_digits d : all_digits (NilEmpty.string_of_uint d) = true.
Proof. induction d; simpl; auto. Qed.

Lemma nilzero_uint_digits d :
  all_digits (NilZero.string_of_uint d) = true /\ NilZero.string_of_uint d <> "".
Proof.
  unfold NilZero.string_of_uint. destruct d; simpl; rewrite ?uint_digits; done.
Qed.

Lemma print_Z_shape n :
  exists ds, all_digits ds = true /\ ds <> ""
             /\ (print_Z n = ds \/ print_Z n = String "-" ds).
Proof.
  unfold print_Z, NilZero.string_of_int.
  destruct (Z.to_int n) as [d|d]; exists (NilZero.string_of_uint d);
    destruct (nilzero_uint_digits d); auto.
Qed.

Lemma to_int_nonnil n :
  Z.to_int n <> Decimal.Pos Decimal.Nil /\ Z.to_int n <> Decimal.Neg Decimal.Nil.
Proof.
  destruct n as [|p|p]; simpl; split; try discriminate;
    intros [= Hp]; by apply Unsigned.to_uint_nonnil in Hp.
Qed.

Lemma print_Z_inj n n' : print_Z n = print_Z n' -> n = n'.
Proof.
  unfold print_Z. intros Heq.
  apply (f_equal NilZero.int_of_string) in Heq.
  destruct (to_int_nonnil n), (to_int_nonnil n').
  rewrite !NilZero.isi in Heq by done.
  injection Heq as Heq. apply (f_equal Z.of_int) in Heq.
  by rewrite !DecimalZ.of_to in Heq.
Qed.

Lemma digits_split x : forall y k k',
  all_digits x = true -> all_digits y = true -> delimited k -> delimited k' ->
  x +:+ k = y +:+ k' -> x = y /\ k = k'.
Proof.
  induction x as [|a x IH]; intros [|b y] k k' Hx Hy Hk Hk' Heq; sapp; simpl in *.
  - done.
  - subst k. simpl in Hk. apply andb_true_iff in Hy as [Hb _]. congruence.
  - subst k'. simpl in Hk'. apply andb_true_iff in Hx as [Ha _]. congruence.
  - injection Heq as -> Heq. apply andb_true_iff in Hx as [_ Hx].
    apply andb_true_iff in Hy as [_ Hy].
    destruct (IH _ _ _ Hx Hy Hk Hk' Heq) as [-> ->]. done.
Qed.

Lemma digits_head ds : all_digits ds = true -> ds <> "" ->
  exists c r, ds = String c r /\ is_digit c = true.
Proof.
  destruct ds as [|c r]; [done|]. simpl. intros [Hc _]%andb_true_iff _. eauto.
Qed.

Lemma print_Z_then_inj n n' k k' :
  delimited k -> delimited k' ->
  print_Z n +:+ k = print_Z n' +:+ k' -> n = n' /\ k = k'.
Proof.
  intros Hk Hk' Heq.
  destruct (print_Z_shape n) as (ds & Hds & Hne & Hn).
  destruct (print_Z_shape n') as (ds' & Hds' & Hne' & Hn').
  destruct (digits_head ds Hds Hne) as (c & r & -> & Hc).
  destruct (digits_head ds' Hds' Hne') as (c' & r' & -> & Hc').
  assert (print_Z n = print_Z n' /\ k = k') as [Hp ->];
    [|split; [by apply print_Z_inj|done]].
  destruct Hn as [Hn|Hn], Hn' as [Hn'|Hn']; rewrite Hn, Hn' in *; sapp.
  - destruct (digits_split (String c r) (String c' r') k k' Hds Hds' Hk Hk' Heq)
      as [-> ->]; done.
  - injection Heq as -> _. vm_compute in Hc. done.
  - injection Heq as <- _. vm_compute in Hc'. done.
  - assert (String c r +:+ k = String c' r' +:+ k') as Heq' by (sapp; congruence).
    destruct (digits_split (String c r) (String c' r') k k' Hds Hds' Hk Hk' Heq')
      as [-> ->]; done.
Qed.

(** *** Values *)

Lemma stringify_head v k : exists c r, stringify_then v k = String c r /\ head_ok v c.
Proof.
  destruct v as [|[]|n|s|[|x l]|[|[key x] o]]; simpl head_ok;
    try (eexists _, _; split; [reflexivity|auto]; fail).
  destruct (print_Z_shape n) as (ds & Hds & Hne & Hn).
  destruct (digits_head ds Hds Hne) as (c & r & -> & Hc). simpl.
  destruct Hn as [-> | ->]; sapp; eexists _, _; split; eauto.
Qed.

Lemma head_clash v v' k k' c :
  stringify_then v k = stringify_then v' k' -> head_ok v c ->
  (forall c', head_ok v' c' -> c' <> c) ->
  (forall c', head_ok v c' -> c' = c) -> False.
Proof.
  intros Heq Hc Hne Hun.
  destruct (stringify_head v k) as (a & r & E1 & H1).
  destruct (stringify_head v' k') as (a' & r' & E2 & H2).
  rewrite E1, E2 in Heq. injection Heq as -> _.
  apply (Hne _ H2). auto.
Qed.

Lemma head_kind v v' k k' :
  stringify_then v k = stringify_then v' k' ->
  match v, v' with
  | JNull, JNull | JNum _, JNum _ | JStr _, JStr _ | JArr _, JArr _
  | JObj _, JObj _ => True
  | JBool b, JBool b' => b = b'
  | _, _ => False
  end.
Proof.
  intros Heq.
  destruct (stringify_head v k) as (a & r & E1 & H1).
  destruct (stringify_head v' k') as (a' & r' & E2 & H2).
  rewrite E1, E2 in Heq. injection Heq as -> _. clear E1 E2.
  destruct v as [|[]| | | |], v' as [|[]| | | |]; simpl in H1, H2; try done;
    repeat match goal with H : _ \/ _ |- _ => destruct H end;
    subst; try discriminate;
    match goal with H : _ = _ |- _ => vm_compute in H; discriminate H end.
Qed.

Lemma head_not_closing v k c r :
  stringify_then v k = String c r -> c <> "]"%char /\ c <> "}"%char.
Proof.
  intros E. destruct (stringify_head v k) as (a & r' & E' & Ha).
  rewrite E in E'. injection E' as <- _.
  split; intros Hc; rewrite Hc in Ha;
    destruct v as [|[]| | | |]; simpl in Ha;
    repeat match goal with H : _ \/ _ |- _ => destruct H end;
    try discriminate;
    match goal with H : _ = _ |- _ => vm_compute in H; discriminate H end.
Qed.

Lemma delimited_arr_tail l k : delimited (arr_tail l k).
Proof. destruct l; reflexivity. Qed.

Lemma delimited_obj_tail l k : delimited (obj_tail l k).
Proof. destruct l as [|[]]; reflexivity. Qed.

Lemma stringify_then_inj v : forall v' k k',
  delimited k -> delimited k' ->
  stringify_then v k = stringify_then v' k' -> v = v' /\ k = k'.
Proof.
  induction v as [|b|n|s|l IH|o IH] using json_induction; intros v' k k' Hk Hk' Heq;
    pose proof (head_kind _ _ _ _ Heq) as Hkind;
    destruct v' as [|b'|n'|s'|l'|o']; try done.
  - simpl in Heq. by apply String.app_inj in Heq as ->.
  - subst b'. split; [done|]. destruct b; simpl in Heq; by apply String.app_inj in Heq.
  - simpl in Heq. by apply print_Z_then_inj in Heq as [-> ->].
  - simpl in Heq. by apply quote_then_inj in Heq as [-> ->].
  - clear Hkind.
    destruct l as [|x l], l' as [|x' l'].
    + simpl in Heq. by apply String.app_inj in Heq as ->.
    + exfalso. rewrite stringify_arr_cons in Heq. simpl in Heq. sapp.
      injection Heq as Heq. symmetry in Heq.
      by destruct (head_not_closing _ _ _ _ Heq).
    + exfalso. rewrite stringify_arr_cons in Heq. simpl in Heq. sapp.
      injection Heq as Heq.
      by destruct (head_not_closing _ _ _ _ Heq).
    + rewrite !stringify_arr_cons in Heq. apply String.app_inj in Heq.
      apply Forall_cons in IH as [Hx IH].
      apply Hx in Heq as [-> Heq]; auto using delimited_arr_tail.
      assert (forall l', arr_tail l k = arr_tail l' k' -> l = l' /\ k = k') as Htail'.
      { clear Heq l'. induction IH as [|y l Hy _ IHl]; intros [|y' l'] Heq; simpl in Heq.
        - by apply String.app_inj in Heq as ->.
        - discriminate.
        - discriminate.
        - apply String.app_inj in Heq.
          apply Hy in Heq as [-> Heq]; auto using delimited_arr_tail.
          by apply IHl in Heq as [-> ->]. }
      by apply Htail' in Heq as [-> ->].
  - clear Hkind.
    assert (forall o0, Forall (fun kv => forall v' k k', delimited k -> delimited k' ->
                 stringify_then (snd kv) k = stringify_then v' k' -> snd kv = v' /\ k = k') o0 ->
             forall o', obj_tail o0 k = obj_tail o' k' -> o0 = o' /\ k = k') as Htail.
    { clear. intros o0 H0.
      induction H0 as [|[key x] o1 Hx _ IHl]; intros [|[key' x'] o1'] Ht; simpl in Ht.
      - by apply String.app_inj in Ht as ->.
      - discriminate.
      - discriminate.
      - apply String.app_inj in Ht. apply quote_then_inj in Ht as [-> Ht].
        apply String.app_inj in Ht.
        apply Hx in Ht as [Hxx Ht]; auto using delimited_obj_tail. simpl in Hxx. subst.
        by apply IHl in Ht as [-> ->]. }
    destruct o as [|[key x] o], o' as [|[key' x'] o'].
    + simpl in Heq. by apply String.app_inj in Heq as ->.
    + exfalso. rewrite stringify_obj_cons in Heq. simpl in Heq.
      unfold quote_then, dquote in Heq. sapp. injection Heq. intros _ Hb.
      discriminate Hb.
    + exfalso. rewrite stringify_obj_cons in Heq. simpl in Heq.
      unfold quote_then, dquote in Heq. sapp. injection Heq. intros _ Hb.
      discriminate Hb.
    + rewrite !stringify_obj_cons in Heq. apply String.app_inj in Heq.
      apply quote_then_inj in Heq as [-> Heq]. apply String.app_inj in Heq.
      apply Forall_cons in IH as [Hx IH].
      apply Hx in Heq as [Hxx Heq]; auto using delimited_obj_tail. simpl in Hxx. subst.
      by apply (Htail _ IH) in Heq as [-> ->].
Qed.

Lemma JSON_stringify_inj v v' : JSON_stringify v = JSON_stringify v' -> v = v'.
Proof.
  unfold JSON_stringify. intros Heq.
  by apply stringify_then_inj in Heq as [-> _].
Qed.

(** ** Assignment to a property *)

Lemma keys_app {A} (o1 o2 : list (string * A)) : keys (o1 ++ o2) = keys o1 ++ keys o2.
Proof. unfold keys. apply map_app. Qed.

Lemma obj_get_replace {A} k k' (v : A) o :
  obj_get k (obj_replace k' v o)
  = if String.eqb k k' then (if obj_has k' o then Some v else None) else obj_get k o.
Proof.
  unfold obj_has. induction o as [|[k0 v0] o IH]; simpl.
  - by destruct (String.eqb k k').
  - destruct (String.eqb_spec k' k0) as [->|Hne]; simpl.
    + by destruct (String.eqb k k0).
    + rewrite IH. destruct (String.eqb_spec k k') as [->|Hne'].
      * by apply String.eqb_neq in Hne as ->.
      * done.
Qed.

Lemma obj_get_insert_index {A} k i k' (v : A) o :
  obj_has k' o = false ->
  obj_get k (obj_insert_index i k' v o)
  = if String.eqb k k' then Some v else obj_get k o.
Proof.
  unfold obj_has. induction o as [|[k0 v0] o IH]; simpl; intros Hno.
  - by destruct (String.eqb k k').
  - destruct (String.eqb_spec k' k0) as [->|Hne]; [done|].
    assert (obj_get k ((k', v) :: (k0, v0) :: o)
            = if String.eqb k k' then Some v else obj_get k ((k0, v0) :: o)) as Hhead
      by reflexivity.
    destruct (array_index k0) as [j|]; [destruct (j <? i)%N|]; try exact Hhead.
    simpl. rewrite IH by done.
    destruct (String.eqb_spec k k0) as [->|Hne'], (String.eqb_spec k0 k') as [->|Hne''];
      done.
Qed.

Lemma obj_get_app {A} k (o1 o2 : list (string * A)) :
  obj_get k (o1 ++ o2) = match obj_get k o1 with
                         | Some v => Some v
                         | None => obj_get k o2
                         end.
Proof.
  induction o1 as [|[k0 v0] o1 IH]; simpl; [done|].
  by destruct (String.eqb k k0).
Qed.

Lemma obj_get_set {A} k k' (v : A) o :
  obj_get k (obj_set o k' v) = if String.eqb k k' then Some v else obj_get k o.
Proof.
  unfold obj_set. destruct (obj_has k' o) eqn:Hhas.
  - rewrite obj_get_replace, Hhas. done.
  - destruct (array_index k') as [i|].
    + by apply obj_get_insert_index.
    + rewrite obj_get_app. simpl. unfold obj_has in Hhas.
      destruct (String.eqb_spec k k') as [->|Hne].
      * by destruct (obj_get k' o).
      * by destruct (obj_get k o).
Qed.

Lemma obj_get_fold_set {A} k (es : list (string * A)) : forall acc,
  NoDup (keys es) ->
  obj_get k (fold_left (fun acc e => obj_set acc (fst e) (snd e)) es acc)
  = match obj_get k es with
    | Some v => Some v
    | None => obj_get k acc
    end.
Proof.
  induction es as [|[k0 v0] es IH]; intros acc Hnd; simpl; [done|].
  change (NoDup (k0 :: keys es)) in Hnd.
  apply NoDup_cons in Hnd as [Hk0 Hnd]. rewrite IH by done.
  rewrite obj_get_set. destruct (String.eqb_spec k k0) as [->|Hne]; [|done].
  apply obj_has_false in Hk0. unfold obj_has in Hk0.
  by destruct (obj_get k0 es).
Qed.

Lemma fold_assign_kept {A} (es : list (string * A)) : forall acc,
  fold_left (fun acc e => assign acc (fst e) (snd e)) es acc
  = fold_left (fun acc e => obj_set acc (fst e) (snd e)) (kept es) acc.
Proof.
  induction es as [|[k v] es IH]; intros acc; simpl; [done|].
  unfold assign at 2. simpl. destruct (is_proto k); simpl; apply IH.
Qed.

Lemma obj_of_entries_own {A} (es : list (string * A)) :
  obj_of_entries es = own_entries (kept es).
Proof. apply fold_assign_kept. Qed.

Lemma keys_kept {A} (es : list (string * A)) :
  keys (kept es) = List.filter (fun k => negb (is_proto k)) (keys es).
Proof.
  unfold kept, keys. induction es as [|[k v] es IH]; simpl; [done|].
  destruct (is_proto k); simpl; by rewrite IH.
Qed.

Lemma obj_get_kept {A} k (es : list (string * A)) :
  obj_get k (kept es) = if is_proto k then None else obj_get k es.
Proof.
  unfold kept. induction es as [|[k0 v0] es IH]; simpl.
  - by destruct (is_proto k).
  - destruct (is_proto k0) eqn:H0; simpl.
    + rewrite IH. destruct (is_proto k) eqn:Hk; [done|].
      destruct (String.eqb_spec k k0) as [->|Hne]; [congruence|done].
    + destruct (String.eqb_spec k k0) as [->|Hne]; [by rewrite H0|]. exact IH.
Qed.

Lemma NoDup_keys_kept {A} (es : list (string * A)) :
  NoDup (keys es) -> NoDup (keys (kept es)).
Proof.
  intros Hnd. rewrite keys_kept. by apply NoDup_ListNoDup, List.NoDup_filter, NoDup_ListNoDup.
Qed.

Lemma obj_get_of_entries {A} k (es : list (string * A)) :
  NoDup (keys es) ->
  obj_get k (obj_of_entries es) = if is_proto k then None else obj_get k es.
Proof.
  intros Hnd. rewrite obj_of_entries_own. unfold own_entries.
  rewrite obj_get_fold_set by (by apply NoDup_keys_kept).
  rewrite obj_get_kept. destruct (is_proto k); [done|]. by destruct (obj_get k es).
Qed.

Lemma obj_get_tabulate (f : string -> json) k ks :
  obj_get k (map (fun key => (key, f key)) ks)
  = if bool_decide (k ∈ ks) then Some (f k) else None.
Proof.
  induction ks as [|k0 ks IH]; simpl; [done|].
  destruct (String.eqb_spec k k0) as [->|Hne].
  - rewrite bool_decide_eq_true_2; [done|]. by left.
  - rewrite IH. apply f_equal with (f := fun b : bool => if b then Some (f k) else None).
    apply bool_decide_ext. rewrite elem_of_cons. naive_solver.
Qed.

Lemma obj_get_canon k r :
  NoDup (keys r) ->
  obj_get k (canon_props r) = if is_proto k then None else obj_get k r.
Proof.
  intros Hnd. unfold canon_props. rewrite obj_get_of_entries.
  - destruct (is_proto k); [done|].
    rewrite obj_get_tabulate. case_bool_decide as Hin.
    + rewrite sort_strings_elem in Hin. apply obj_has_elem in Hin.
      unfold obj_at, obj_has in *. by destruct (obj_get k r).
    + rewrite sort_strings_elem in Hin. apply obj_has_false in Hin.
      unfold obj_has in Hin. by destruct (obj_get k r).
  - unfold keys. rewrite map_map. simpl. rewrite map_id.
    by rewrite sort_strings_perm.
Qed.

(** ** Objects listed in enumeration order *)

Lemma insert_index_last {A} i k (v : A) o :
  Forall (fun k' => exists j, array_index k' = Some j /\ (j < i)%N) (keys o) ->
  obj_insert_index i k v o = o ++ [(k, v)].
Proof.
  induction o as [|[k0 v0] o IH]; simpl; intros Hall; [done|].
  apply Forall_cons in Hall as [(j & -> & Hj) Hall].
  apply N.ltb_lt in Hj as ->. by rewrite IH.
Qed.

Lemma obj_set_last {A} acc k (v : A) :
  Forall (fun k0 => may_follow k0 k = true) (keys acc) ->
  obj_set acc k v = acc ++ [(k, v)].
Proof.
  intros Hall. unfold obj_set.
  assert (obj_has k acc = false) as ->.
  { apply obj_has_false. intros Hin. rewrite Forall_forall in Hall.
    specialize (Hall _ Hin). unfold may_follow in Hall.
    by rewrite String.eqb_refl in Hall. }
  destruct (array_index k) as [i|] eqn:Hk; [|done].
  apply insert_index_last. eapply Forall_impl; [exact Hall|].
  intros k0 Hf. unfold may_follow in Hf. rewrite Hk in Hf.
  apply andb_true_iff in Hf as [_ Hf].
  destruct (array_index k0) as [j|]; [|done]. exists j. split; [done|].
  by apply N.ltb_lt.
Qed.

Lemma enum_ordered_app l1 x l2 :
  enum_ordered (l1 ++ x :: l2) = true ->
  Forall (fun k => may_follow k x = true) l1 /\ enum_ordered ((l1 ++ [x]) ++ l2) = true.
Proof.
  intros H. split; [|by rewrite <- app_assoc].
  induction l1 as [|k l1 IH]; simpl in *; [done|].
  apply andb_true_iff in H as [Hk H]. constructor; [|auto].
  rewrite forallb_app in Hk. apply andb_true_iff in Hk as [_ Hk]. simpl in Hk.
  by apply andb_true_iff in Hk as [Hk _].
Qed.

Lemma fold_set_ordered {A} (todo : list (string * A)) : forall acc,
  enum_ordered (keys (acc ++ todo)) = true ->
  fold_left (fun acc e => obj_set acc (fst e) (snd e)) todo acc = acc ++ todo.
Proof.
  induction todo as [|[k v] todo IH]; intros acc Hord; simpl.
  - by rewrite app_nil_r.
  - rewrite keys_app in Hord. simpl in Hord.
    apply enum_ordered_app in Hord as [Hall Hord].
    rewrite obj_set_last by done. rewrite IH.
    + by rewrite <- app_assoc.
    + by rewrite !keys_app.
Qed.

Lemma own_entries_ordered {A} (es : list (string * A)) :
  enum_ordered (keys es) = true -> own_entries es = es.
Proof. intros H. unfold own_entries. by rewrite fold_set_ordered. Qed.

Lemma may_follow_filter p k ks :
  forallb (may_follow k) ks = true -> forallb (may_follow k) (List.filter p ks) = true.
Proof.
  induction ks as [|k' ks IH]; simpl; [done|].
  intros [Hk Hks]%andb_true_iff. destruct (p k'); simpl; [|auto].
  by rewrite Hk, IH.
Qed.

Lemma enum_ordered_filter p ks :
  enum_ordered ks = true -> enum_ordered (List.filter p ks) = true.
Proof.
  induction ks as [|k ks IH]; simpl; [done|].
  intros [Hk Hks]%andb_true_iff. destruct (p k); simpl; [|auto].
  by rewrite may_follow_filter, IH.
Qed.

Lemma obj_of_entries_ordered {A} (es : list (string * A)) :
  enum_ordered (keys es) = true -> obj_of_entries es = kept es.
Proof.
  intros H. rewrite obj_of_entries_own. apply own_entries_ordered.
  rewrite keys_kept. by apply enum_ordered_filter.
Qed.

Lemma enum_ordered_plain ks :
  NoDup ks -> Forall (fun k => array_index k = None) ks -> enum_ordered ks = true.
Proof.
  induction ks as [|k ks IH]; simpl; [done|].
  intros [Hk Hnd]%NoDup_cons [_ Hall]%Forall_cons. rewrite IH by done.
  rewrite andb_true_r. apply forallb_forall. intros k' Hin.
  apply list_elem_of_In in Hin. unfold may_follow.
  rewrite Forall_forall in Hall. rewrite (Hall _ Hin), andb_true_r.
  apply negb_true_iff, String.eqb_neq. intros ->. done.
Qed.

(** ** What the diff engine reports as changed *)

Lemma same_value_spec current desired id :
  same_value current desired id = true
  <-> sortValue (obj_at id current) = sortValue (obj_at id desired).
Proof.
  unfold same_value, stableStringify. rewrite String.eqb_eq. split.
  - apply JSON_stringify_inj.
  - by intros ->.
Qed.

Lemma elem_of_changed current desired id :
  id ∈ changed (diffServerMaps current desired)
  <-> id ∈ keys desired /\ id ∈ keys current
      /\ sortValue (obj_at id current) <> sortValue (obj_at id desired).
Proof.
  rewrite diffServerMaps_eq. simpl. rewrite sort_strings_elem.
  rewrite list_elem_of_In, filter_In, <- list_elem_of_In.
  unfold is_changed. rewrite andb_true_iff, negb_true_iff, obj_has_elem.
  rewrite <- same_value_spec. destruct (same_value current desired id); naive_solver.
Qed.

Lemma obj_at_get k o v : obj_get k o = Some v -> obj_at k o = v.
Proof. unfold obj_at. by intros ->. Qed.

Lemma obj_get_keys {A} k (o : list (string * A)) v : obj_get k o = Some v -> k ∈ keys o.
Proof. intros Hg. apply obj_has_elem. unfold obj_has. by rewrite Hg. Qed.

(** ** Values that differ below a context *)

Lemma obj_get_middle {A} k (v : A) before after :
  k ∉ keys before -> obj_get k (before ++ (k, v) :: after) = Some v.
Proof.
  intros Hk. rewrite obj_get_app. apply obj_has_false in Hk. unfold obj_has in Hk.
  destruct (obj_get k before); [done|]. simpl. by rewrite String.eqb_refl.
Qed.

Lemma sortValue_plug_inj c : forall x y,
  distinct_keys (plug c x) = true ->
  ctx_kept c = true ->
  sortValue (plug c x) = sortValue (plug c y) -> sortValue x = sortValue y.
Proof.
  induction c as [|before c IH after|before key c IH after]; intros x y Hd Hkept Heq;
    simpl in *.
  - done.
  - rewrite forallb_app in Hd. apply andb_true_iff in Hd as [_ Hd]. simpl in Hd.
    apply andb_true_iff in Hd as [Hd _].
    injection Heq as Heq. rewrite !map_app in Heq. simpl in Heq.
    apply app_inj_1 in Heq as [_ Heq]; [|done].
    injection Heq as Heq. eauto.
  - apply andb_true_iff in Hkept as [Hkey Hkept]. apply negb_true_iff in Hkey.
    apply andb_true_iff in Hd as [Hnd Hd]. apply bool_decide_eq_true in Hnd.
    rewrite forallb_app in Hd. apply andb_true_iff in Hd as [_ Hd]. simpl in Hd.
    apply andb_true_iff in Hd as [Hd _].
    fold (entry_map sortValue (before ++ (key, plug c x) :: after)) in Heq.
    fold (entry_map sortValue (before ++ (key, plug c y) :: after)) in Heq.
    fold (canon_props (entry_map sortValue (before ++ (key, plug c x) :: after))) in Heq.
    fold (canon_props (entry_map sortValue (before ++ (key, plug c y) :: after))) in Heq.
    injection Heq as Heq.
    apply (f_equal (obj_get key)) in Heq.
    assert (keys (before ++ (key, plug c y) :: after)
            = keys (before ++ (key, plug c x) :: after)) as Hkeys
      by (by rewrite !keys_app).
    rewrite !obj_get_canon in Heq
      by (rewrite keys_entry_map; rewrite ?Hkeys; done).
    rewrite Hkey in Heq.
    rewrite keys_app in Hnd. simpl in Hnd. apply NoDup_app in Hnd as (_ & Hnot & _).
    assert (key ∉ keys before) as Hk.
    { intros Hin. apply (Hnot _ Hin). by left. }
    unfold entry_map in Heq. rewrite !map_app in Heq. simpl in Heq.
    rewrite !obj_get_middle in Heq
      by (fold (entry_map sortValue before); by rewrite keys_entry_map).
    injection Heq as Heq. eauto.
Qed.

Lemma filter_three {A} (p q r : A -> bool) l :
  (forall x, x ∈ l ->
     (p x = true /\ q x = false /\ r x = false)
     \/ (p x = false /\ q x = true /\ r x = false)
     \/ (p x = false /\ q x = false /\ r x = true)) ->
  List.filter p l ++ List.filter q l ++ List.filter r l ≡ₚ l.
Proof.
  induction l as [|x l IH]; intros Hx; simpl; [done|].
  assert (List.filter p l ++ List.filter q l ++ List.filter r l ≡ₚ l) as IH'.
  { apply IH. intros y Hy. apply Hx. by right. }
  destruct (Hx x) as [(-> & -> & ->)|[(-> & -> & ->)|(-> & -> & ->)]]; [by left|..]; simpl.
  - by rewrite IH'.
  - rewrite <- Permutation_middle. by rewrite IH'.
  - rewrite app_assoc, <- Permutation_middle, <- app_assoc. by rewrite IH'.
Qed.

Lemma diff_classes current desired id :
  (is_added current id = true /\ is_changed current desired id = false
   /\ is_unchanged current desired id = false)
  \/ (is_added current id = false /\ is_changed current desired id = true
      /\ is_unchanged current desired id = false)
  \/ (is_added current id = false /\ is_changed current desired id = false
      /\ is_unchanged current desired id = true).
Proof.
  unfold is_added, is_changed, is_unchanged.
  destruct (obj_has id current), (same_value current desired id); simpl; auto.
Qed.

(** C2 (diff correctness).  [diffServerMaps A A] has empty [added],
    [removed] and [changed] lists and counts [length A] unchanged ids.  In
    [diffServerMaps A B] the added, changed and unchanged-counted ids are,
    together, exactly the keys of [B] (as a permutation, so no id is
    counted twice); the added ids are the keys of [B] absent from [A] and
    the removed ids the keys of [A] absent from [B]; the three lists are
    sorted.  If the values of an id in [A] and [B] differ only by
    permutations of the keys of objects, at any depth, the id is not in
    [changed]. *)
Theorem diffServerMaps_correct :
  (forall A : list (string * json),
     diffServerMaps A A
     = {| added := []; removed := []; changed := []; unchanged := length A |})
  /\ (forall A B : list (string * json),
        added (diffServerMaps A B) ++ changed (diffServerMaps A B)
          ++ unchanged_ids A B ≡ₚ keys B
        /\ unchanged (diffServerMaps A B) = length (unchanged_ids A B)
        /\ (forall id, id ∈ added (diffServerMaps A B) <-> id ∈ keys B /\ id ∉ keys A)
        /\ (forall id, id ∈ removed (diffServerMaps A B) <-> id ∈ keys A /\ id ∉ keys B)
        /\ Sorted str_le (added (diffServerMaps A B))
        /\ Sorted str_le (removed (diffServerMaps A B))
        /\ Sorted str_le (changed (diffServerMaps A B)))
  /\ (forall (A B : list (string * json)) id a b,
        obj_get id A = Some a -> obj_get id B = Some b ->
        distinct_keys a = true -> key_perm a b ->
        id ∉ changed (diffServerMaps A B)).
Proof.
  split; [|split].
  - intros A. rewrite diffServerMaps_eq.
    assert (forall l, Forall (fun id => obj_has id A = true) l ->
              List.filter (is_added A) l = []
              /\ List.filter (fun id => negb (obj_has id A)) l = []
              /\ List.filter (is_changed A A) l = []
              /\ length (List.filter (is_unchanged A A) l) = length l) as Hall.
    { induction 1 as [|id l Hid _ (IH1 & IH2 & IH3 & IH4)]; simpl; [done|].
      unfold is_added, is_changed, is_unchanged, same_value in *.
      rewrite Hid, String.eqb_refl. simpl. rewrite IH4. done. }
    destruct (Hall (keys A)) as (-> & -> & -> & ->).
    { apply Forall_forall. intros id Hid. by apply obj_has_elem. }
    unfold keys. by rewrite length_map.
  - intros A B. rewrite diffServerMaps_eq. simpl. unfold unchanged_ids.
    split; [|split; [done|split; [|split; [|repeat split; apply sort_strings_sorted]]]].
    + rewrite !sort_strings_perm. apply filter_three.
      intros id _. apply diff_classes.
    + intros id.
      rewrite sort_strings_elem, list_elem_of_In, filter_In, <- list_elem_of_In.
      unfold is_added. rewrite negb_true_iff, obj_has_false. tauto.
    + intros id.
      rewrite sort_strings_elem, list_elem_of_In, filter_In, <- list_elem_of_In.
      rewrite negb_true_iff, obj_has_false. tauto.
  - intros A B id a b HA HB Hd Hk. rewrite elem_of_changed. intros (_ & _ & Hne).
    apply Hne. rewrite (obj_at_get _ _ _ HA), (obj_at_get _ _ _ HB).
    by apply sortValue_key_perm.
Qed.

Lemma kept_tabulate {A} (f : string -> A) ks :
  kept (map (fun key => (key, f key)) ks)
  = map (fun key => (key, f key)) (List.filter (fun k => negb (is_proto k)) ks).
Proof.
  unfold kept. induction ks as [|k ks IH]; simpl; [done|].
  destruct (is_proto k); simpl; by rewrite IH.
Qed.

Lemma keys_tabulate {A} (f : string -> A) ks : keys (map (fun key => (key, f key)) ks) = ks.
Proof. unfold keys. rewrite map_map. simpl. apply map_id. Qed.

Lemma sortValue_sorts o :
  NoDup (keys o) ->
  Forall (fun k => array_index k = None) (keys o) ->
  sortValue (JObj o)
  = JObj (map (fun key => (key, sortValue (obj_at key o)))
              (List.filter (fun k => negb (is_proto k)) (sort_strings (keys o)))).
Proof.
  intros Hnd Hplain. rewrite sortValue_obj. f_equal. unfold canon_props.
  rewrite keys_entry_map, obj_of_entries_ordered.
  - rewrite kept_tabulate. apply map_ext_in. intros k Hk. f_equal.
    apply filter_In in Hk as [Hk _]. apply list_elem_of_In in Hk.
    rewrite sort_strings_elem in Hk. apply obj_has_elem in Hk.
    unfold obj_at, entry_map, obj_has in *. clear -Hk.
    induction o as [|[k0 v0] o IH]; simpl in *; [done|].
    destruct (String.eqb k k0); [done|auto].
  - rewrite keys_tabulate. apply enum_ordered_plain.
    + by rewrite sort_strings_perm.
    + by rewrite sort_strings_perm.
Qed.

(** C10, as stated, fails: two values of an id that differ only in the
    order of the elements of a nested array, and are not reported: the
    elements have one canonical text, or the array stands under the key
    [__proto__], which the canonical form leaves out. *)
Lemma array_order_not_reported :
  ([JObj [("a", JNum 1); ("b", JNum 2)]; JObj [("b", JNum 2); ("a", JNum 1)]]
   <> [JObj [("b", JNum 2); ("a", JNum 1)]; JObj [("a", JNum 1); ("b", JNum 2)]])
  /\ ("tool" ∉ changed (diffServerMaps
         [("tool", JObj [("options",
             JArr [JObj [("a", JNum 1); ("b", JNum 2)];
                   JObj [("b", JNum 2); ("a", JNum 1)]])])]
         [("tool", JObj [("options",
             JArr [JObj [("b", JNum 2); ("a", JNum 1)];
                   JObj [("a", JNum 1); ("b", JNum 2)]])])]))
  /\ ("tool" ∉ changed (diffServerMaps
         [("tool", JObj [("__proto__", JArr [JStr "a"; JStr "b"])])]
         [("tool", JObj [("__proto__", JArr [JStr "b"; JStr "a"])])])).
Proof.
  split; [discriminate|].
  split; apply (bool_decide_unpack _); vm_compute; exact I.
Qed.

(** C10, amended (array order is significant).  [sortValue] maps over
    the elements of an array in place; of an object without array-index
    keys it makes the object of the same keys in sorted order, the key
    [__proto__] left out, each with the canonical form of its value.  When
    the values of an id in [A] and [B] are the same but for one nested
    array that stands under no key [__proto__], whose elements are the
    same in another order and whose canonical texts differ at some
    position, [diffServerMaps A B] reports the id as changed. *)
Theorem array_order_is_significant :
  (forall l, sortValue (JArr l) = JArr (map sortValue l))
  /\ (forall o,
        NoDup (keys o) ->
        Forall (fun k => array_index k = None) (keys o) ->
        exists o',
          sortValue (JObj o) = JObj o'
          /\ keys o' = List.filter (fun k => negb (is_proto k)) (sort_strings (keys o))
          /\ forall k, k ∈ keys o' -> obj_get k o' = Some (sortValue (obj_at k o)))
  /\ (forall (A B : list (string * json)) id c l1 l2,
        obj_get id A = Some (plug c (JArr l1)) ->
        obj_get id B = Some (plug c (JArr l2)) ->
        distinct_keys (plug c (JArr l1)) = true ->
        ctx_kept c = true ->
        l1 ≡ₚ l2 ->
        map stableStringify l1 <> map stableStringify l2 ->
        id ∈ changed (diffServerMaps A B)).
Proof.
  split; [done|]. split.
  - intros o Hnd Hplain. eexists. split; [by apply sortValue_sorts|].
    split; [apply keys_tabulate|].
    intros k Hk. rewrite keys_tabulate in Hk. rewrite obj_get_tabulate.
    by rewrite bool_decide_eq_true_2.
  - intros A B id c l1 l2 HA HB Hd Hkept _ Hne.
    apply elem_of_changed. split; [by eapply obj_get_keys|].
    split; [by eapply obj_get_keys|].
    rewrite (obj_at_get _ _ _ HA), (obj_at_get _ _ _ HB). intros Heq.
    apply sortValue_plug_inj in Heq; [|done|done]. simpl in Heq.
    apply Hne. injection Heq as Heq. unfold stableStringify.
    rewrite <- !(map_map sortValue JSON_stringify). by rewrite Heq.
Qed.

Arguments slice : simpl never.
Arguments trim : simpl never.

Lemma resolveValue_arr env options l context :
  resolveValue env options (JArr l) context
  = result_map JArr (resolve_items env options l context 0).
Proof.
  simpl. f_equal. generalize 0. induction l as [|x l IH]; intros n; simpl; [done|].
  by rewrite IH.
Qed.

Lemma resolveValue_obj env options o context :
  resolveValue env options (JObj o) context
  = result_map (fun es => JObj (obj_of_entries es)) (resolve_props env options o context).
Proof.
  simpl. f_equal. induction o as [|[k x] o IH]; simpl; [done|]. by rewrite IH.
Qed.

(** ** The secret resolver *)

Lemma resolve_items_app env options l1 l2 context i :
  resolve_items env options (l1 ++ l2) context i
  = result_bind (resolve_items env options l1 context i) (fun r1 =>
      result_map (app r1) (resolve_items env options l2 context (i + length l1))).
Proof.
  revert i. induction l1 as [|x l1 IH]; intros i; simpl.
  - rewrite Nat.add_0_r. by destruct (resolve_items env options l2 context i).
  - destruct (resolveValue env options x (index_context context i)) as [r|m]; simpl; [|done].
    rewrite IH. replace (S i + length l1) with (i + S (length l1)) by lia.
    destruct (resolve_items env options l1 context (S i)) as [r1|m]; simpl; [|done].
    by destruct (resolve_items env options l2 context (i + S (length l1))).
Qed.

Lemma resolve_props_app env options o1 o2 context :
  resolve_props env options (o1 ++ o2) context
  = result_bind (resolve_props env options o1 context) (fun r1 =>
      result_map (app r1) (resolve_props env options o2 context)).
Proof.
  induction o1 as [|[k x] o1 IH]; simpl.
  - by destruct (resolve_props env options o2 context).
  - destruct (resolveValue env options x (key_context context k)) as [r|m]; simpl; [|done].
    rewrite IH.
    destruct (resolve_props env options o1 context) as [r1|m]; simpl; [|done].
    by destruct (resolve_props env options o2 context).
Qed.

Lemma resolve_props_keys env options o context es :
  resolve_props env options o context = Ok es -> keys es = keys o.
Proof.
  revert es. induction o as [|[k x] o IH]; intros es; simpl.
  - by intros [= <-].
  - destruct (resolveValue env options x (key_context context k)) as [r|m]; simpl; [|done].
    destruct (resolve_props env options o context) as [r1|m]; simpl; [|done].
    intros [= <-]. simpl. f_equal. by apply IH.
Qed.

Lemma kept_app {A} (o1 o2 : list (string * A)) : kept (o1 ++ o2) = kept o1 ++ kept o2.
Proof. unfold kept. apply List.filter_app. Qed.

Lemma kept_kept {A} (o : list (string * A)) : kept (kept o) = kept o.
Proof.
  unfold kept. induction o as [|[k v] o IH]; simpl; [done|].
  destruct (is_proto k) eqn:Hk; simpl; [done|]. by rewrite Hk, IH.
Qed.

Lemma kept_entry_map f o : kept (entry_map f o) = entry_map f (kept o).
Proof.
  unfold kept, entry_map. induction o as [|[k v] o IH]; simpl; [done|].
  destruct (is_proto k); simpl; by rewrite IH.
Qed.

Lemma enum_ordered_kept {A} (o : list (string * A)) :
  enum_ordered (keys o) = true -> enum_ordered (keys (kept o)) = true.
Proof. intros H. rewrite keys_kept. by apply enum_ordered_filter. Qed.

Lemma resolve_plug env options c : forall context c' v,
  resolve_ctx env options c context = Ok c' ->
  js_value (plug c v) = true ->
  ctx_kept c = true ->
  resolveValue env options (plug c v) context
  = result_map (plug c') (resolveValue env options v (hole_context c context)).
Proof.
  induction c as [|before c IH after|before key c IH after];
    intros context c' v Hc Hjs Hkept; simpl in Hc.
  - injection Hc as <-. simpl. by destruct (resolveValue env options v context).
  - destruct (resolve_items env options before context 0) as [bs|] eqn:Hb; [|done].
    simpl in Hc.
    destruct (resolve_ctx env options c _) as [c''|] eqn:Hi; [|done]. simpl in Hc.
    destruct (resolve_items env options after context _) as [afs|] eqn:Ha; [|done].
    injection Hc as <-. simpl plug. rewrite resolveValue_arr, resolve_items_app, Hb.
    simpl. simpl in Hjs. rewrite forallb_app in Hjs.
    apply andb_true_iff in Hjs as [_ Hjs]. simpl in Hjs.
    apply andb_true_iff in Hjs as [Hjs _].
    rewrite (IH _ _ _ Hi Hjs Hkept).
    destruct (resolveValue env options v _) as [v'|m]; simpl; [|done].
    by rewrite Ha.
  - destruct (resolve_props env options before context) as [bs|] eqn:Hb; [|done].
    simpl in Hc.
    destruct (resolve_ctx env options c _) as [c''|] eqn:Hi; [|done]. simpl in Hc.
    destruct (resolve_props env options after context) as [afs|] eqn:Ha; [|done].
    injection Hc as <-. simpl plug. rewrite resolveValue_obj, resolve_props_app, Hb.
    simpl. simpl in Hjs. apply andb_true_iff in Hjs as [Hord Hjs].
    simpl in Hkept. apply andb_true_iff in Hkept as [Hkey Hkept].
    rewrite forallb_app in Hjs.
    apply andb_true_iff in Hjs as [_ Hjs]. simpl in Hjs.
    apply andb_true_iff in Hjs as [Hjs _].
    rewrite (IH _ _ _ Hi Hjs Hkept).
    destruct (resolveValue env options v _) as [v'|m]; simpl; [|done].
    rewrite Ha. simpl. rewrite obj_of_entries_ordered.
    + rewrite kept_app. unfold kept at 2. simpl. by rewrite Hkey.
    + rewrite keys_app in *. simpl in *.
      by rewrite (resolve_props_keys _ _ _ _ _ Hb), (resolve_props_keys _ _ _ _ _ Ha).
Qed.

Lemma resolve_plug_value_ok env options c : forall context c' v v',
  resolve_ctx env options c context = Ok c' ->
  resolveValue env options v (hole_context c context) = Ok v' ->
  exists r, resolveValue env options (plug c v) context = Ok r.
Proof.
  induction c as [|before c IH after|before key c IH after];
    intros context c' v v' Hc Hv; simpl in Hc.
  - eauto.
  - destruct (resolve_items env options before context 0) as [bs|] eqn:Hb; [|done].
    simpl in Hc.
    destruct (resolve_ctx env options c _) as [c''|] eqn:Hi; [|done]. simpl in Hc.
    destruct (resolve_items env options after context _) as [afs|] eqn:Ha; [|done].
    simpl plug. rewrite resolveValue_arr, resolve_items_app, Hb. simpl.
    destruct (IH _ _ _ _ Hi Hv) as [r ->]. simpl. rewrite Ha. simpl. eauto.
  - destruct (resolve_props env options before context) as [bs|] eqn:Hb; [|done].
    simpl in Hc.
    destruct (resolve_ctx env options c _) as [c''|] eqn:Hi; [|done]. simpl in Hc.
    destruct (resolve_props env options after context) as [afs|] eqn:Ha; [|done].
    simpl plug. rewrite resolveValue_obj, resolve_props_app, Hb. simpl.
    destruct (IH _ _ _ _ Hi Hv) as [r ->]. simpl. rewrite Ha. simpl. eauto.
Qed.

Lemma resolve_plug_blocked env options c : forall context v v' m,
  resolve_ctx env options c context = Throw m ->
  resolveValue env options v (hole_context c context) = Ok v' ->
  resolveValue env options (plug c v) context = Throw m.
Proof.
  induction c as [|before c IH after|before key c IH after];
    intros context v v' m Hc Hv; simpl in Hc.
  - done.
  - simpl plug. rewrite resolveValue_arr, resolve_items_app.
    destruct (resolve_items env options before context 0) as [bs|mb] eqn:Hb; simpl in *;
      [|congruence].
    destruct (resolve_ctx env options c _) as [c''|mc] eqn:Hi; simpl in Hc.
    + destruct (resolve_plug_value_ok env options c _ _ _ _ Hi Hv) as [r ->]. simpl.
      destruct (resolve_items env options after context _) as [afs|ma] eqn:Ha;
        simpl in *; [done|congruence].
    + injection Hc as <-. by rewrite (IH _ _ _ _ Hi Hv).
  - simpl plug. rewrite resolveValue_obj, resolve_props_app.
    destruct (resolve_props env options before context) as [bs|mb] eqn:Hb; simpl in *;
      [|congruence].
    destruct (resolve_ctx env options c _) as [c''|mc] eqn:Hi; simpl in Hc.
    + destruct (resolve_plug_value_ok env options c _ _ _ _ Hi Hv) as [r ->]. simpl.
      destruct (resolve_props env options after context) as [afs|ma] eqn:Ha;
        simpl in *; [done|congruence].
    + injection Hc as <-. by rewrite (IH _ _ _ _ Hi Hv).
Qed.

Lemma resolve_plug_throws env options c : forall context v m,
  resolveValue env options v (hole_context c context) = Throw m ->
  exists m', resolveValue env options (plug c v) context = Throw m'.
Proof.
  induction c as [|before c IH after|before key c IH after]; intros context v m Hv.
  - eauto.
  - simpl plug. rewrite resolveValue_arr, resolve_items_app.
    destruct (resolve_items env options before context 0) as [bs|mb]; simpl; [|eauto].
    destruct (IH _ _ _ Hv) as [m' ->]. simpl. eauto.
  - simpl plug. rewrite resolveValue_obj, resolve_props_app.
    destruct (resolve_props env options before context) as [bs|mb]; simpl; [|eauto].
    destruct (IH _ _ _ Hv) as [m' ->]. simpl. eauto.
Qed.

Lemma resolve_plug_throw_exact env options c : forall context c' v m,
  resolve_ctx env options c context = Ok c' ->
  resolveValue env options v (hole_context c context) = Throw m ->
  resolveValue env options (plug c v) context = Throw m.
Proof.
  induction c as [|before c IH after|before key c IH after];
    intros context c' v m Hc Hv; simpl in Hc.
  - done.
  - destruct (resolve_items env options before context 0) as [bs|] eqn:Hb; [|done].
    simpl in Hc.
    destruct (resolve_ctx env options c _) as [c''|] eqn:Hi; [|done].
    simpl plug. rewrite resolveValue_arr, resolve_items_app, Hb. simpl.
    by rewrite (IH _ _ _ _ Hi Hv).
  - destruct (resolve_props env options before context) as [bs|] eqn:Hb; [|done].
    simpl in Hc.
    destruct (resolve_ctx env options c _) as [c''|] eqn:Hi; [|done].
    simpl plug. rewrite resolveValue_obj, resolve_props_app, Hb. simpl.
    by rewrite (IH _ _ _ _ Hi Hv).
Qed.

Lemma resolve_reference env raw context options :
  resolveStringRef env ("env://" +:+ raw) context options
  = if String.eqb (trim raw) "" then Throw (invalid_empty_ref context)
    else match env (trim raw) with
         | None => if truthy_flag (allowMissingEnv options)
                   then Ok ("env://" +:+ raw)
                   else Throw (missing_env (trim raw) context)
         | Some value => Ok value
         end.
Proof.
  unfold resolveStringRef.
  assert (startsWith "env://" ("env://" +:+ raw) = true) as ->.
  { unfold startsWith. simpl. by destruct raw. }
  reflexivity.
Qed.

(** C4, amended (strict resolution).  Let a server definition hold the
    string [env://raw] at some place, with a non-blank key, and let
    resolution be strict.  If the variable is unset, [resolveServerSecrets]
    throws and returns no value.  When every other reference of the
    definition resolves, the error thrown is the plain error with the
    message [Missing environment variable "KEY" referenced at PATH.], where
    PATH is the dotted path of the place under [mcp.servers.<id>]; and if
    the variable is set, the result is the definition with the value of
    the variable at that place and the rest resolved (for a place under no
    key [__proto__]).  When another reference fails, the resolution throws
    its error although the variable is set. *)
Theorem strict_resolution_total :
  forall (env : Env) (options : SecretResolveOptions) (serverId raw : string) (c : jctx),
    let key := trim raw in
    let server := plug c (JStr ("env://" +:+ raw)) in
    let root := "mcp.servers." +:+ serverId in
    truthy_flag (allowMissingEnv options) = false ->
    key <> "" ->
    (env key = None ->
       exists message, resolveServerSecrets env serverId server options = Throw message)
    /\ (forall c', resolve_ctx env options c root = Ok c' ->
          (env key = None ->
             resolveServerSecrets env serverId server options
             = Throw ("Missing environment variable " +:+ dquote +:+ key +:+ dquote
                      +:+ " referenced at " +:+ hole_context c root +:+ "."))
          /\ (forall value, env key = Some value ->
                js_value server = true -> ctx_kept c = true ->
                resolveServerSecrets env serverId server options
                = Ok (plug c' (JStr value))))
    /\ (forall message value,
          resolve_ctx env options c root = Throw message ->
          env key = Some value ->
          resolveServerSecrets env serverId server options = Throw message).
Proof.
  intros env options serverId raw c key server root Hstrict Hkey.
  assert (String.eqb (trim raw) "" = false) as Hne by (by apply String.eqb_neq).
  subst key server root. unfold resolveServerSecrets.
  split; [|split; [intros c' Hc; split|]].
  - intros Hunset. eapply resolve_plug_throws. simpl.
    rewrite resolve_reference, Hne, Hunset, Hstrict. reflexivity.
  - intros Hunset. apply (resolve_plug_throw_exact _ _ _ _ _ _ _ Hc). simpl.
    rewrite resolve_reference, Hne, Hunset, Hstrict. reflexivity.
  - intros value Hset Hjs Hkept. rewrite (resolve_plug _ _ _ _ _ _ Hc Hjs Hkept). simpl.
    by rewrite resolve_reference, Hne, Hset.
  - intros message value Hc Hset. apply (resolve_plug_blocked _ _ _ _ _ (JStr value) _ Hc).
    simpl. by rewrite resolve_reference, Hne, Hset.
Qed.

(** ** Non-strict resolution *)

Lemma resolveStringRef_nonstrict env s context options :
  truthy_flag (allowMissingEnv options) = true ->
  negb (startsWith "env://" s && String.eqb (trim (slice 6 s)) "") = true ->
  resolveStringRef env s context options = Ok (substitute_string env s).
Proof.
  intros Hopt Hne. unfold resolveStringRef, substitute_string.
  destruct (startsWith "env://" s); simpl in *; [|reflexivity].
  apply negb_true_iff in Hne. rewrite Hne, Hopt.
  by destruct (env (trim (slice 6 s))).
Qed.

Lemma resolveValue_nonstrict env options v :
  truthy_flag (allowMissingEnv options) = true ->
  forall context, js_value v = true -> no_empty_ref v = true ->
  resolveValue env options v context = Ok (substitute env v).
Proof.
  intros Hopt.
  induction v as [|b|n|s|l IH|o IH] using json_induction; intros context Hjs Hne;
    try reflexivity.
  - simpl. by rewrite resolveStringRef_nonstrict.
  - rewrite resolveValue_arr. simpl in *.
    assert (forall i, resolve_items env options l context i = Ok (map (substitute env) l))
      as ->; [|done].
    induction IH as [|x l Hx _ IHl]; intros i; simpl in *; [done|].
    apply andb_true_iff in Hjs as [Hjx Hjs]. apply andb_true_iff in Hne as [Hnx Hne].
    by rewrite Hx, IHl.
  - rewrite resolveValue_obj. simpl in *. apply andb_true_iff in Hjs as [Hord Hjs].
    assert (resolve_props env options o context
            = Ok (map (fun kv => (fst kv, substitute env (snd kv))) o)) as ->.
    { clear Hord. induction IH as [|[k x] o Hx _ IHl]; simpl in *; [done|].
      apply andb_true_iff in Hjs as [Hjx Hjs]. apply andb_true_iff in Hne as [Hnx Hne].
      by rewrite Hx, IHl. }
    simpl. rewrite obj_of_entries_ordered; [done|].
    fold (entry_map (substitute env) o). by rewrite keys_entry_map.
Qed.

Lemma Forall_kept {A} (P : string * A -> Prop) o : Forall P o -> Forall P (kept o).
Proof.
  unfold kept. induction 1 as [|[k v] o Hx _ IH]; simpl; [done|].
  destruct (is_proto k); simpl; [done|]. by constructor.
Qed.

Lemma forallb_kept {A} (p : string * A -> bool) o :
  forallb p o = true -> forallb p (kept o) = true.
Proof.
  unfold kept. induction o as [|[k v] o IH]; simpl; [done|].
  intros [Hx Ho]%andb_true_iff. destruct (is_proto k); simpl; [auto|].
  by rewrite Hx, IH.
Qed.

Lemma substitute_string_idem env s :
  (forall k value, env k = Some value -> startsWith "env://" value = false) ->
  substitute_string env (substitute_string env s) = substitute_string env s.
Proof.
  intros Hplain. unfold substitute_string at 2 3.
  destruct (startsWith "env://" s) eqn:Hs.
  - destruct (env (trim (slice 6 s))) as [value|] eqn:Hk; simpl.
    + unfold substitute_string. by rewrite (Hplain _ _ Hk).
    + unfold substitute_string. by rewrite Hs, Hk.
  - unfold substitute_string. by rewrite Hs.
Qed.

Lemma substitute_obj env o :
  substitute env (JObj o) = JObj (entry_map (substitute env) (kept o)).
Proof. simpl. f_equal. fold (entry_map (substitute env) o). apply kept_entry_map. Qed.

Lemma entry_map_ext_Forall (f g : json -> json) o :
  Forall (fun kv => f (snd kv) = g (snd kv)) o -> entry_map f o = entry_map g o.
Proof.
  unfold entry_map. induction 1 as [|[k x] o Hx _ IH]; simpl in *; [done|].
  by rewrite Hx, IH.
Qed.

Lemma entry_map_map f g o : entry_map f (entry_map g o) = entry_map (fun x => f (g x)) o.
Proof. unfold entry_map. rewrite map_map. by apply map_ext. Qed.

Lemma substitute_idem env v :
  (forall k value, env k = Some value -> startsWith "env://" value = false) ->
  substitute env (substitute env v) = substitute env v.
Proof.
  intros Hplain. induction v as [|b|n|s|l IH|o IH] using json_induction;
    try reflexivity.
  - simpl. by rewrite substitute_string_idem.
  - simpl. f_equal. rewrite map_map. induction IH as [|x l Hx _ IHl]; simpl; [done|].
    by rewrite Hx, IHl.
  - rewrite !substitute_obj. f_equal.
    rewrite kept_entry_map, kept_kept, entry_map_map.
    apply entry_map_ext_Forall. by apply Forall_kept.
Qed.

Lemma js_value_substitute env v :
  js_value v = true -> js_value (substitute env v) = true.
Proof.
  induction v as [|b|n|s|l IH|o IH] using json_induction; try done.
  - simpl. induction IH as [|x l Hx _ IHl]; simpl; [done|].
    intros [H1 H2]%andb_true_iff. by rewrite Hx, IHl.
  - rewrite substitute_obj. simpl. intros [Hord Hjs]%andb_true_iff.
    rewrite keys_entry_map, enum_ordered_kept by done. simpl.
    apply forallb_kept in Hjs. apply Forall_kept in IH. unfold entry_map.
    induction IH as [|[k x] o' Hx _ IHl]; simpl in *; [done|].
    apply andb_true_iff in Hjs as [H1 H2]. by rewrite Hx, IHl.
Qed.

Lemma no_empty_ref_substitute env v :
  (forall k value, env k = Some value -> startsWith "env://" value = false) ->
  no_empty_ref v = true -> no_empty_ref (substitute env v) = true.
Proof.
  intros Hplain. induction v as [|b|n|s|l IH|o IH] using json_induction;
    try done.
  - simpl. intros Hne. unfold substitute_string.
    destruct (startsWith "env://" s) eqn:Hs; simpl in *.
    + destruct (env (trim (slice 6 s))) as [value|] eqn:Hk; simpl.
      * by rewrite (Hplain _ _ Hk).
      * by rewrite Hs.
    + by rewrite Hs.
  - simpl. induction IH as [|x l Hx _ IHl]; simpl; [done|].
    intros [H1 H2]%andb_true_iff. by rewrite Hx, IHl.
  - rewrite substitute_obj. simpl. intros Hne.
    apply forallb_kept in Hne. apply Forall_kept in IH. unfold entry_map.
    induction IH as [|[k x] o' Hx _ IHl]; simpl in *; [done|].
    apply andb_true_iff in Hne as [H1 H2]. by rewrite Hx, IHl.
Qed.

(** C5, as stated, fails *)
Lemma nonstrict_resolution_resolves :
  resolveServerSecrets chained_env "s" (chained_spec "env://A") nonstrict
  = Ok (chained_spec "env://B")
  /\ chained_spec "env://B" <> chained_spec "env://A"
  /\ resolveServerSecrets chained_env "s" (chained_spec "env://B") nonstrict
     = Ok (chained_spec "x")
  /\ chained_spec "x" <> chained_spec "env://B".
Proof. repeat split; try reflexivity; discriminate. Qed.

(** C5, amended (non-strict resolution).  With [allowMissingEnv] set,
    [resolveServerSecrets] succeeds on every value without an empty
    reference and returns [substitute env server]: a reference to an unset
    variable is left as it is, a reference to a set variable is replaced
    by its value.  Resolving the result again changes nothing when no
    variable holds a text that starts with [env://].  The result of an
    object has the keys of the object in their order, a key [__proto__]
    left out, each with the result of its value. *)
Theorem nonstrict_resolution :
  forall (env : Env) (options : SecretResolveOptions) (serverId : string) (server : json),
    truthy_flag (allowMissingEnv options) = true ->
    js_value server = true ->
    no_empty_ref server = true ->
    resolveServerSecrets env serverId server options = Ok (substitute env server)
    /\ (forall raw, env (trim raw) = None ->
          substitute env (JStr ("env://" +:+ raw)) = JStr ("env://" +:+ raw))
    /\ (forall raw value, env (trim raw) = Some value ->
          substitute env (JStr ("env://" +:+ raw)) = JStr value)
    /\ ((forall k value, env k = Some value -> startsWith "env://" value = false) ->
          resolveServerSecrets env serverId (substitute env server) options
          = Ok (substitute env server))
    /\ (forall o, exists o',
          substitute env (JObj o) = JObj o'
          /\ keys o' = List.filter (fun k => negb (is_proto k)) (keys o)
          /\ forall k, k ∈ keys o' -> obj_get k o' = Some (substitute env (obj_at k o))).
Proof.
  intros env options serverId server Hopt Hjs Hne. unfold resolveServerSecrets.
  split; [by apply resolveValue_nonstrict|].
  assert (forall raw, substitute env (JStr ("env://" +:+ raw))
                      = JStr (default ("env://" +:+ raw) (env (trim raw)))) as Href.
  { intros raw. simpl. unfold substitute_string.
    assert (startsWith "env://" ("env://" +:+ raw) = true) as ->; [|done].
    unfold startsWith. simpl. by destruct raw. }
  split; [|split; [|split]].
  - intros raw Hk. by rewrite Href, Hk.
  - intros raw value Hk. by rewrite Href, Hk.
  - intros Hplain. rewrite resolveValue_nonstrict; try done.
    + by rewrite substitute_idem.
    + by apply js_value_substitute.
    + by apply no_empty_ref_substitute.
  - intros o. eexists. split; [reflexivity|]. split.
    + rewrite keys_kept. unfold keys. by rewrite map_map.
    + intros k Hk. rewrite keys_kept in Hk. unfold keys in Hk.
      rewrite map_map in Hk. simpl in Hk.
      apply list_elem_of_In, filter_In in Hk. destruct Hk as [Hin Hk].
      rewrite obj_get_kept. apply negb_true_iff in Hk. rewrite Hk.
      unfold obj_at. clear Hk. induction o as [|[k0 v0] o IH]; simpl in *; [done|].
      destruct (String.eqb_spec k k0) as [->|Hdiff]; [done|].
      apply IH. destruct Hin as [->|Hin]; [done|exact Hin].
Qed.

Lemma includes_elem id l : includes id l = true <-> id ∈ l.
Proof.
  unfold includes. rewrite existsb_exists. split.
  - intros (x & Hin & Heq). apply String.eqb_eq in Heq as ->. by apply list_elem_of_In.
  - intros Hin. exists id. split; [by apply list_elem_of_In|apply String.eqb_refl].
Qed.

(** C3 (enablement precedence).  [serverEnabledForAgent] is the
    precedence of the specification: agent disabled, then deny list, then
    a non-empty allow list that leaves the id out, then the item's own
    [enabledIn] flag being [false], otherwise on.  A denied id is off
    even with [enabledIn] true for the agent; with [allow = [y]] every
    other id is off.  [skillEnabledForAgent] follows the same precedence
    with [skillsEnabled], [allowSkills] and [denySkills]. *)
Theorem enablement_precedence :
  (forall serverId server a target,
     serverEnabledForAgent serverId server a target
     = spec_enablement (is_false (enabled target))
                       (listed_in (deny target) serverId)
                       (excluded_by_allow (allow target) serverId)
                       (json_is_false (server_enabledIn server a)))
  /\ (forall x server a target,
        deny target = Some [x] ->
        server_enabledIn server a = Some (JBool true) ->
        serverEnabledForAgent x server a target = false)
  /\ (forall y id server a target,
        allow target = Some [y] -> id <> y ->
        serverEnabledForAgent id server a target = false)
  /\ (forall skillId skill a target,
        skillEnabledForAgent skillId skill a target
        = spec_enablement (is_false (enabled target) || is_false (skillsEnabled target))
                          (listed_in (denySkills target) skillId)
                          (excluded_by_allow (allowSkills target) skillId)
                          (is_false (skill_flag skill a)))
  /\ (forall x skill a target,
        denySkills target = Some [x] ->
        skill_flag skill a = Some true ->
        skillEnabledForAgent x skill a target = false)
  /\ (forall y id skill a target,
        allowSkills target = Some [y] -> id <> y ->
        skillEnabledForAgent id skill a target = false).
Proof.
  repeat split.
  - intros. unfold serverEnabledForAgent, spec_enablement.
    by repeat match goal with |- context [if ?b then _ else _] => destruct b end.
  - intros x server a target Hd _. unfold serverEnabledForAgent.
    rewrite Hd. simpl. rewrite String.eqb_refl. simpl.
    by repeat match goal with |- context [if ?b then _ else _] => destruct b end.
  - intros y id server a target Ha Hne. unfold serverEnabledForAgent.
    rewrite Ha. simpl. apply String.eqb_neq in Hne as ->. simpl.
    by destruct (is_false (enabled target)).
  - intros. unfold skillEnabledForAgent, spec_enablement.
    by repeat match goal with |- context [if ?b then _ else _] => destruct b end.
  - intros x skill a target Hd _. unfold skillEnabledForAgent.
    rewrite Hd. simpl. rewrite String.eqb_refl. simpl.
    by repeat match goal with |- context [if ?b then _ else _] => destruct b end.
  - intros y id skill a target Ha Hne. unfold skillEnabledForAgent.
    rewrite Ha. simpl. apply String.eqb_neq in Hne as ->. simpl.
    by destruct (is_false (enabled target) || is_false (skillsEnabled target)).
Qed.

(** ** The monad *)

Lemma bind_eq {A B} (m : M A) (f : A -> M B) w :
  bind m f w = match m w with
               | (Ok a, w') => f a w'
               | (Throw e, w') => (Throw e, w')
               end.
Proof. reflexivity. Qed.

Section Emits.
Variable Q : Origin -> list (Origin * Op) -> Prop.
Hypothesis Q_nil : forall o, Q o [].
Hypothesis Q_app : forall o c1 c2, Q o c1 -> Q o c2 -> Q o (c1 ++ c2).

Lemma emits_pure {A} (m : M A) : (forall w, (m w).2 = w) -> emits Q m.
Proof.
  intros Hm w. exists []. rewrite Hm, app_nil_r. auto.
Qed.

Lemma emits_ret {A} (a : A) : emits Q (ret a).
Proof. by apply emits_pure. Qed.

Lemma emits_throw {A} e : emits Q (@throw A e).
Proof. by apply emits_pure. Qed.

Lemma emits_lift {A} (r : result A) : emits Q (lift r).
Proof. by apply emits_pure. Qed.

Lemma emits_access p : emits Q (sys_access p).
Proof. by apply emits_pure. Qed.

Lemma emits_readFile p : emits Q (sys_readFile p).
Proof.
  apply emits_pure. intros w. unfold sys_readFile. by destruct (files (disk w) !! p).
Qed.

Lemma emits_bind {A B} (m : M A) (f : A -> M B) :
  emits Q m -> (forall a, emits Q (f a)) -> emits Q (bind m f).
Proof.
  intros Hm Hf w. destruct (Hm w) as (c1 & Ht1 & Hd1 & Ho1 & Hq1).
  rewrite bind_eq. destruct (m w) as [[a|e] w1]; simpl in *.
  - destruct (Hf a w1) as (c2 & Ht2 & Hd2 & Ho2 & Hq2). exists (c1 ++ c2).
    rewrite Ht2, Ht1, Hd2, Hd1, Ho2, Ho1, <- app_assoc, map_app.
    unfold replay. rewrite fold_left_app. rewrite Ho1 in Hq2. auto.
  - exists c1. auto.
Qed.

Lemma emits_try_catch {A} (m : M A) (h : string -> M A) :
  emits Q m -> (forall e, emits Q (h e)) -> emits Q (try_catch m h).
Proof.
  intros Hm Hh w. destruct (Hm w) as (c1 & Ht1 & Hd1 & Ho1 & Hq1).
  unfold try_catch. destruct (m w) as [[a|e] w1]; simpl in *.
  - exists c1. auto.
  - destruct (Hh e w1) as (c2 & Ht2 & Hd2 & Ho2 & Hq2). exists (c1 ++ c2).
    rewrite Ht2, Ht1, Hd2, Hd1, Ho2, Ho1, <- app_assoc, map_app.
    unfold replay. rewrite fold_left_app. rewrite Ho1 in Hq2. auto.
Qed.

Lemma emits_for_each {A} (l : list A) (body : A -> M unit) :
  (forall x, emits Q (body x)) -> emits Q (for_each l body).
Proof.
  intros Hb. induction l as [|x l IH]; simpl.
  - apply emits_ret.
  - apply emits_bind; auto.
Qed.

Lemma emits_map_M {A B} (f : A -> M B) (l : list A) :
  (forall x, emits Q (f x)) -> emits Q (map_M f l).
Proof.
  intros Hf. induction l as [|x l IH]; simpl.
  - apply emits_ret.
  - apply emits_bind; [auto|]. intros y. apply emits_bind; [auto|].
    intros ys. apply emits_ret.
Qed.

Lemma emits_date_now `{Platform} : emits Q date_now.
Proof. intros w. exists []. simpl. rewrite app_nil_r. auto. Qed.
End Emits.

Lemma emits_weaken {A} (Q Q' : Origin -> list (Origin * Op) -> Prop) (m : M A) :
  (forall o c, Q o c -> Q' o c) -> emits Q m -> emits Q' m.
Proof.
  intros HQ Hm w. destruct (Hm w) as (c & ? & ? & ? & ?). exists c. auto.
Qed.

Lemma emits_with_origin {A} (Q Q' : Origin -> list (Origin * Op) -> Prop)
    (o : Origin) (m : M A) :
  (forall o' c, Q o c -> Q' o' c) -> emits Q m -> emits Q' (with_origin o m).
Proof.
  intros HQ Hm w. destruct (Hm (set_origin o w)) as (c & Ht & Hd & Ho & Hq).
  unfold with_origin. destruct (m (set_origin o w)) as [r w1]. simpl in *.
  exists c. auto.
Qed.

Lemma emits_issue (Q : Origin -> list (Origin * Op) -> Prop) op :
  (forall o, Q o [(o, op)]) -> emits Q (issue op).
Proof. intros HQ w. exists [(origin w, op)]. simpl. auto. Qed.

(** ** What the file utilities emit *)

Section Leaves.
Context `{Platform}.

Lemma atomic_ops_app l1 l2 : atomic_ops l1 -> atomic_ops l2 -> atomic_ops (l1 ++ l2).
Proof. induction 1; simpl; auto using atomic_ops. Qed.

Lemma Q_leaf_nil o : Q_leaf o [].
Proof. split; constructor. Qed.

Lemma Q_leaf_app o c1 c2 : Q_leaf o c1 -> Q_leaf o c2 -> Q_leaf o (c1 ++ c2).
Proof.
  intros [L1 A1] [L2 A2]. split.
  - by apply Forall_app.
  - rewrite map_app. by apply atomic_ops_app.
Qed.

Lemma Q_leaf_one o op : (forall p c, op <> OpWriteFile p c) -> Q_leaf o [(o, op)].
Proof.
  intros Hop. split.
  - by repeat constructor.
  - simpl. apply atomic_other; [done|constructor].
Qed.

Lemma Q_atomic_app o c1 c2 : Q_atomic o c1 -> Q_atomic o c2 -> Q_atomic o (c1 ++ c2).
Proof. unfold Q_atomic. rewrite map_app. apply atomic_ops_app. Qed.

Lemma Q_not_app a o c1 c2 : Q_not a o c1 -> Q_not a o c2 -> Q_not a o (c1 ++ c2).
Proof. unfold Q_not. intros. by apply Forall_app. Qed.

Lemma leaf_mkdir dir : emits Q_leaf (sys_mkdir_recursive dir).
Proof. apply emits_issue. intros o. by apply Q_leaf_one. Qed.

Lemma leaf_rename a b : emits Q_leaf (sys_rename a b).
Proof.
  intros w. unfold sys_rename. destruct (files (disk w) !! a).
  - apply emits_issue. intros o. by apply Q_leaf_one.
  - exists []. simpl. rewrite app_nil_r. auto using Q_leaf_nil.
Qed.

Lemma leaf_copyFile a b : emits Q_leaf (sys_copyFile a b).
Proof.
  intros w. unfold sys_copyFile. destruct (files (disk w) !! a).
  - apply emits_issue. intros o. by apply Q_leaf_one.
  - exists []. simpl. rewrite app_nil_r. auto using Q_leaf_nil.
Qed.

Lemma leaf_rm p : emits Q_leaf (sys_rm_force p).
Proof.
  intros w. unfold sys_rm_force. destruct (is_dir (disk w) p).
  - exists []. simpl. rewrite app_nil_r. auto using Q_leaf_nil.
  - apply emits_issue. intros o. by apply Q_leaf_one.
Qed.

Lemma writeTextAtomic_run filePath content w :
  writeTextAtomic filePath content w
  = (Ok tt,
     {| disk := replay (map snd (atomic_write_calls (origin w) filePath content
                                   (clock_ms (ticks w)))) (disk w);
        trace := trace w ++ atomic_write_calls (origin w) filePath content
                              (clock_ms (ticks w));
        ticks := S (ticks w);
        origin := origin w |}).
Proof.
  unfold writeTextAtomic, ensureParentDir, sys_mkdir_recursive, sys_writeFile,
    sys_rename, date_now, issue, bind.
  simpl. rewrite lookup_insert_eq. simpl. unfold atomic_write_calls.
  by rewrite <- !app_assoc.
Qed.

Lemma leaf_writeTextAtomic filePath content : emits Q_leaf (writeTextAtomic filePath content).
Proof.
  intros w. rewrite writeTextAtomic_run. simpl.
  exists (atomic_write_calls (origin w) filePath content (clock_ms (ticks w))).
  repeat split; try done.
  - by repeat constructor.
  - simpl. apply atomic_other; [done|]. apply atomic_write. constructor.
Qed.
End Leaves.

Section LeafCombinators.
Context `{Platform}.

Lemma leaf_ret {A} (a : A) : emits Q_leaf (ret a).
Proof. apply emits_ret, Q_leaf_nil. Qed.

Lemma leaf_throw {A} e : emits Q_leaf (@throw A e).
Proof. apply emits_throw, Q_leaf_nil. Qed.

Lemma leaf_lift {A} (r : result A) : emits Q_leaf (lift r).
Proof. apply emits_lift, Q_leaf_nil. Qed.

Lemma leaf_access p : emits Q_leaf (sys_access p).
Proof. apply emits_access, Q_leaf_nil. Qed.

Lemma leaf_readFile p : emits Q_leaf (sys_readFile p).
Proof. apply emits_readFile, Q_leaf_nil. Qed.

Lemma leaf_bind {A B} (m : M A) (f : A -> M B) :
  emits Q_leaf m -> (forall a, emits Q_leaf (f a)) -> emits Q_leaf (bind m f).
Proof. apply emits_bind, Q_leaf_app. Qed.

Lemma leaf_try_catch {A} (m : M A) (h : string -> M A) :
  emits Q_leaf m -> (forall e, emits Q_leaf (h e)) -> emits Q_leaf (try_catch m h).
Proof. apply emits_try_catch, Q_leaf_app. Qed.

Lemma leaf_for_each {A} (l : list A) (body : A -> M unit) :
  (forall x, emits Q_leaf (body x)) -> emits Q_leaf (for_each l body).
Proof. apply emits_for_each; [apply Q_leaf_nil|apply Q_leaf_app]. Qed.
End LeafCombinators.

Create HintDb leaf discriminated.
#[global] Hint Resolve leaf_ret leaf_throw leaf_lift leaf_access leaf_readFile
  leaf_mkdir leaf_rename leaf_copyFile leaf_rm leaf_writeTextAtomic : leaf.

Ltac emits_leaf :=
  repeat first
    [ solve [auto 1 with leaf nocore]
    | apply leaf_bind; [|intros ?]
    | apply leaf_for_each; intros ?
    | apply leaf_try_catch; [|intros ?]
    | match goal with
      | |- emits _ (if ?b then _ else _) => destruct b
      | |- emits _ (match ?x with _ => _ end) => destruct x
      | |- emits _ (let _ := _ in _) => cbv zeta
      end ].

Section LeafPrograms.
Context `{Platform}.

Lemma leaf_pathExists p : emits Q_leaf (pathExists p).
Proof. unfold pathExists. emits_leaf. Qed.
Hint Resolve leaf_pathExists : leaf.

Lemma leaf_pathExists_value v : emits Q_leaf (pathExists_value v).
Proof. unfold pathExists_value. emits_leaf. Qed.
Hint Resolve leaf_pathExists_value : leaf.

Lemma leaf_ensureParentDir p : emits Q_leaf (ensureParentDir p).
Proof. unfold ensureParentDir. emits_leaf. Qed.
Hint Resolve leaf_ensureParentDir : leaf.

Lemma leaf_readTextIfExists p : emits Q_leaf (readTextIfExists p).
Proof. unfold readTextIfExists. emits_leaf. Qed.
Hint Resolve leaf_readTextIfExists : leaf.

Lemma leaf_copyIfExists a b : emits Q_leaf (copyIfExists a b).
Proof. unfold copyIfExists. emits_leaf. Qed.
Hint Resolve leaf_copyIfExists : leaf.

Lemma leaf_backupSkillsState plan snapDir : emits Q_leaf (backupSkillsState plan snapDir).
Proof. unfold backupSkillsState. emits_leaf. Qed.

Lemma leaf_applySkills plan : emits Q_leaf (applySkills plan).
Proof. unfold applySkills. emits_leaf. Qed.

Lemma leaf_restoreMcp entry : emits Q_leaf (restoreMcp entry).
Proof. unfold restoreMcp. emits_leaf. Qed.

Lemma leaf_remove_listed dir items : emits Q_leaf (remove_listed dir items).
Proof. unfold remove_listed. emits_leaf. Qed.
Hint Resolve leaf_remove_listed : leaf.

Lemma leaf_removeManaged dir : emits Q_leaf (removeManagedSkillsFromCurrentManifest dir).
Proof. unfold removeManagedSkillsFromCurrentManifest. emits_leaf. Qed.
Hint Resolve leaf_removeManaged : leaf.

Lemma leaf_restoreSkills entry : emits Q_leaf (restoreSkills entry).
Proof. unfold restoreSkills. emits_leaf. Qed.
End LeafPrograms.

#[global] Hint Resolve leaf_pathExists leaf_pathExists_value leaf_ensureParentDir
  leaf_readTextIfExists leaf_copyIfExists leaf_backupSkillsState leaf_applySkills
  leaf_restoreMcp leaf_remove_listed leaf_removeManaged leaf_restoreSkills : leaf.

Section Sync.
Context `{Platform}.

Lemma Q_atomic_nil o : Q_atomic o [].
Proof. constructor. Qed.

Lemma atomic_with_origin {A} o (m : M A) :
  emits Q_leaf m -> emits Q_atomic (with_origin o m).
Proof. apply emits_with_origin. by intros o' c [_ Hc]. Qed.

Lemma atomic_apply_one snapDir plan : emits Q_atomic (apply_one snapDir plan).
Proof.
  unfold apply_one. cbv zeta.
  apply emits_bind; [apply Q_atomic_app| |intros backup].
  { apply atomic_with_origin. emits_leaf. }
  apply emits_bind; [apply Q_atomic_app| |intros skBackup].
  { apply atomic_with_origin. emits_leaf. }
  apply emits_bind; [apply Q_atomic_app| |intros _].
  { apply atomic_with_origin. emits_leaf. }
  apply emits_bind; [apply Q_atomic_app| |intros _].
  { apply atomic_with_origin. emits_leaf. }
  apply emits_ret, Q_atomic_nil.
Qed.

Lemma atomic_apply_all snapDir plans : emits Q_atomic (map_M (apply_one snapDir) plans).
Proof.
  apply emits_map_M; [apply Q_atomic_nil|apply Q_atomic_app|].
  intros plan. apply atomic_apply_one.
Qed.

Lemma date_iso_run w : date_iso w = (Ok (iso_string (clock_ms (ticks w))), tick w).
Proof. reflexivity. Qed.

Lemma makeSnapshotId_run w :
  makeSnapshotId w = (Ok (replace_colon_dot (iso_string (clock_ms (ticks w)))), tick w).
Proof. reflexivity. Qed.

Lemma with_origin_issue o op w :
  with_origin o (issue op) w
  = (Ok tt, {| disk := apply_op op (disk w); trace := trace w ++ [(o, op)];
               ticks := ticks w; origin := origin w |}).
Proof. reflexivity. Qed.

(** [applyPlan], step by step. *)
Lemma applyPlan_eq plans w :
  let id := replace_colon_dot (iso_string (clock_ms (ticks w))) in
  let snapDir := path_join getSnapshotRoot id in
  let w1 := after_call 1 OSnapshot
              (OpMkdir (ancestors (String.length snapDir) snapDir)) w in
  applyPlan plans w
  = match map_M (apply_one snapDir) plans w1 with
    | (Ok done, w2) =>
        let createdAt := iso_string (clock_ms (ticks w2)) in
        (Ok {| snapshotId := id; snapshotDir := snapDir; applied := done |},
         after_call 1 OSnapshot
           (OpWriteFile (meta_path snapDir)
              (format_json (meta_value id createdAt done))) w2)
    | (Throw e, w2) => (Throw e, w2)
    end.
Proof.
  intros id snapDir w1. unfold applyPlan.
  rewrite bind_eq, makeSnapshotId_run. fold id. fold snapDir.
  rewrite bind_eq. unfold sys_mkdir_recursive. rewrite with_origin_issue.
  rewrite bind_eq.
  change {| disk := apply_op (OpMkdir (ancestors (String.length snapDir) snapDir))
                      (disk (tick w));
            trace := trace (tick w)
                     ++ [(OSnapshot, OpMkdir (ancestors (String.length snapDir) snapDir))];
            ticks := ticks (tick w); origin := origin (tick w) |} with w1.
  destruct (map_M (apply_one snapDir) plans w1) as [[done|e] w2]; [|reflexivity].
  rewrite bind_eq, date_iso_run. rewrite bind_eq. unfold sys_writeFile.
  rewrite with_origin_issue. reflexivity.
Qed.
End Sync.

(** ** The planner only reads *)

Section ReadOnly.
Context `{Platform}.

Lemma readonly_ret {A} (a : A) : readonly (ret a).
Proof. done. Qed.

Lemma readonly_throw {A} e : readonly (@throw A e).
Proof. done. Qed.

Lemma readonly_lift {A} (r : result A) : readonly (lift r).
Proof. done. Qed.

Lemma readonly_bind {A B} (m : M A) (f : A -> M B) :
  readonly m -> (forall a, readonly (f a)) -> readonly (bind m f).
Proof.
  intros Hm Hf w. rewrite bind_eq. specialize (Hm w).
  destruct (m w) as [[a|e] w1]; simpl in *; subst; [apply Hf|done].
Qed.

Lemma readonly_map_M {A B} (f : A -> M B) (l : list A) :
  (forall x, x ∈ l -> readonly (f x)) -> readonly (map_M f l).
Proof.
  induction l as [|x l IH]; intros Hf; simpl; [apply readonly_ret|].
  apply readonly_bind; [apply Hf; by left|]. intros y.
  apply readonly_bind; [|intros ys; apply readonly_ret].
  apply IH. intros z Hz. apply Hf. by right.
Qed.

Lemma readonly_pathExists p : readonly (pathExists p).
Proof. done. Qed.

Lemma readonly_readFile p : readonly (sys_readFile p).
Proof. intros w. unfold sys_readFile. by destruct (files (disk w) !! p). Qed.

Lemma readonly_readTextIfExists p : readonly (readTextIfExists p).
Proof.
  unfold readTextIfExists. apply readonly_bind; [apply readonly_pathExists|].
  intros [|]; simpl; [|apply readonly_ret].
  apply readonly_bind; [apply readonly_readFile|]. intros c. apply readonly_ret.
Qed.

Lemma readonly_load_with parse what empty p : readonly (load_with parse what empty p).
Proof.
  unfold load_with. apply readonly_bind; [apply readonly_readTextIfExists|].
  intros [text|]; [|apply readonly_ret].
  destruct (String.eqb (trim text) ""); [apply readonly_ret|].
  destruct (parse text); [apply readonly_ret|apply readonly_throw].
Qed.

Lemma readonly_fixed_path d target : readonly (fixed_path d target).
Proof. unfold fixed_path. destruct (output_override target); apply readonly_ret. Qed.

Lemma readonly_adapter adapter :
  adapter ∈ getAdapters ->
  (forall target, readonly (resolvePath adapter target))
  /\ (forall p, readonly (load adapter p)).
Proof.
  unfold getAdapters. rewrite !elem_of_cons, elem_of_nil.
  intros [->|[->|[->|[->|[->|[]]]]]]; simpl; split;
    auto using readonly_load_with, readonly_fixed_path.
  intros target. unfold claude_resolvePath. destruct (output_override target).
  - apply readonly_ret.
  - apply readonly_bind; [apply readonly_pathExists|]. intros [|]; apply readonly_ret.
Qed.

Lemma readonly_readManagedSkills dir : readonly (readManagedSkills dir).
Proof.
  unfold readManagedSkills. apply readonly_bind; [apply readonly_readTextIfExists|].
  intros [raw|]; [|apply readonly_ret].
  destruct (String.eqb (trim raw) ""); [apply readonly_ret|].
  destruct (JSON_parse raw) as [parsed|e]; [|apply readonly_throw].
  apply readonly_bind; [apply readonly_lift|]. intros items.
  apply readonly_bind; [|intros byId; apply readonly_ret].
  generalize (@nil (string * SkillMaterialized)).
  induction items as [|item items IH]; intros acc; [apply readonly_ret|].
  apply readonly_bind; [apply readonly_lift|]. intros name.
  apply readonly_bind; [apply readonly_readTextIfExists|]. intros c. apply IH.
Qed.

Lemma readonly_loadSkillContent id skill dir : readonly (loadSkillContent id skill dir).
Proof.
  unfold loadSkillContent. destruct (content skill); [apply readonly_ret|].
  destruct (sourcePath skill) as [source|]; [|apply readonly_throw].
  destruct (String.eqb source ""); [apply readonly_throw|].
  apply readonly_bind; [apply readonly_pathExists|].
  intros [|]; simpl; [apply readonly_readFile|apply readonly_throw].
Qed.

Lemma readonly_buildDesiredSkills config a target dir :
  readonly (buildDesiredSkills config a target dir).
Proof.
  unfold buildDesiredSkills. generalize (@nil (string * SkillMaterialized)).
  induction (default [] (skills_items config)) as [|[id skill] items IH]; intros acc;
    [apply readonly_ret|].
  destruct (negb (skillEnabledForAgent id skill a target)); [apply IH|].
  apply readonly_bind; [apply readonly_loadSkillContent|]. intros text. apply IH.
Qed.

Lemma readonly_plan_for config options dir adapter :
  adapter ∈ getAdapters -> readonly (plan_for config options dir adapter).
Proof.
  intros Hin. destruct (readonly_adapter adapter Hin) as [Hpath Hload].
  unfold plan_for.
  apply readonly_bind; [apply Hpath|]. intros targetPath.
  apply readonly_bind; [apply Hload|]. intros loaded.
  apply readonly_bind; [apply readonly_lift|]. intros current.
  apply readonly_bind; [apply readonly_lift|]. intros desired.
  apply readonly_bind; [apply readonly_readManagedSkills|]. intros st.
  apply readonly_bind; [apply readonly_buildDesiredSkills|]. intros sk.
  apply readonly_ret.
Qed.

(** C8 (the planner only reads).  For every configuration, every choice
    of options and every machine state, [buildPlan] leaves the machine as
    it found it: the files, the directories, and the record of mutating
    system calls, to which it adds none. *)
Theorem buildPlan_reads_only (config : UnifiedConfig) (options : BuildPlanOptions)
    (w : World) :
  (buildPlan config options w).2 = w.
Proof.
  apply (readonly_map_M (plan_for config options _)). intros adapter Hin.
  apply readonly_plan_for. apply list_elem_of_In in Hin.
  apply filter_In in Hin as [Hin _]. by apply list_elem_of_In.
Qed.
End ReadOnly.

(** ** Running a computation *)

Lemma bind_ok {A B} (m : M A) (f : A -> M B) w b w' :
  bind m f w = (Ok b, w') ->
  exists a w1, m w = (Ok a, w1) /\ f a w1 = (Ok b, w').
Proof.
  rewrite bind_eq. destruct (m w) as [[a|e] w1]; [|done]. eauto.
Qed.

Lemma emits_since {A} Q (m : M A) w :
  emits Q m ->
  trace (m w).2 = trace w ++ since w (m w).2
  /\ disk (m w).2 = replay (map snd (since w (m w).2)) (disk w)
  /\ origin (m w).2 = origin w
  /\ Q (origin w) (since w (m w).2).
Proof.
  intros Hm. destruct (Hm w) as (c & Ht & Hd & Ho & Hq).
  assert (since w (m w).2 = c) as ->; [|done].
  unfold since. rewrite Ht. by rewrite drop_app_length.
Qed.

Lemma since_app w w1 w2 c1 c2 :
  trace w1 = trace w ++ c1 -> trace w2 = trace w1 ++ c2 -> since w w2 = c1 ++ c2.
Proof.
  intros H1 H2. unfold since. rewrite H2, H1, <- app_assoc. by rewrite drop_app_length.
Qed.

Lemma since_refl_app w w' c : trace w' = trace w ++ c -> since w w' = c.
Proof. intros Ht. unfold since. rewrite Ht. by rewrite drop_app_length. Qed.

(** ** Frames *)

Lemma apply_op_frame op s x :
  ~ touches op x -> files (apply_op op s) !! x = files s !! x.
Proof.
  destruct op as [ds|p c|a b|a b|p]; simpl; intros Hx; try done.
  - by rewrite lookup_insert_ne.
  - destruct (files s !! a); [|done]. simpl.
    rewrite lookup_insert_ne by tauto. rewrite lookup_delete_ne by tauto. done.
  - destruct (files s !! a); [|done]. simpl. by rewrite lookup_insert_ne.
  - by rewrite lookup_delete_ne.
Qed.

Lemma replay_frame ops s x :
  Forall (fun op => ~ touches op x) ops -> files (replay ops s) !! x = files s !! x.
Proof.
  revert s. induction ops as [|op ops IH]; intros s Hall; simpl; [done|].
  apply Forall_cons in Hall as [Hop Hall]. unfold replay in IH. rewrite IH by done.
  by apply apply_op_frame.
Qed.

Lemma touches_paths op p : touches op p <-> p ∈ op_paths op.
Proof.
  destruct op; simpl; rewrite ?elem_of_cons, ?elem_of_nil; naive_solver.
Qed.

Lemma isolated_file_isolated `{Platform} a P B calls :
  isolated_file a P B calls -> isolated a P B calls.
Proof.
  unfold isolated_file, isolated. intros Hall. eapply Forall_impl; [exact Hall|].
  intros e He. simpl in He. rewrite Forall_forall in He.
  split; intros Ht%touches_paths.
  - by apply (He _ Ht).
  - by apply (He _ Ht).
Qed.

Lemma isolated_app a P B c1 c2 :
  isolated a P B (c1 ++ c2) <-> isolated a P B c1 /\ isolated a P B c2.
Proof. unfold isolated. apply Forall_app. Qed.

Lemma isolated_foreign a P B calls :
  isolated a P B calls -> Forall (fun e => fst e <> OMcp a) calls ->
  Forall (fun op => ~ touches op P) (map snd calls)
  /\ Forall (fun op => ~ touches op B) (map snd calls).
Proof.
  unfold isolated. intros Hiso Hfor. rewrite !Forall_map.
  rewrite Forall_forall in Hiso. rewrite Forall_forall in Hfor.
  split; apply Forall_forall; intros e He Ht;
    destruct (Hiso e He) as [HP HB]; specialize (Hfor e He).
  - auto.
  - apply HB in Ht. subst e. by apply Hfor.
Qed.

Lemma foreign_frame {A} a P B (m : M A) w :
  emits (Q_not (OMcp a)) m ->
  isolated a P B (since w (m w).2) ->
  files (disk (m w).2) !! P = files (disk w) !! P
  /\ files (disk (m w).2) !! B = files (disk w) !! B.
Proof.
  intros Hm Hiso. destruct (emits_since _ m w Hm) as (_ & Hd & _ & Hq).
  destruct (isolated_foreign _ _ _ _ Hiso Hq) as [HP HB].
  rewrite Hd. split; by apply replay_frame.
Qed.

(** ** Steps taken for other agents *)

Section Foreign.
Context `{Platform}.
Variable a : string.

Lemma Q_not_nil o : Q_not (OMcp a) o [].
Proof. constructor. Qed.

Lemma foreign_with_origin {A} o (m : M A) :
  o <> OMcp a -> emits Q_leaf m -> emits (Q_not (OMcp a)) (with_origin o m).
Proof.
  intros Ho. apply emits_with_origin. intros o' c [Hl _].
  unfold Q_not. eapply Forall_impl; [exact Hl|]. simpl. by intros e ->.
Qed.

Lemma foreign_apply_one snapDir q :
  agent_name (plan_agent q) <> a -> emits (Q_not (OMcp a)) (apply_one snapDir q).
Proof.
  intros Hq. unfold apply_one. cbv zeta.
  apply emits_bind; [apply Q_not_app| |intros backup].
  { apply foreign_with_origin; [congruence|emits_leaf]. }
  apply emits_bind; [apply Q_not_app| |intros skBackup].
  { apply foreign_with_origin; [done|emits_leaf]. }
  apply emits_bind; [apply Q_not_app| |intros _].
  { apply foreign_with_origin; [congruence|emits_leaf]. }
  apply emits_bind; [apply Q_not_app| |intros _].
  { apply foreign_with_origin; [done|emits_leaf]. }
  apply emits_ret, Q_not_nil.
Qed.

Lemma foreign_apply_loop snapDir plans :
  Forall (fun q => agent_name (plan_agent q) <> a) plans ->
  emits (Q_not (OMcp a)) (map_M (apply_one snapDir) plans).
Proof.
  induction 1 as [|q plans Hq _ IH]; simpl.
  - apply emits_ret, Q_not_nil.
  - apply emits_bind; [apply Q_not_app|by apply foreign_apply_one|]. intros y.
    apply emits_bind; [apply Q_not_app|exact IH|]. intros ys.
    apply emits_ret, Q_not_nil.
Qed.

Lemma foreign_restore_entry item :
  template_opt (prop "agent" item) <> a -> emits (Q_not (OMcp a)) (restore_entry item).
Proof.
  intros Hne. unfold restore_entry. cbv zeta.
  apply emits_bind; [apply Q_not_app| |intros _].
  - apply foreign_with_origin; [congruence|apply leaf_restoreMcp].
  - apply foreign_with_origin; [done|apply leaf_restoreSkills].
Qed.

Lemma foreign_restore_loop items :
  Forall (fun item => template_opt (prop "agent" item) <> a) items ->
  emits (Q_not (OMcp a)) (for_each items restore_entry).
Proof.
  induction 1 as [|item items Hi _ IH]; simpl.
  - apply emits_ret, Q_not_nil.
  - apply emits_bind; [apply Q_not_app|by apply foreign_restore_entry|].
    intros _. exact IH.
Qed.
End Foreign.

Lemma emits_run {A} Q (m : M A) w r w' :
  emits Q m -> m w = (r, w') ->
  exists c, trace w' = trace w ++ c
            /\ disk w' = replay (map snd c) (disk w)
            /\ origin w' = origin w
            /\ Q (origin w) c.
Proof. intros Hm Hr. specialize (Hm w). by rewrite Hr in Hm. Qed.

Lemma foreign_frame_run {A} a P B (m : M A) w r w' c :
  emits (Q_not (OMcp a)) m -> m w = (r, w') ->
  trace w' = trace w ++ c -> isolated a P B c ->
  files (disk w') !! P = files (disk w) !! P
  /\ files (disk w') !! B = files (disk w) !! B.
Proof.
  intros Hm Hr Ht Hiso. pose proof (foreign_frame a P B m w Hm) as Hf.
  rewrite Hr in Hf. simpl in Hf. apply Hf. by rewrite (since_refl_app _ _ _ Ht).
Qed.

(** ** The steps taken for the agent itself *)

Section Own.
Context `{Platform}.

Lemma with_origin_run {A} o (m : M A) w r w' :
  with_origin o m w = (r, w') ->
  exists w1, m (set_origin o w) = (r, w1) /\ w' = set_origin (origin w) w1.
Proof.
  unfold with_origin. destruct (m (set_origin o w)) as [r1 w1].
  intros [= <- <-]. eauto.
Qed.

Lemma copyIfExists_run a b w r w' :
  copyIfExists a b w = (Ok r, w') ->
  match files (disk w) !! a with
  | Some F => r = true /\ files (disk w') = <[b := F]> (files (disk w))
  | None => r = false /\ w' = w
  end.
Proof.
  unfold copyIfExists, pathExists, sys_access, ensureParentDir, sys_mkdir_recursive,
    sys_copyFile, issue, bind, ret, is_file. simpl.
  destruct (files (disk w) !! a) as [F|] eqn:Ha; simpl.
  - rewrite Ha. simpl. intros [= <- <-]. done.
  - destruct (is_dir (disk w) a); simpl; [by rewrite Ha|]. by intros [= <- <-].
Qed.

Lemma native_write_run o P content w :
  with_origin o (ensureParentDir P;; writeTextAtomic P content) w
  = (Ok tt,
     {| disk := replay (map snd (native_write_calls o P content (clock_ms (ticks w))))
                       (disk w);
        trace := trace w ++ native_write_calls o P content (clock_ms (ticks w));
        ticks := S (ticks w);
        origin := origin w |}).
Proof.
  unfold with_origin. rewrite bind_eq.
  unfold ensureParentDir at 1. unfold sys_mkdir_recursive, issue.
  rewrite writeTextAtomic_run. simpl. unfold set_origin. simpl.
  unfold native_write_calls. by rewrite <- app_assoc.
Qed.

Lemma native_write_files o P content now s :
  files (replay (map snd (native_write_calls o P content now)) s)
  = <[P := content]> (delete (temp_path P process_pid now)
                        (<[temp_path P process_pid now := content]> (files s))).
Proof. simpl. by rewrite lookup_insert_eq. Qed.
End Own.

Section OwnApply.
Context `{Platform}.
Variables (snapDir : string) (p : AgentPlan).
Let a := agent_name (plan_agent p).
Let P := plan_path p.
Let B := mcp_backup_path snapDir p.

Lemma own_apply_one w e w' :
  apply_one snapDir p w = (Ok e, w') ->
  hasDiff (diff p) = true ->
  isolated a P B (since w w') ->
  files (disk w') !! P = Some (serialized p)
  /\ (forall F, files (disk w) !! P = Some F -> files (disk w') !! B = Some F)
  /\ ap_agent e = a /\ mcpPath e = P /\ mcpChanged e = true
  /\ mcpBackupPath e = match files (disk w) !! P with
                       | Some _ => Some B
                       | None => None
                       end
  /\ mcpExistedBefore e = fileExists p.
Proof.
  unfold apply_one. cbv zeta. fold a P B. intros Hrun Hch Hiso. rewrite Hch in Hrun.
  apply bind_ok in Hrun as (backup & w1 & H1 & Hrun).
  apply bind_ok in Hrun as (skBackup & w2 & H2 & Hrun).
  apply bind_ok in Hrun as ([] & w3 & H3 & Hrun).
  apply bind_ok in Hrun as ([] & w4 & H4 & Hrun).
  injection Hrun as <- <-. simpl.
  (* the calls of the four steps *)
  assert (emits Q_leaf (backupMade ← copyIfExists P B;
                        ret (if backupMade then Some B else None))) as E1
    by emits_leaf.
  destruct (emits_run _ _ _ _ _ (atomic_with_origin (OMcp a) _ E1) H1)
    as (c1 & T1 & _ & O1 & _).
  assert (emits (Q_not (OMcp a))
            (with_origin (OSkills a)
               (if hasSkillsDiff p
                then d ← backupSkillsState p snapDir; ret (Some d)
                else ret None))) as E2
    by (apply foreign_with_origin; [done|emits_leaf]).
  destruct (emits_run _ _ _ _ _ E2 H2) as (c2 & T2 & _ & O2 & _).
  rewrite native_write_run in H3. injection H3 as H3.
  set (c3 := native_write_calls (OMcp a) P (serialized p) (clock_ms (ticks w2))) in *.
  assert (trace w3 = trace w2 ++ c3) as T3 by (by rewrite <- H3).
  assert (disk w3 = replay (map snd c3) (disk w2)) as D3 by (by rewrite <- H3).
  assert (emits (Q_not (OMcp a))
            (with_origin (OSkills a)
               (if hasSkillsDiff p then applySkills p else ret ()))) as E4
    by (apply foreign_with_origin; [done|emits_leaf]).
  destruct (emits_run _ _ _ _ _ E4 H4) as (c4 & T4 & _ & O4 & _).
  assert (since w w4 = c1 ++ c2 ++ c3 ++ c4) as Hs.
  { apply since_refl_app. rewrite T4, T3, T2, T1. by rewrite <- !app_assoc. }
  rewrite Hs in Hiso. apply isolated_app in Hiso as [I1 Hiso].
  apply isolated_app in Hiso as [I2 Hiso]. apply isolated_app in Hiso as [I3 I4].
  (* the temporary file is neither the native file nor its backup *)
  set (tmp := temp_path P process_pid (clock_ms (ticks w2))) in *.
  assert (tmp <> B /\ P <> B) as [HtB HPB].
  { unfold isolated, c3, native_write_calls, atomic_write_calls in I3.
    apply Forall_cons in I3 as [_ I3]. apply Forall_cons in I3 as [_ I3].
    apply Forall_cons in I3 as [[_ Hw] I3]. apply Forall_cons in I3 as [[_ Hr] _].
    simpl in Hw, Hr. fold tmp in Hw, Hr. split.
    - intros Heq. by specialize (Hw Heq).
    - intros Heq. by specialize (Hr (or_intror Heq)). }
  (* step by step *)
  apply with_origin_run in H1 as (w1' & H1 & ->).
  apply bind_ok in H1 as (made & w1'' & Hcopy & Hret).
  injection Hret as <- <-. apply copyIfExists_run in Hcopy. simpl in Hcopy.
  destruct (foreign_frame_run a P B _ _ _ _ _ E2 H2 T2 I2) as [F2P F2B].
  destruct (foreign_frame_run a P B _ _ _ _ _ E4 H4 T4 I4) as [F4P F4B].
  assert (files (disk w3) !! P = Some (serialized p)) as H3P.
  { rewrite D3. unfold c3. rewrite native_write_files.
    by rewrite lookup_insert_eq. }
  assert (files (disk w3) !! B = files (disk w2) !! B) as H3B.
  { rewrite D3. unfold c3. rewrite native_write_files. fold tmp.
    rewrite lookup_insert_ne by done. rewrite lookup_delete_ne by done.
    by rewrite lookup_insert_ne. }
  rewrite F4P, H3P, F4B, H3B, F2B. simpl in *.
  destruct (files (disk w) !! P) as [F|] eqn:HP.
  - destruct Hcopy as [-> Hfiles]. repeat split; try done.
    intros F' [= <-]. rewrite Hfiles. by rewrite lookup_insert_eq.
  - destruct Hcopy as [-> ->]. repeat split; done.
Qed.
End OwnApply.

Section Loops.
Context `{Platform}.

Lemma apply_one_entry snapDir q w e w' :
  apply_one snapDir q w = (Ok e, w') ->
  ap_agent e = agent_name (plan_agent q) /\ mcpExistedBefore e = fileExists q.
Proof.
  unfold apply_one. cbv zeta. intros Hrun.
  apply bind_ok in Hrun as (backup & w1 & H1 & Hrun).
  apply bind_ok in Hrun as (skBackup & w2 & H2 & Hrun).
  apply bind_ok in Hrun as ([] & w3 & H3 & Hrun).
  apply bind_ok in Hrun as ([] & w4 & H4 & Hrun).
  by injection Hrun as <- <-.
Qed.

Lemma map_M_cons_ok {A B} (f : A -> M B) x l w ys w' :
  map_M f (x :: l) w = (Ok ys, w') ->
  exists y w1 ys', f x w = (Ok y, w1) /\ map_M f l w1 = (Ok ys', w') /\ ys = y :: ys'.
Proof.
  simpl. intros Hrun. apply bind_ok in Hrun as (y & w1 & Hx & Hrun).
  apply bind_ok in Hrun as (ys' & w2 & Hl & Hrun). injection Hrun as <- <-. eauto 6.
Qed.

Lemma apply_loop_agents snapDir plans : forall w done w',
  map_M (apply_one snapDir) plans w = (Ok done, w') ->
  map ap_agent done = map (fun q => agent_name (plan_agent q)) plans
  /\ map mcpExistedBefore done = map fileExists plans.
Proof.
  induction plans as [|q plans IH]; intros w done w' Hrun.
  - by injection Hrun as <- <-.
  - apply map_M_cons_ok in Hrun as (y & w1 & ys & Hq & Hl & ->).
    apply apply_one_entry in Hq as [Hy1 Hy2]. apply IH in Hl as [Hl1 Hl2].
    simpl. by rewrite Hy1, Hy2, Hl1, Hl2.
Qed.

Variables (snapDir : string) (p : AgentPlan).
Let a := agent_name (plan_agent p).
Let P := plan_path p.
Let B := mcp_backup_path snapDir p.

Lemma apply_loop_own plans : forall w done w',
  map_M (apply_one snapDir) plans w = (Ok done, w') ->
  p ∈ plans ->
  NoDup (map (fun q => agent_name (plan_agent q)) plans) ->
  hasDiff (diff p) = true ->
  isolated a P B (since w w') ->
  files (disk w') !! P = Some (serialized p)
  /\ (forall F, files (disk w) !! P = Some F -> files (disk w') !! B = Some F)
  /\ exists e, e ∈ done
       /\ ap_agent e = a /\ mcpPath e = P /\ mcpChanged e = true
       /\ mcpBackupPath e = match files (disk w) !! P with
                            | Some _ => Some B
                            | None => None
                            end
       /\ mcpExistedBefore e = fileExists p.
Proof.
  induction plans as [|q plans IH]; intros w done w' Hrun Hin Hnd Hch Hiso.
  - by apply elem_of_nil in Hin.
  - apply map_M_cons_ok in Hrun as (y & w1 & ys & Hq & Hl & ->).
    simpl in Hnd. apply NoDup_cons in Hnd as [Hq_fresh Hnd].
    destruct (emits_run _ _ _ _ _ (atomic_apply_one snapDir q) Hq)
      as (cq & Tq & _ & _ & _).
    destruct (emits_run _ _ _ _ _ (atomic_apply_all snapDir plans) Hl)
      as (cl & Tl & _ & _ & _).
    rewrite (since_app _ _ _ _ _ Tq Tl) in Hiso.
    apply isolated_app in Hiso as [Iq Il].
    apply elem_of_cons in Hin as [Heq|Hin].
    + subst q.
      destruct (own_apply_one snapDir p w y w1 Hq Hch) as (HP & HB & Hy).
      { by rewrite (since_refl_app _ _ _ Tq). }
      assert (Forall (fun q => agent_name (plan_agent q) <> a) plans) as Hothers.
      { apply Forall_forall. intros q Hq' Heq. apply Hq_fresh. fold a. rewrite <- Heq.
        apply list_elem_of_fmap. by exists q. }
      destruct (foreign_frame_run a P B _ _ _ _ _
                  (foreign_apply_loop a snapDir plans Hothers) Hl Tl Il) as [FP FB].
      fold P B in HP, HB. rewrite FP, FB. split; [done|]. split; [done|].
      exists y. split; [by left|done].
    + assert (agent_name (plan_agent q) <> a) as Hq_other.
      { intros Heq. apply Hq_fresh. rewrite Heq. apply list_elem_of_fmap. by exists p. }
      destruct (foreign_frame_run a P B _ _ _ _ _
                  (foreign_apply_one a snapDir q Hq_other) Hq Tq Iq) as [FP FB].
      destruct (IH w1 ys w' Hl Hin Hnd Hch) as (HP & HB & e & He & Hfacts).
      { by rewrite (since_refl_app _ _ _ Tl). }
      rewrite FP in HB, Hfacts. split; [done|]. split; [done|].
      exists e. split; [by right|done].
Qed.
End Loops.

Section Restore.
Context `{Platform}.

Lemma entry_agent e : template_opt (prop "agent" (applied_value e)) = ap_agent e.
Proof. reflexivity. Qed.

Lemma for_each_cons_ok {A} (body : A -> M unit) x l w r w' :
  for_each (x :: l) body w = (Ok r, w') ->
  exists w1, body x w = (Ok tt, w1) /\ for_each l body w1 = (Ok r, w').
Proof.
  simpl. intros Hrun. apply bind_ok in Hrun as ([] & w1 & Hx & Hl). eauto.
Qed.

Lemma pathExists_file p w :
  is_Some (files (disk w) !! p) -> pathExists p w = (Ok true, w).
Proof.
  intros Hp. unfold pathExists, sys_access, is_file.
  by rewrite bool_decide_eq_true_2.
Qed.

(** [restoreMcp] when a backup was taken. *)
Lemma restoreMcp_backup e P B F w r w' :
  mcpChanged e = true -> mcpPath e = P -> mcpBackupPath e = Some B -> B <> "" ->
  files (disk w) !! B = Some F ->
  restoreMcp (applied_value e) w = (Ok r, w') ->
  files (disk w') !! P = Some F.
Proof.
  intros Hch HP HB Hne HF. destruct e as [ag mp ch bk ex sd sc sb sm]. simpl in *.
  subst ch mp bk. unfold restoreMcp. simpl.
  apply String.eqb_neq in Hne. rewrite Hne. simpl.
  intros Hrun. apply bind_ok in Hrun as (restored & w1 & H1 & H2).
  apply bind_ok in H1 as (found & w0 & Hfound & H1).
  rewrite pathExists_file in Hfound by (by rewrite HF).
  injection Hfound as <- <-.
  apply bind_ok in H1 as (bp & wa & Hbp & H1).
  apply bind_ok in H1 as (tp & wb & Htp & H1).
  apply bind_ok in H1 as (made & wc & Hcopy & Hret).
  unfold lift, ret in *. simpl in *. simplify_eq.
  apply copyIfExists_run in Hcopy. rewrite HF in Hcopy. destruct Hcopy as [_ Hfiles].
  rewrite Hfiles. by rewrite lookup_insert_eq.
Qed.

(** [restoreMcp] when there was nothing to back up. *)
Lemma restoreMcp_created e P c w r w' :
  mcpChanged e = true -> mcpPath e = P -> mcpBackupPath e = None ->
  mcpExistedBefore e = false ->
  files (disk w) !! P = Some c ->
  restoreMcp (applied_value e) w = (Ok r, w') ->
  files (disk w') !! P = None.
Proof.
  intros Hch HP HB Hex Hc. destruct e as [ag mp ch bk ex sd sc sb sm]. simpl in *.
  subst ch mp bk ex. unfold restoreMcp. destruct sb; simpl.
  all: intros Hrun; apply bind_ok in Hrun as (restored & w1 & Hres & H2).
  all: unfold ret in Hres; simpl in Hres; simplify_eq.
  all: apply bind_ok in H2 as (found & w0 & Hfound & H2).
  all: rewrite pathExists_file in Hfound by (by rewrite Hc).
  all: injection Hfound as <- <-.
  all: apply bind_ok in H2 as (tp & wb & Htp & H2).
  all: unfold lift in Htp; simpl in Htp; simplify_eq.
  all: unfold sys_rm_force in H2; destruct (is_dir _ _); [done|].
  all: unfold issue in H2; simplify_eq; simpl; by rewrite lookup_delete_eq.
Qed.

Variables (a P B : string) (e : AppliedAgent) (oF : option string) (c : string).
Hypothesis He_agent : ap_agent e = a.
Hypothesis He_path : mcpPath e = P.
Hypothesis He_changed : mcpChanged e = true.
Hypothesis HB_name : B <> "".

Lemma own_restore_entry w w' :
  restore_entry (applied_value e) w = (Ok tt, w') ->
  isolated a P B (since w w') ->
  ready P B e oF c w ->
  files (disk w') !! P = oF.
Proof.
  unfold restore_entry. cbv zeta. rewrite entry_agent, He_agent.
  intros Hrun Hiso [Hc Hrec].
  apply bind_ok in Hrun as ([] & w1 & H1 & H2).
  destruct (emits_run _ _ _ _ _
              (atomic_with_origin (OMcp a) _ (leaf_restoreMcp (applied_value e))) H1)
    as (c1 & T1 & _ & _ & _).
  assert (emits (Q_not (OMcp a))
            (with_origin (OSkills a) (restoreSkills (applied_value e)))) as E2
    by (apply foreign_with_origin; [done|apply leaf_restoreSkills]).
  destruct (emits_run _ _ _ _ _ E2 H2) as (c2 & T2 & _ & _ & _).
  rewrite (since_app _ _ _ _ _ T1 T2) in Hiso. apply isolated_app in Hiso as [_ I2].
  destruct (foreign_frame_run a P B _ _ _ _ _ E2 H2 T2 I2) as [FP _]. rewrite FP.
  apply with_origin_run in H1 as (w1' & H1 & ->). simpl.
  destruct oF as [F|]; destruct Hrec as [Hbk Hx].
  - exact (restoreMcp_backup e P B F (set_origin (OMcp a) w) tt w1'
             He_changed He_path Hbk HB_name Hx H1).
  - exact (restoreMcp_created e P c (set_origin (OMcp a) w) tt w1'
             He_changed He_path Hbk Hx Hc H1).
Qed.

Lemma restore_loop_own entries : forall w w',
  for_each (map applied_value entries) restore_entry w = (Ok tt, w') ->
  e ∈ entries ->
  NoDup (map ap_agent entries) ->
  isolated a P B (since w w') ->
  ready P B e oF c w ->
  files (disk w') !! P = oF.
Proof.
  induction entries as [|x entries IH]; intros w w' Hrun Hin Hnd Hiso Hready.
  - by apply elem_of_nil in Hin.
  - simpl map in Hrun. apply for_each_cons_ok in Hrun as (w1 & Hx & Hl).
    simpl in Hnd. apply NoDup_cons in Hnd as [Hx_fresh Hnd].
    assert (emits Q_atomic (restore_entry (applied_value x))) as Ex.
    { unfold restore_entry. cbv zeta.
      apply emits_bind; [apply Q_atomic_app| |intros _]; apply atomic_with_origin;
        [apply leaf_restoreMcp|apply leaf_restoreSkills]. }
    destruct (emits_run _ _ _ _ _ Ex Hx) as (cx & Tx & _ & _ & _).
    assert (emits Q_atomic (for_each (map applied_value entries) restore_entry)) as El.
    { apply emits_for_each; [apply Q_atomic_nil|apply Q_atomic_app|].
      intros item. unfold restore_entry. cbv zeta.
      apply emits_bind; [apply Q_atomic_app| |intros _]; apply atomic_with_origin;
        [apply leaf_restoreMcp|apply leaf_restoreSkills]. }
    destruct (emits_run _ _ _ _ _ El Hl) as (cl & Tl & _ & _ & _).
    rewrite (since_app _ _ _ _ _ Tx Tl) in Hiso. apply isolated_app in Hiso as [Ix Il].
    apply elem_of_cons in Hin as [Heq|Hin].
    + subst x.
      assert (files (disk w1) !! P = oF) as HP.
      { apply (own_restore_entry w w1 Hx); [|done]. by rewrite (since_refl_app _ _ _ Tx). }
      assert (Forall (fun item => template_opt (prop "agent" item) <> a)
                     (map applied_value entries)) as Hothers.
      { apply Forall_forall. intros item Hitem.
        apply list_elem_of_fmap in Hitem as (y & -> & Hy). rewrite entry_agent.
        intros Heq. apply Hx_fresh. rewrite He_agent, <- Heq.
        apply list_elem_of_fmap. by exists y. }
      destruct (foreign_frame_run a P B _ _ _ _ _
                  (foreign_restore_loop a _ Hothers) Hl Tl Il) as [FP _].
      by rewrite FP.
    + assert (template_opt (prop "agent" (applied_value x)) <> a) as Hx_other.
      { rewrite entry_agent. intros Heq. apply Hx_fresh. rewrite Heq, <- He_agent.
        apply list_elem_of_fmap. by exists e. }
      destruct (foreign_frame_run a P B _ _ _ _ _
                  (foreign_restore_entry a _ Hx_other) Hx Tx Ix) as [FP FB].
      apply (IH w1 w' Hl Hin Hnd); [by rewrite (since_refl_app _ _ _ Tl)|].
      destruct Hready as [Hc Hrec]. split; [by rewrite FP|].
      destruct oF; [|done]. destruct Hrec. split; [done|]. by rewrite FB.
Qed.
End Restore.

Section RoundTrip.
Context `{Platform}.

Lemma readTextIfExists_file p text w :
  files (disk w) !! p = Some text -> readTextIfExists p w = (Ok (Some text), w).
Proof.
  intros Hp. unfold readTextIfExists. rewrite bind_eq.
  rewrite pathExists_file by (by rewrite Hp). simpl.
  rewrite bind_eq. unfold sys_readFile. by rewrite Hp.
Qed.

Lemma rollbackSnapshot_all id text entries w r w' :
  files (disk w) !! meta_path (path_join getSnapshotRoot id) = Some text ->
  result_bind (JSON_parse text) applied_entries = Ok entries ->
  rollbackSnapshot id None w = (Ok r, w') ->
  r = entries /\ for_each entries restore_entry w = (Ok tt, w').
Proof.
  intros Hmeta Hparse. unfold rollbackSnapshot. cbv zeta.
  rewrite bind_eq, (readTextIfExists_file _ _ _ Hmeta).
  destruct (JSON_parse text) as [parsed|err] eqn:Hp; [|done]. simpl in Hparse.
  rewrite bind_eq. unfold lift at 1. rewrite bind_eq. unfold lift at 1. rewrite Hparse.
  rewrite bind_eq. destruct (for_each entries restore_entry w) as [[[]|err] w1]; [|done].
  unfold ret. by intros [= <- <-].
Qed.

(** C1, amended (round trip).  Let [p] be one of the plans, with a
    non-empty server diff, for an agent that occurs once among the plans,
    and let no other step of the sync or of the rollback touch the native
    file of [p] or its backup copy, under any spelling that [path.resolve]
    identifies with their paths ([isolated_file]).  If [applyPlan]
    succeeds, [JSON.parse] reads the entries back from the [meta.json] it
    wrote ([meta_readable]), and [rollbackSnapshot] on the returned id
    succeeds, then the native file holds after the rollback what it held
    before the sync, and does not exist if it did not exist. *)
Theorem sync_rollback_round_trip plans p w0 res w1 restored w2 :
  let a := agent_name (plan_agent p) in
  let P := plan_path p in
  let B := mcp_backup_path (snapshotDir res) p in
  p ∈ plans ->
  NoDup (map (fun q => agent_name (plan_agent q)) plans) ->
  hasDiff (diff p) = true ->
  (fileExists p = true -> is_Some (files (disk w0) !! P)) ->
  B <> "" ->
  applyPlan plans w0 = (Ok res, w1) ->
  meta_readable res w1 ->
  rollbackSnapshot (snapshotId res) None w1 = (Ok restored, w2) ->
  isolated_file a P B (since w0 w2) ->
  files (disk w2) !! P = files (disk w0) !! P.
Proof.
  intros a P B Hin Hnd Hdiff Hfresh HB Happly (text & Hmeta & Hparse) Hroll Hiso.
  apply isolated_file_isolated in Hiso.
  rewrite applyPlan_eq in Happly. cbv zeta in Happly.
  set (id := replace_colon_dot (iso_string (clock_ms (ticks w0)))) in *.
  set (snapDir := path_join getSnapshotRoot id) in *.
  set (mk := OpMkdir (ancestors (String.length snapDir) snapDir)) in *.
  set (wA := after_call 1 OSnapshot mk w0) in *.
  destruct (map_M (apply_one snapDir) plans wA) as [[dn|err] wB] eqn:Hloop; [|done].
  injection Happly as <- <-. simpl in *.
  set (mw := OpWriteFile (meta_path snapDir)
               (format_json (meta_value id (iso_string (clock_ms (ticks wB))) dn))) in *.
  set (w1' := after_call 1 OSnapshot mw wB) in *.
  destruct (rollbackSnapshot_all id text _ w1' _ _ Hmeta Hparse Hroll) as [-> Hrest].
  (* the calls, in order *)
  destruct (emits_run _ _ _ _ _ (atomic_apply_all snapDir plans) Hloop)
    as (cl & Tl & _ & _ & _).
  assert (emits Q_atomic (for_each (map applied_value dn) restore_entry)) as Er.
  { apply emits_for_each; [apply Q_atomic_nil|apply Q_atomic_app|].
    intros item. unfold restore_entry. cbv zeta.
    apply emits_bind; [apply Q_atomic_app| |intros _]; apply atomic_with_origin;
      [apply leaf_restoreMcp|apply leaf_restoreSkills]. }
  destruct (emits_run _ _ _ _ _ Er Hrest) as (cr & Tr & _ & _ & _).
  assert (since w0 w2 = [(OSnapshot, mk)] ++ cl ++ [(OSnapshot, mw)] ++ cr) as Hcalls.
  { unfold since. rewrite Tr. simpl. rewrite Tl. simpl.
    rewrite <- !app_assoc. by rewrite drop_app_length. }
  rewrite Hcalls in Hiso.
  apply isolated_app in Hiso as [_ Hiso]. apply isolated_app in Hiso as [Il Hiso].
  apply isolated_app in Hiso as [Iw Ir].
  (* the sync *)
  destruct (apply_loop_own snapDir p plans wA dn wB Hloop Hin Hnd Hdiff)
    as (HP & HBk & e & He & Hag & Hpath & Hch & Hbk & Hex).
  { by rewrite (since_refl_app _ _ _ Tl). }
  fold P B in HP, HBk, Hpath, Hbk. fold a in Hag. simpl in HBk, Hbk.
  (* the write of meta.json *)
  apply Forall_cons in Iw as [[IwP IwB] _]. simpl in IwP, IwB.
  assert (meta_path snapDir <> P) as HmP by (intros Heq; by specialize (IwP Heq)).
  assert (meta_path snapDir <> B) as HmB by (intros Heq; by specialize (IwB Heq)).
  (* the rollback *)
  apply (restore_loop_own a P B e (files (disk w0) !! P) (serialized p)
           Hag Hpath Hch HB dn w1' w2 Hrest He).
  - assert (map ap_agent dn = map (fun q => agent_name (plan_agent q)) plans) as ->;
      [|done].
    by destruct (apply_loop_agents snapDir plans wA dn wB Hloop).
  - by rewrite (since_refl_app _ _ _ Tr).
  - split.
    + simpl. by rewrite lookup_insert_ne.
    + destruct (files (disk w0) !! P) as [F|] eqn:H0.
      * split; [done|]. simpl. rewrite lookup_insert_ne by done. by apply HBk.
      * split; [done|]. rewrite Hex.
        destruct (fileExists p); [|done]. by destruct (Hfresh eq_refl).
Qed.
End RoundTrip.

(** ** Loading an empty file *)

Section EmptyFile.
Context `{Platform}.

Lemma readTextIfExists_missing p w :
  files (disk w) !! p = None -> p ∉ dirs (disk w) ->
  readTextIfExists p w = (Ok None, w).
Proof.
  intros Hp Hd. unfold readTextIfExists, pathExists, sys_access, is_file, is_dir.
  rewrite bind_eq. rewrite Hp. rewrite bool_decide_eq_false_2 by (by intros [? ?]).
  by rewrite bool_decide_eq_false_2.
Qed.

Lemma load_with_blank parse what empty p text w :
  files (disk w) !! p = Some text -> trim text = "" ->
  load_with parse what empty p w = (Ok {| exists_ := false; data := empty |}, w).
Proof.
  intros Hp Hblank. unfold load_with.
  rewrite bind_eq, (readTextIfExists_file _ _ _ Hp). by rewrite Hblank.
Qed.

Lemma load_with_missing parse what empty p w :
  files (disk w) !! p = None -> p ∉ dirs (disk w) ->
  load_with parse what empty p w = (Ok {| exists_ := false; data := empty |}, w).
Proof.
  intros Hp Hd. unfold load_with.
  by rewrite bind_eq, (readTextIfExists_missing _ _ Hp Hd).
Qed.

Lemma adapter_load adapter :
  adapter ∈ getAdapters ->
  exists parse what, load adapter = load_with parse what (createEmpty adapter).
Proof.
  unfold getAdapters. rewrite !elem_of_cons, elem_of_nil.
  intros [->|[->|[->|[->|[->|[]]]]]]; simpl; eauto.
Qed.

(** C9 (an empty file loads as a missing one).  For each of the five
    adapters, [load] on a file whose text is empty or white space returns
    [exists = false] with the adapter's empty document, the very result it
    returns when the file is missing; the plan made from it has
    [fileExists = false], and the entry [applyPlan] records for that plan
    has [mcpExistedBefore = false]. *)
Theorem blank_file_loads_as_missing (adapter : AgentAdapter) (path text : string)
    (w : World) :
  adapter ∈ getAdapters ->
  files (disk w) !! path = Some text ->
  trim text = "" ->
  load adapter path w = (Ok {| exists_ := false; data := createEmpty adapter |}, w)
  /\ (forall w0, files (disk w0) !! path = None -> path ∉ dirs (disk w0) ->
        (load adapter path w0).1 = (load adapter path w).1)
  /\ (forall config options configDir plan w',
        plan_for config options configDir adapter w = (Ok plan, w') ->
        plan_path plan = path ->
        fileExists plan = false
        /\ currentData plan = createEmpty adapter
        /\ forall snapDir ws entry ws',
             apply_one snapDir plan ws = (Ok entry, ws') ->
             mcpExistedBefore entry = false).
Proof.
  intros Hin Hp Hblank. destruct (adapter_load adapter Hin) as (parse & what & Hload).
  assert (load adapter path w
          = (Ok {| exists_ := false; data := createEmpty adapter |}, w)) as Hrun
    by (rewrite Hload; by apply load_with_blank with text).
  split; [done|]. split.
  - intros w0 H0 Hd. rewrite Hrun, Hload. by rewrite load_with_missing.
  - intros config options configDir plan w' Hplan Hpath.
    destruct (readonly_adapter adapter Hin) as [Hresolve _].
    unfold plan_for in Hplan.
    apply bind_ok in Hplan as (targetPath & w1 & Htarget & Hplan).
    pose proof (Hresolve (target_of config (agent adapter)) w) as Hw.
    rewrite Htarget in Hw. simpl in Hw. subst w1.
    apply bind_ok in Hplan as (loaded & w2 & Hloaded & Hplan).
    apply bind_ok in Hplan as (current & w3 & _ & Hplan).
    apply bind_ok in Hplan as (desired & w4 & _ & Hplan).
    apply bind_ok in Hplan as (st & w5 & _ & Hplan).
    apply bind_ok in Hplan as (sk & w6 & _ & Hplan).
    unfold ret in Hplan. injection Hplan as <- <-. simpl in *. subst targetPath.
    rewrite Hrun in Hloaded. injection Hloaded as <- <-. simpl.
    split; [done|]. split; [done|].
    intros snapDir ws entry ws' Hentry.
    by destruct (apply_one_entry snapDir _ ws entry ws' Hentry) as [_ ->].
Qed.
End EmptyFile.

(** ** Crashes *)


Lemma crash_write_at ops : forall n s p c c',
  ops !! n = Some (OpWriteFile p c) ->
  startsWith c' c = true ->
  crash ops s {| files := <[p := c']> (files (replay (take n ops) s));
                 dirs := dirs (replay (take n ops) s) |}.
Proof.
  induction ops as [|op ops IH]; intros n s p c c' Hn Hc; [done|].
  destruct n as [|n]; simpl in *.
  - injection Hn as ->. by apply crash_writing.
  - apply crash_later. by apply IH with c.
Qed.

Lemma crash_boundary ops s s' P :
  crash ops s s' ->
  Forall (fun op => ~ writes_in_place op P) ops ->
  exists n, files s' !! P = files (replay (take n ops) s) !! P.
Proof.
  induction 1 as [ops s|p c c' ops s Hc|a b c c' ops s Ha Hc|op ops s s' _ IH];
    intros Hall.
  - by exists 0.
  - apply Forall_cons in Hall as [Hp _]. simpl in Hp. exists 0. simpl.
    by rewrite lookup_insert_ne.
  - apply Forall_cons in Hall as [Hp _]. simpl in Hp. exists 0. simpl.
    by rewrite lookup_insert_ne.
  - apply Forall_cons in Hall as [_ Hall]. destruct (IH Hall) as [n Hn].
    by exists (S n).
Qed.

Lemma str_app_length (a b : string) :
  String.length (a +:+ b) = String.length a + String.length b.
Proof. induction a as [|c a IH]; [done|]. rewrite str_app_cons. simpl. by rewrite IH. Qed.

Section Atomic.
Context `{Platform}.

Lemma temp_path_fresh p pid now : temp_path p pid now <> p.
Proof.
  unfold temp_path. intros Heq. apply (f_equal String.length) in Heq.
  rewrite !str_app_length in Heq. simpl in Heq. lia.
Qed.

Lemma crash_atomic_write o filePath content now s s' :
  crash (map snd (atomic_write_calls o filePath content now)) s s' ->
  files s' !! filePath = files s !! filePath
  \/ files s' !! filePath = Some content.
Proof.
  pose proof (temp_path_fresh filePath process_pid now) as Hfresh.
  simpl. intros Hc.
  inversion Hc as [| | |? ? ? ? H1]; subst; [by left|]. simpl in H1.
  inversion H1 as [|? ? ? ? ? Hpre| |? ? ? ? H2]; subst; simpl.
  - by left.
  - left. by rewrite lookup_insert_ne.
  - simpl in H2.
    inversion H2 as [| | |? ? ? ? H3]; subst; simpl.
    + left. by rewrite lookup_insert_ne.
    + simpl in H3. rewrite lookup_insert_eq in H3.
      inversion H3; subst; simpl. right. by rewrite lookup_insert_eq.
Qed.

(** *** The calls of [applyPlan] *)

Lemma Q_sync_nil o : Q_sync o [].
Proof. split; constructor. Qed.

Lemma Q_sync_app o c1 c2 : Q_sync o c1 -> Q_sync o c2 -> Q_sync o (c1 ++ c2).
Proof.
  intros [L1 A1] [L2 A2]. split; [by apply Forall_app|].
  rewrite map_app. by apply atomic_ops_app.
Qed.

Lemma sync_with_origin {A} o (m : M A) :
  agent_call (o, OpRm "") -> emits Q_leaf m -> emits Q_sync (with_origin o m).
Proof.
  intros Ho. apply emits_with_origin. intros o' c [Hl Ha]. split; [|done].
  eapply Forall_impl; [exact Hl|]. intros [o1 op]. simpl. intros ->. exact Ho.
Qed.

Lemma sync_apply_one snapDir plan : emits Q_sync (apply_one snapDir plan).
Proof.
  unfold apply_one. cbv zeta.
  apply emits_bind; [apply Q_sync_app| |intros backup].
  { apply sync_with_origin; [done|emits_leaf]. }
  apply emits_bind; [apply Q_sync_app| |intros skBackup].
  { apply sync_with_origin; [done|emits_leaf]. }
  apply emits_bind; [apply Q_sync_app| |intros _].
  { apply sync_with_origin; [done|emits_leaf]. }
  apply emits_bind; [apply Q_sync_app| |intros _].
  { apply sync_with_origin; [done|emits_leaf]. }
  apply emits_ret, Q_sync_nil.
Qed.

Lemma sync_apply_all snapDir plans : emits Q_sync (map_M (apply_one snapDir) plans).
Proof.
  apply emits_map_M; [apply Q_sync_nil|apply Q_sync_app|].
  intros plan. apply sync_apply_one.
Qed.

End Atomic.

(** ** Which files the sync writes, and how *)

Lemma emits_both {A} (Q1 Q2 : Origin -> list (Origin * Op) -> Prop) (m : M A) :
  emits Q1 m -> emits Q2 m -> emits (fun o c => Q1 o c /\ Q2 o c) m.
Proof.
  intros H1 H2 w. destruct (H1 w) as (c1 & T1 & D1 & O1 & P1).
  destruct (H2 w) as (c2 & T2 & _ & _ & P2).
  assert (c2 = c1) as -> by (rewrite T1 in T2; by apply app_inv_head in T2).
  exists c1. auto.
Qed.

Section Careful.
Context `{Platform}.
Variables written copied : string -> Prop.

Lemma careful_ops_app l1 l2 :
  careful_ops written copied l1 -> careful_ops written copied l2 ->
  careful_ops written copied (l1 ++ l2).
Proof. induction 1; simpl; auto using careful_ops. Qed.

Lemma careful_nil_Q o : Q_careful written copied o [].
Proof. constructor. Qed.

Lemma careful_app_Q o c1 c2 :
  Q_careful written copied o c1 -> Q_careful written copied o c2 ->
  Q_careful written copied o (c1 ++ c2).
Proof. unfold Q_careful. rewrite map_app. apply careful_ops_app. Qed.

Lemma cf_pure {A} (m : M A) : (forall w, (m w).2 = w) -> emits (Q_careful written copied) m.
Proof. apply emits_pure, careful_nil_Q. Qed.

Lemma cf_bind {A B} (m : M A) (f : A -> M B) :
  emits (Q_careful written copied) m -> (forall a, emits (Q_careful written copied) (f a)) -> emits (Q_careful written copied) (bind m f).
Proof. apply emits_bind, careful_app_Q. Qed.

Lemma cf_for_each {A} (l : list A) (body : A -> M unit) :
  (forall x, emits (Q_careful written copied) (body x)) -> emits (Q_careful written copied) (for_each l body).
Proof. apply emits_for_each; [apply careful_nil_Q|apply careful_app_Q]. Qed.

Lemma cf_with_origin {A} o (m : M A) : emits (Q_careful written copied) m -> emits (Q_careful written copied) (with_origin o m).
Proof. by apply emits_with_origin. Qed.

Lemma cf_mkdir dir : emits (Q_careful written copied) (sys_mkdir_recursive dir).
Proof. apply emits_issue. intros o. apply careful_mkdir. constructor. Qed.

Lemma cf_pathExists p : emits (Q_careful written copied) (pathExists p).
Proof. by apply cf_pure. Qed.

Lemma cf_readTextIfExists p : emits (Q_careful written copied) (readTextIfExists p).
Proof. apply cf_pure, readonly_readTextIfExists. Qed.

Lemma cf_copyIfExists a b : copied b -> emits (Q_careful written copied) (copyIfExists a b).
Proof.
  intros Hb. unfold copyIfExists.
  apply cf_bind; [apply cf_pathExists|]. intros e.
  destruct (negb e); [by apply cf_pure|].
  apply cf_bind; [apply cf_mkdir|]. intros _.
  apply cf_bind; [|intros _; by apply cf_pure].
  intros w. unfold sys_copyFile. destruct (files (disk w) !! a).
  - apply emits_issue. intros o. apply careful_copy; [done|constructor].
  - exists []. simpl. rewrite app_nil_r. repeat split; try done. constructor.
Qed.

Lemma cf_rm p : written p -> emits (Q_careful written copied) (sys_rm_force p).
Proof.
  intros Hp w. unfold sys_rm_force. destruct (is_dir (disk w) p).
  - exists []. simpl. rewrite app_nil_r. repeat split; try done. constructor.
  - apply emits_issue. intros o. apply careful_rm; [done|constructor].
Qed.

Lemma cf_writeTextAtomic p content : written p -> emits (Q_careful written copied) (writeTextAtomic p content).
Proof.
  intros Hp w. rewrite writeTextAtomic_run. simpl.
  exists (atomic_write_calls (origin w) p content (clock_ms (ticks w))).
  repeat split; try done. unfold Q_careful. simpl.
  apply careful_mkdir. apply careful_write; [done|constructor].
Qed.

Lemma cf_backupSkillsState plan snapDir :
  (forall p, backup_file snapDir plan p -> written p) ->
  (forall p, backup_file snapDir plan p -> copied p) ->
  emits (Q_careful written copied) (backupSkillsState plan snapDir).
Proof.
  intros Hw Hc. unfold backupSkillsState. cbv zeta.
  apply cf_bind; [apply cf_mkdir|]. intros _.
  apply cf_bind; [apply cf_readTextIfExists|]. intros raw.
  apply cf_bind.
  { destruct raw; [|by apply cf_pure].
    apply cf_writeTextAtomic, Hw. right. by eexists. }
  intros _. apply cf_bind; [|intros _; by apply cf_pure].
  apply cf_for_each. intros skill.
  apply cf_bind; [apply cf_pathExists|]. intros e.
  destruct e; [|by apply cf_pure].
  apply cf_bind; [|intros _; by apply cf_pure].
  apply cf_copyIfExists, Hc. right. by eexists.
Qed.

Lemma cf_applySkills plan :
  (forall p, agent_file plan p -> written p) ->
  emits (Q_careful written copied) (applySkills plan).
Proof.
  intros Hw. unfold applySkills. cbv zeta.
  apply cf_bind; [apply cf_mkdir|]. intros _.
  apply cf_bind.
  { apply cf_for_each. intros [skillId current].
    destruct (obj_has skillId (desiredSkills plan)); [by apply cf_pure|].
    apply cf_bind; [apply cf_pathExists|]. intros e.
    destruct e; [|by apply cf_pure].
    apply cf_rm, Hw. right. by eexists. }
  intros _. apply cf_bind.
  { apply cf_for_each. intros [skillId desired].
    apply cf_writeTextAtomic, Hw. right. by eexists. }
  intros _. apply cf_writeTextAtomic, Hw. right. by eexists.
Qed.

Lemma cf_apply_one snapDir plan :
  (forall p, agent_file plan p \/ backup_file snapDir plan p -> written p) ->
  (forall p, backup_file snapDir plan p -> copied p) ->
  emits (Q_careful written copied) (apply_one snapDir plan).
Proof.
  intros Hw Hc. unfold apply_one. cbv zeta.
  apply cf_bind.
  { apply cf_with_origin. destruct (hasDiff (diff plan)); [|by apply cf_pure].
    apply cf_bind; [|intros made; by apply cf_pure].
    apply cf_copyIfExists, Hc. by left. }
  intros backup. apply cf_bind.
  { apply cf_with_origin. destruct (hasSkillsDiff plan); [|by apply cf_pure].
    apply cf_bind; [|intros d; by apply cf_pure].
    apply cf_backupSkillsState; auto. }
  intros skBackup. apply cf_bind.
  { apply cf_with_origin. destruct (hasDiff (diff plan)); [|by apply cf_pure].
    apply cf_bind; [apply cf_mkdir|]. intros _.
    apply cf_writeTextAtomic, Hw. left. by left. }
  intros _. apply cf_bind; [|intros _; by apply cf_pure].
  apply cf_with_origin. destruct (hasSkillsDiff plan); [|by apply cf_pure].
  apply cf_applySkills. auto.
Qed.
End Careful.

Section CarefulSync.
Context `{Platform}.

Lemma cf_apply_all snapDir plans :
  emits (Q_careful (written_for snapDir plans) (copied_for snapDir plans))
        (map_M (apply_one snapDir) plans).
Proof.
  assert (forall l, (forall plan, plan ∈ l -> plan ∈ plans) ->
            emits (Q_careful (written_for snapDir plans) (copied_for snapDir plans))
                  (map_M (apply_one snapDir) l)) as Hl.
  { induction l as [|plan l IH]; intros Hin; simpl.
    - by apply cf_pure.
    - apply cf_bind.
      + apply cf_apply_one.
        * intros p Hp. exists plan. split; [apply Hin; by left|done].
        * intros p Hp. exists plan. split; [apply Hin; by left|done].
      + intros entry. apply cf_bind; [|intros entries; by apply cf_pure].
        apply IH. intros q Hq. apply Hin. by right. }
  by apply Hl.
Qed.

Lemma applyPlan_careful plans w :
  let snapDir := snapshot_dir_at w in
  exists calls rest,
    since w (applyPlan plans w).2 = snapshot_mkdir snapDir :: calls ++ rest
    /\ Forall agent_call calls
    /\ atomic_ops (map snd calls)
    /\ careful_ops (written_for snapDir plans) (copied_for snapDir plans) (map snd calls)
    /\ (rest = [] \/ exists text, rest = [(OSnapshot, OpWriteFile (meta_path snapDir) text)]).
Proof.
  intros snapDir. unfold snapshot_dir_at in snapDir.
  rewrite applyPlan_eq. cbv zeta. fold snapDir.
  set (w1 := after_call 1 OSnapshot _ w).
  pose proof (emits_both _ _ _ (sync_apply_all snapDir plans)
                (cf_apply_all snapDir plans) w1)
    as (calls & Ht & _ & _ & [Hl Ha] & Hc).
  exists calls.
  destruct (map_M (apply_one snapDir) plans w1) as [[dn|err] w2]; simpl in *.
  - eexists. split; [|split; [done|split; [done|split; [done|right; by eexists]]]].
    unfold since. simpl. rewrite Ht. simpl. rewrite <- !app_assoc.
    by rewrite drop_app_length.
  - exists []. split; [|split; [done|split; [done|split; [done|by left]]]].
    unfold since. rewrite Ht. simpl. rewrite <- !app_assoc, app_nil_r.
    by rewrite drop_app_length.
Qed.

Lemma careful_in_place written copied ops P :
  careful_ops written copied ops ->
  ~ temp_file P -> ~ copied P ->
  Forall (fun op => ~ writes_in_place op P) ops.
Proof.
  intros Hops Htemp Hcopy. induction Hops; repeat constructor; simpl; auto.
  - intros <-. apply Htemp. by eexists _, _.
  - by intros <-.
Qed.

Lemma restoreMcp_in_place e B F w :
  mcpChanged e = true -> mcpBackupPath e = Some B -> B <> "" ->
  files (disk w) !! B = Some F ->
  map snd (since w (restoreMcp (applied_value e) w).2)
  = [OpMkdir (ancestors (String.length (path_dirname (mcpPath e)))
                        (path_dirname (mcpPath e)));
     OpCopyFile B (mcpPath e)].
Proof.
  intros Hch HB Hne HF. destruct e as [ag mp ch bk ex sd sc sb sm]. simpl in *.
  subst ch bk. unfold restoreMcp. simpl.
  apply String.eqb_neq in Hne. rewrite Hne. simpl.
  rewrite !bind_eq. rewrite pathExists_file by (by rewrite HF).
  rewrite !bind_eq. unfold lift. simpl. rewrite !bind_eq.
  unfold copyIfExists. rewrite !bind_eq. rewrite pathExists_file by (by rewrite HF).
  simpl. rewrite !bind_eq.
  unfold ensureParentDir, sys_mkdir_recursive, issue. simpl. rewrite !bind_eq.
  unfold sys_copyFile. simpl. rewrite HF. unfold issue. simpl.
  unfold since. simpl. rewrite <- app_assoc. by rewrite drop_app_length.
Qed.
End CarefulSync.

Section Marker.
Context `{Platform}.





(** C7, amended (atomic writes).  (1) [writeTextAtomic] creates the
    parent directory, writes a temporary file next to the target and
    renames it over the target; whatever a crash leaves, the target holds
    its old content or the whole new content.  (2) The calls of
    [applyPlan] are the creation of the snapshot directory, calls for
    agents, and at most the write of [meta.json]; among the calls for
    agents every [writeFile] writes the temporary file of a native file, of
    a file of a managed skills directory or of a snapshot backup, and the
    next call renames it over that file; every [copyFile] has a snapshot
    backup as its target; the other calls create directories or remove
    such files.  (3) A crash leaves a file that no call writes in place in
    a state it had between two calls.  (4) So a crash during [applyPlan]
    leaves every file other than a temporary file, a snapshot backup and
    [meta.json] in a state it had between two calls.  (5) The rollback,
    though, restores a native file that has a backup with [copyFile] onto
    the file where it stands. *)
Theorem agent_files_written_atomically :
  (forall filePath content w,
     let calls := atomic_write_calls (origin w) filePath content
                    (clock_ms (ticks w)) in
     (writeTextAtomic filePath content w).1 = Ok tt
     /\ since w (writeTextAtomic filePath content w).2 = calls
     /\ files (disk (writeTextAtomic filePath content w).2) !! filePath = Some content
     /\ forall s', crash (map snd calls) (disk w) s' ->
          files s' !! filePath = files (disk w) !! filePath
          \/ files s' !! filePath = Some content)
  /\ (forall plans w,
        let snapDir := snapshot_dir_at w in
        exists calls rest,
          since w (applyPlan plans w).2 = snapshot_mkdir snapDir :: calls ++ rest
          /\ Forall agent_call calls
          /\ atomic_ops (map snd calls)
          /\ careful_ops (written_for snapDir plans) (copied_for snapDir plans)
               (map snd calls)
          /\ (rest = []
              \/ exists text,
                   rest = [(OSnapshot, OpWriteFile (meta_path snapDir) text)]))
  /\ (forall ops s s' P,
        crash ops s s' ->
        Forall (fun op => ~ writes_in_place op P) ops ->
        exists n, files s' !! P = files (replay (take n ops) s) !! P)
  /\ (forall plans w s' P,
        let snapDir := snapshot_dir_at w in
        let ops := map snd (since w (applyPlan plans w).2) in
        crash ops (disk w) s' ->
        ~ temp_file P ->
        ~ copied_for snapDir plans P ->
        P <> meta_path snapDir ->
        exists n, files s' !! P = files (replay (take n ops) (disk w)) !! P)
  /\ (forall e B F w,
        mcpChanged e = true -> mcpBackupPath e = Some B -> B <> "" ->
        files (disk w) !! B = Some F ->
        map snd (since w (restoreMcp (applied_value e) w).2)
        = [OpMkdir (ancestors (String.length (path_dirname (mcpPath e)))
                              (path_dirname (mcpPath e)));
           OpCopyFile B (mcpPath e)]).
Proof.
  split; [|split; [|split; [|split]]].
  - intros filePath content w calls. rewrite writeTextAtomic_run. simpl.
    split; [done|]. split; [|split].
    + unfold since. simpl. by rewrite drop_app_length.
    + rewrite lookup_insert_eq. simpl. by rewrite lookup_insert_eq.
    + apply (crash_atomic_write (origin w)).
  - apply applyPlan_careful.
  - apply crash_boundary.
  - intros plans w s' P snapDir ops Hcrash Htemp Hcopy Hmeta.
    apply (crash_boundary _ _ _ _ Hcrash). subst ops.
    destruct (applyPlan_careful plans w) as (calls & rest & -> & _ & _ & Hc & Hrest).
    fold snapDir in Hc, Hrest. simpl. constructor; [simpl; tauto|].
    rewrite map_app. apply Forall_app. split.
    + by apply (careful_in_place _ _ _ _ Hc).
    + destruct Hrest as [->|[text ->]]; repeat constructor. simpl. congruence.
  - apply restoreMcp_in_place.
Qed.
End Marker.

(** ** Examples *)

Section Examples.
#[local] Existing Instance example_platform.

(** The sample plans are the ones the planner makes. *)
Lemma example_plan_built :
buildPlan example_config (only [gemini]) example_machine
= (Ok [example_plan], example_machine).
Proof. reflexivity. Qed.

Lemma shared_plans_built :
buildPlan shared_config (only [gemini; claude]) shared_machine
= (Ok shared_plans, shared_machine).
Proof. reflexivity. Qed.

(** C1: the round trip on the example machine. *)
Lemma round_trip_example :
files (disk example_sync.2) !! gemini_settings
  <> files (disk example_machine) !! gemini_settings
/\ files (disk example_rollback.2) !! gemini_settings
   = files (disk example_machine) !! gemini_settings.
Proof.
split; [vm_compute; discriminate|].
apply (sync_rollback_round_trip [example_plan] example_plan example_machine
         (result_of example_sync) example_sync.2
         (entries_of example_rollback) example_rollback.2).
- apply list_elem_of_singleton. reflexivity.
- simpl. apply NoDup_singleton.
- reflexivity.
- intros _. vm_compute. eexists. reflexivity.
- vm_compute. discriminate.
- vm_compute. reflexivity.
- exists (default "" (files (disk example_sync.2) !! example_meta)).
  split; vm_compute; reflexivity.
- vm_compute. reflexivity.
- apply (bool_decide_unpack _). vm_compute. exact I.
Defined.

(** Isolation is by file, not by spelling: a write by another agent under
  the spelling [/work/./mcp.json] is a write to the native file
  [/work/mcp.json], and breaks the isolation of that file. *)
Lemma spellings_share_a_file :
same_file "/work/./mcp.json" "/work/mcp.json"
/\ ~ isolated_file "gemini" "/work/mcp.json" "/snapshots/s1/gemini.json"
      [(OMcp "codex", OpWriteFile "/work/./mcp.json" "{}")].
Proof.
split; [vm_compute; reflexivity|].
intros Hiso. apply (bool_decide_pack _) in Hiso. vm_compute in Hiso. exact Hiso.
Qed.

(** C1, as stated, fails: two agents directed to one file. *)
Lemma shared_path_not_restored :
Forall (fun p => plan_path p = shared_path /\ hasDiff (diff p) = true) shared_plans
/\ files (disk shared_machine) !! shared_path = Some empty_document
/\ (exists res, shared_sync.1 = Ok res)
/\ (exists restored, shared_rollback.1 = Ok restored)
/\ files (disk shared_rollback.2) !! shared_path <> Some empty_document.
Proof.
split; [repeat constructor|].
split; [vm_compute; reflexivity|].
split; [vm_compute; eexists; reflexivity|].
split; [vm_compute; eexists; reflexivity|].
vm_compute. discriminate.
Qed.



(** C7: a crash while [writeTextAtomic] writes its temporary file. *)
Lemma atomic_write_example :
exists s',
  crash (map snd (atomic_write_calls OOther gemini_settings "{}" 0))
        (disk example_machine) s'
  /\ files s' !! temp_path gemini_settings process_pid 0 = Some "{"
  /\ (files s' !! gemini_settings = files (disk example_machine) !! gemini_settings
      \/ files s' !! gemini_settings = Some "{}").
Proof.
eexists. split; [|split].
- apply crash_later. apply (crash_writing _ "{}" "{"). reflexivity.
- vm_compute. reflexivity.
- apply (proj2 (proj2 (proj2
           (proj1 agent_files_written_atomically gemini_settings "{}" example_machine)))).
  apply crash_later. apply (crash_writing _ "{}" "{"). reflexivity.
Defined.

(** C7, as stated, fails: [meta.json] is written where it stands. *)
Lemma meta_json_left_truncated :
crash example_calls (disk example_machine) half_written
/\ files half_written !! example_meta = Some "{"
/\ (exists text, files (disk example_sync.2) !! example_meta = Some text
                 /\ startsWith "{" text = true /\ text <> "{").
Proof.
split; [|split].
- apply (crash_write_at example_calls (length example_calls - 1) _ example_meta
           (default "" (files (disk example_sync.2) !! example_meta))).
  + vm_compute. reflexivity.
  + vm_compute. reflexivity.
- vm_compute. reflexivity.
- exists (default "" (files (disk example_sync.2) !! example_meta)).
  split; [vm_compute; reflexivity|]. split; [vm_compute; reflexivity|].
  vm_compute. discriminate.
Qed.

(** C9: a Gemini document of white space. *)
Lemma blank_file_example :
load GeminiAdapter gemini_settings blank_machine
= (Ok {| exists_ := false; data := JObj [] |}, blank_machine).
Proof.
apply (blank_file_loads_as_missing GeminiAdapter gemini_settings ("  " +:+ newline)).
- unfold getAdapters. rewrite !elem_of_cons. right. left. reflexivity.
- vm_compute. reflexivity.
- vm_compute. reflexivity.
Defined.
End Examples.

(** C2: the keys of a record in two orders. *)
Lemma key_order_example :
  "files" ∉ changed (diffServerMaps [("files", command_first)] [("files", args_first)]).
Proof.
  apply (proj2 (proj2 diffServerMaps_correct)
           [("files", command_first)] [("files", args_first)] "files"
           command_first args_first).
  - reflexivity.
  - reflexivity.
  - vm_compute. reflexivity.
  - apply (kp_obj _ [("command", JStr "npx");
                     ("args", JArr [JStr "-y"; JStr "files-server"])]).
    + constructor; [split; [reflexivity|apply kp_str]|].
      constructor; [|constructor]. split; [reflexivity|].
      apply kp_arr. repeat (constructor; [apply kp_str|]). constructor.
    + apply perm_swap.
Defined.

(** C3: a denied server that is switched on for the agent. *)
Lemma deny_example :
  serverEnabledForAgent "files" enabled_for_claude claude (denying "files") = false.
Proof.
  apply (proj1 (proj2 enablement_precedence)); reflexivity.
Defined.

(** C4: a reference to [TOKEN], unset and set. *)
Lemma strict_example :
  resolveServerSecrets empty_env "files" (plug api_key_place (JStr "env://TOKEN")) strict
  = Throw ("Missing environment variable " +:+ dquote +:+ "TOKEN" +:+ dquote
           +:+ " referenced at mcp.servers.files.env.API_KEY.")
  /\ resolveServerSecrets example_env "files"
       (plug api_key_place (JStr "env://TOKEN")) strict
     = Ok (plug api_key_place (JStr "s3cret")).
Proof.
  split.
  - apply (proj1 (proj2 (strict_resolution_total empty_env strict "files" "TOKEN"
                           api_key_place eq_refl ltac:(discriminate)))
             api_key_place eq_refl).
    reflexivity.
  - apply (proj1 (proj2 (strict_resolution_total example_env strict "files" "TOKEN"
                           api_key_place eq_refl ltac:(discriminate)))
             api_key_place eq_refl);
      reflexivity.
Defined.

(** C4, as stated, fails: with [TOKEN] set, a second reference to an
    unset variable still makes the resolution fail; with both unset, the
    error names the first reference, not [TOKEN]. *)
Lemma strict_resolution_blocked :
  example_env "TOKEN" = Some "s3cret"
  /\ resolveServerSecrets example_env "files"
       (JObj [("env", JObj [("A", JStr "env://TOKEN"); ("B", JStr "env://OTHER")])]) strict
     = Throw ("Missing environment variable " +:+ dquote +:+ "OTHER" +:+ dquote
              +:+ " referenced at mcp.servers.files.env.B.")
  /\ resolveServerSecrets empty_env "files"
       (JObj [("env", JObj [("B", JStr "env://OTHER"); ("A", JStr "env://TOKEN")])]) strict
     = Throw ("Missing environment variable " +:+ dquote +:+ "OTHER" +:+ dquote
              +:+ " referenced at mcp.servers.files.env.B.").
Proof. repeat split; reflexivity. Qed.

(** C5: a reference to a variable that is set and one that is not. *)
Lemma nonstrict_example :
  resolveServerSecrets example_env "files"
    (JObj [("env", JObj [("A", JStr "env://TOKEN"); ("B", JStr "env://OTHER")])]) nonstrict
  = Ok (JObj [("env", JObj [("A", JStr "s3cret"); ("B", JStr "env://OTHER")])]).
Proof.
  apply (proj1 (nonstrict_resolution example_env nonstrict "files"
                  (JObj [("env", JObj [("A", JStr "env://TOKEN");
                                       ("B", JStr "env://OTHER")])])
                  eq_refl eq_refl eq_refl)).
Defined.

(** C10: the arguments of a server in two orders. *)
Lemma args_order_example :
  "files" ∈ changed (diffServerMaps [("files", with_args [JStr "a"; JStr "b"])]
                                    [("files", with_args [JStr "b"; JStr "a"])]).
Proof.
  apply (proj2 (proj2 array_order_is_significant) _ _ "files"
           (CObj [("command", JStr "npx")] "args" CHole [])
           [JStr "a"; JStr "b"] [JStr "b"; JStr "a"]).
  - reflexivity.
  - reflexivity.
  - vm_compute. reflexivity.
  - reflexivity.
  - apply perm_swap.
  - vm_compute. discriminate.
Defined.

(** ** More on the diff *)

Lemma filter_nil_iff {A} (p : A -> bool) l :
  List.filter p l = [] <-> forall x, x ∈ l -> p x = false.
Proof.
  induction l as [|y l IH]; simpl.
  - split; [intros _ x Hx; by apply elem_of_nil in Hx|done].
  - destruct (p y) eqn:Hy.
    + split; [done|]. intros Hall. specialize (Hall y (list_elem_of_here _ _)). congruence.
    + rewrite IH. split.
      * intros Hall x Hx. apply elem_of_cons in Hx as [->|Hx]; auto.
      * intros Hall x Hx. apply Hall. by right.
Qed.

Lemma sort_strings_nil_iff l : sort_strings l = [] <-> l = [].
Proof.
  split; [|by intros ->].
  intros Hs. pose proof (sort_strings_perm l) as Hp. rewrite Hs in Hp.
  by apply Permutation_nil_l in Hp.
Qed.

Lemma hasDiff_false d :
  hasDiff d = false <-> added d = [] /\ removed d = [] /\ changed d = [].
Proof.
  unfold hasDiff. destruct (added d), (removed d), (changed d); simpl; split;
    try done; intros (? & ? & ?); done.
Qed.

Lemma same_value_sym A B id : same_value A B id = same_value B A id.
Proof. unfold same_value. apply String.eqb_sym. Qed.

Lemma same_value_text A B id :
  same_value A B id = true
  <-> stableStringify (obj_at id A) = stableStringify (obj_at id B).
Proof. unfold same_value. apply String.eqb_eq. Qed.

(** X1: no difference is reported exactly when the two maps have the same
    ids and, for every id, the two values have the same canonical text. *)
Theorem no_diff_iff (A B : list (string * json)) :
  hasDiff (diffServerMaps A B) = false
  <-> (forall id, id ∈ keys A <-> id ∈ keys B)
      /\ (forall id, id ∈ keys B ->
            stableStringify (obj_at id A) = stableStringify (obj_at id B)).
Proof.
  rewrite hasDiff_false, diffServerMaps_eq. simpl.
  rewrite !sort_strings_nil_iff, !filter_nil_iff. split.
  - intros (Ha & Hr & Hc). split.
    + intros id. split; intros Hid.
      * specialize (Hr id Hid). apply negb_false_iff in Hr. by apply obj_has_elem.
      * specialize (Ha id Hid). unfold is_added in Ha.
        apply negb_false_iff in Ha. by apply obj_has_elem.
    + intros id Hid. specialize (Hc id Hid). unfold is_changed in Hc.
      specialize (Ha id Hid). unfold is_added in Ha. apply negb_false_iff in Ha.
      rewrite Ha in Hc. simpl in Hc. apply negb_false_iff in Hc.
      by apply same_value_text.
  - intros [Hk Hv]. split; [|split].
    + intros id Hid. unfold is_added. apply negb_false_iff, obj_has_elem. by apply Hk.
    + intros id Hid. apply negb_false_iff, obj_has_elem. by apply Hk.
    + intros id Hid. unfold is_changed.
      assert (same_value A B id = true) as -> by (by apply same_value_text, Hv).
      simpl. apply andb_false_r.
Qed.

(** X2: exchanging the two maps exchanges [added] and [removed] and keeps
    [changed]. *)
Theorem diff_swap (A B : list (string * json)) :
  NoDup (keys A) -> NoDup (keys B) ->
  added (diffServerMaps A B) = removed (diffServerMaps B A)
  /\ removed (diffServerMaps A B) = added (diffServerMaps B A)
  /\ changed (diffServerMaps A B) = changed (diffServerMaps B A).
Proof.
  intros HA HB.
  rewrite !diffServerMaps_eq. simpl. split; [done|]. split; [done|].
  apply sort_strings_unique. apply NoDup_Permutation.
  - apply NoDup_ListNoDup, List.NoDup_filter, NoDup_ListNoDup, HB.
  - apply NoDup_ListNoDup, List.NoDup_filter, NoDup_ListNoDup, HA.
  - intros id. rewrite !list_elem_of_In, !filter_In, <- !list_elem_of_In.
    unfold is_changed. rewrite !andb_true_iff, !obj_has_elem, same_value_sym. tauto.
Qed.

(** ** The adapters *)

Lemma obj_has_set {A} k (v : A) o : obj_has k (obj_set o k v) = true.
Proof. unfold obj_has. by rewrite obj_get_set, String.eqb_refl. Qed.

Lemma obj_replace_twice {A} k (v1 v2 : A) o :
  obj_replace k v2 (obj_replace k v1 o) = obj_replace k v2 o.
Proof.
  induction o as [|[k' v'] o IH]; simpl; [done|].
  destruct (String.eqb k k') eqn:Hk; simpl; rewrite Hk; [done|]. by rewrite IH.
Qed.

Lemma obj_replace_last {A} k (v1 v2 : A) o :
  obj_has k o = false -> obj_replace k v2 (o ++ [(k, v1)]) = o ++ [(k, v2)].
Proof.
  unfold obj_has. induction o as [|[k' v'] o IH]; simpl; intros Hno.
  - by rewrite String.eqb_refl.
  - destruct (String.eqb k k') eqn:Hk; [done|]. by rewrite IH.
Qed.

Lemma obj_set_twice {A} k (v1 v2 : A) o :
  array_index k = None -> obj_set (obj_set o k v1) k v2 = obj_set o k v2.
Proof.
  intros Hk. unfold obj_set at 1. rewrite obj_has_set.
  unfold obj_set. rewrite Hk. destruct (obj_has k o) eqn:Ho.
  - apply obj_replace_twice.
  - by apply obj_replace_last.
Qed.

Section Adapters.
Context `{Platform}.

Lemma with_key_round_trip key data servers :
  extract_key key (with_key key data servers) = Ok servers.
Proof. unfold extract_key, with_key. simpl. by rewrite obj_get_set, String.eqb_refl. Qed.

Lemma with_key_twice key data other servers :
  array_index key = None ->
  with_key key (with_key key data other) servers = with_key key data servers.
Proof. intros Hk. unfold with_key. simpl. by rewrite obj_set_twice. Qed.

Lemma with_key_frame key data servers k :
  k <> key -> prop k (with_key key data servers) = obj_get k (spread data).
Proof.
  intros Hk. unfold with_key. simpl. rewrite obj_get_set.
  by apply String.eqb_neq in Hk as ->.
Qed.

(** X3: what [withServers] stores, [extractServers] returns; storing
    twice keeps the last map; the other top-level keys of the document
    keep their values. *)
Theorem servers_round_trip :
  Forall (fun adapter =>
    forall data servers,
      extractServers adapter (withServers adapter data servers) = Ok servers
      /\ (forall other,
            withServers adapter (withServers adapter data other) servers
            = withServers adapter data servers)
      /\ exists key, forall k, k <> key ->
           prop k (withServers adapter data servers) = obj_get k (spread data))
    source_adapters.
Proof.
  assert (forall key data servers,
            array_index key = None ->
            extract_key key (with_key key data servers) = Ok servers
            /\ (forall other,
                  with_key key (with_key key data other) servers
                  = with_key key data servers)
            /\ exists key', forall k, k <> key' ->
                 prop k (with_key key data servers) = obj_get k (spread data)) as Hkey.
  { intros key data servers Hk. split; [apply with_key_round_trip|].
    split; [intros other; by apply with_key_twice|].
    exists key. intros k Hne. by apply with_key_frame. }
  unfold source_adapters.
  repeat apply List.Forall_cons; try apply List.Forall_nil;
    intros data servers; simpl; by apply Hkey.
Qed.

(** *** [normalizeServer] *)

Lemma adapter_normalize adapter :
  adapter ∈ source_adapters ->
  exists b1 b2 b3, normalizeServer adapter = normalize_with b1 b2 b3.
Proof.
  unfold source_adapters. rewrite !elem_of_cons, elem_of_nil.
  intros [->|[->|[->|[->|[]]]]]; simpl; eauto.
Qed.

Lemma obj_get_copy_if cond k' server r k v :
  obj_get k (copy_if cond k' server r) = Some v ->
  obj_get k r = Some v
  \/ (k = k' /\ prop k' server = Some v /\ truthy (Some v) = true /\ cond v = true).
Proof.
  unfold copy_if. destruct (prop k' server) as [x|] eqn:Hx; [|by left].
  destruct (truthy (Some x) && cond x) eqn:Hc; [|by left].
  apply andb_true_iff in Hc as [Ht Hc]. rewrite obj_get_set.
  destruct (String.eqb_spec k k') as [->|Hne]; [|by left].
  intros [= <-]. by right.
Qed.

Lemma obj_get_copy_number k' server r k v :
  obj_get k (copy_number k' server r) = Some v ->
  obj_get k r = Some v \/ (k = k' /\ prop k' server = Some v /\ exists n, v = JNum n).
Proof.
  unfold copy_number. destruct (prop k' server) as [[| |n| | |]|] eqn:Hx; try by left.
  rewrite obj_get_set. destruct (String.eqb_spec k k') as [->|Hne]; [|by left].
  intros [= <-]. right. eauto.
Qed.

(** X4: [normalizeServer] fails exactly when the field the transport needs
    is missing or empty, with the message that names the server. *)
Theorem normalizeServer_requirements (adapter : AgentAdapter) (serverId : string)
    (server : json) :
  adapter ∈ source_adapters ->
  (is_stdio server = true -> truthy (prop "command" server) = false ->
     normalizeServer adapter serverId server = Throw (requires_command serverId))
  /\ (is_stdio server = false -> truthy (prop "url" server) = false ->
        normalizeServer adapter serverId server = Throw (requires_url serverId server))
  /\ (truthy (prop (if is_stdio server then "command" else "url") server) = true ->
        exists record, normalizeServer adapter serverId server = Ok (JObj record)).
Proof.
  intros Hin. destruct (adapter_normalize adapter Hin) as (b1 & b2 & b3 & ->).
  unfold normalize_with. destruct (is_stdio server); split; try done.
  - intros _ Hc. destruct (prop "command" server) as [c|]; [|done]. by rewrite Hc.
  - split; [done|]. intros Hc. destruct (prop "command" server) as [c|]; [|done].
    rewrite Hc. eauto.
  - split.
    + intros _ Hu. destruct (prop "url" server) as [u|]; [|done]. by rewrite Hu.
    + intros Hu. destruct (prop "url" server) as [u|]; [|done]. rewrite Hu. eauto.
Qed.

(** X5: a native record carries only native fields; each field other than
    [type] is the field of the unified definition, unchanged, and is
    never an empty [args], [env] or [headers]. *)
Theorem normalizeServer_fields (adapter : AgentAdapter) (serverId : string)
    (server : json) (record : list (string * json)) (k : string) (v : json) :
  adapter ∈ source_adapters ->
  normalizeServer adapter serverId server = Ok (JObj record) ->
  obj_get k record = Some v ->
  k ∈ native_fields
  /\ (k <> "type" -> prop k server = Some v /\ truthy (Some v) = true
                    \/ (k = "startup_timeout_sec" /\ prop k server = Some v))
  /\ (k = "args" -> length_positive v = true)
  /\ (k = "env" \/ k = "headers" -> has_keys v = true).
Proof.
  intros Hin. destruct (adapter_normalize adapter Hin) as (b1 & b2 & b3 & ->).
  unfold normalize_with, native_fields.
  destruct (is_stdio server).
  - destruct (prop "command" server) as [c|] eqn:Hcmd; [|done].
    destruct (truthy (Some c)) eqn:Hc; [|done]. intros [= <-] Hk.
    assert (obj_get k (copy_if has_keys "env" server
              (copy_if length_positive "args" server
                 (if b1 then [("type", JStr "stdio"); ("command", c)]
                  else [("command", c)]))) = Some v
            \/ (k = "startup_timeout_sec" /\ prop k server = Some v)) as Hk'.
    { destruct b3; [|by left].
      apply obj_get_copy_number in Hk as [Hk|(-> & Hp & _)]; [by left|by right]. }
    destruct Hk' as [Hk'|[-> Hp]]; [|set_solver].
    apply obj_get_copy_if in Hk' as [Hk'|(-> & Hp & Ht & Hc')]; [|set_solver].
    apply obj_get_copy_if in Hk' as [Hk'|(-> & Hp & Ht & Hc')]; [|set_solver].
    destruct b1; simpl in Hk'.
    + destruct (String.eqb_spec k "type") as [->|_]; [set_solver|].
      destruct (String.eqb_spec k "command") as [->|_]; [|done].
      injection Hk' as <-. set_solver.
    + destruct (String.eqb_spec k "command") as [->|_]; [|done].
      injection Hk' as <-. set_solver.
  - destruct (prop "url" server) as [u|] eqn:Hurl; [|done].
    destruct (truthy (Some u)) eqn:Hu; [|done]. intros [= <-] Hk.
    apply obj_get_copy_if in Hk as [Hk|(-> & Hp & Ht & Hc')]; [|set_solver].
    destruct b2; simpl in Hk.
    + destruct (String.eqb_spec k "type") as [->|_]; [set_solver|].
      destruct (String.eqb_spec k "url") as [->|_]; [|done].
      injection Hk as <-. set_solver.
    + destruct (String.eqb_spec k "url") as [->|_]; [|done].
      injection Hk as <-. set_solver.
Qed.
End Adapters.

(** ** More on secret resolution *)

Lemma resolveStringRef_resolvable env options s context :
  resolvable env options (JStr s) = true ->
  resolveStringRef env s context options = Ok (substitute_string env s).
Proof.
  simpl. unfold resolveStringRef, substitute_string.
  destruct (startsWith "env://" s); simpl; [|done].
  intros [Hk Hv]%andb_true_iff. apply negb_true_iff in Hk. rewrite Hk.
  destruct (env (trim (slice 6 s))); simpl in *; [done|]. by rewrite Hv.
Qed.

Lemma resolveStringRef_unresolvable env options s context :
  resolvable env options (JStr s) = false ->
  exists m, resolveStringRef env s context options = Throw m.
Proof.
  simpl. unfold resolveStringRef.
  destruct (startsWith "env://" s); simpl; [|done].
  destruct (String.eqb (trim (slice 6 s)) ""); simpl; [eauto|].
  destruct (env (trim (slice 6 s))); simpl; [done|].
  intros ->. eauto.
Qed.

Lemma resolveValue_resolvable env options v :
  forall context, js_value v = true -> resolvable env options v = true ->
  resolveValue env options v context = Ok (substitute env v).
Proof.
  induction v as [|b|n|s|l IH|o IH] using json_induction; intros context Hjs Hr;
    try reflexivity.
  - simpl. by rewrite resolveStringRef_resolvable.
  - rewrite resolveValue_arr. simpl in *.
    assert (forall i, resolve_items env options l context i = Ok (map (substitute env) l))
      as ->; [|done].
    induction IH as [|x l Hx _ IHl]; intros i; simpl in *; [done|].
    apply andb_true_iff in Hjs as [Hjx Hjs]. apply andb_true_iff in Hr as [Hrx Hr].
    by rewrite Hx, IHl.
  - rewrite resolveValue_obj. simpl in *. apply andb_true_iff in Hjs as [Hord Hjs].
    assert (resolve_props env options o context
            = Ok (map (fun kv => (fst kv, substitute env (snd kv))) o)) as ->.
    { clear Hord. induction IH as [|[k x] o Hx _ IHl]; simpl in *; [done|].
      apply andb_true_iff in Hjs as [Hjx Hjs]. apply andb_true_iff in Hr as [Hrx Hr].
      by rewrite Hx, IHl. }
    simpl. rewrite obj_of_entries_ordered; [done|].
    fold (entry_map (substitute env) o). by rewrite keys_entry_map.
Qed.

Lemma resolveValue_unresolvable env options v :
  forall context, js_value v = true -> resolvable env options v = false ->
  exists m, resolveValue env options v context = Throw m.
Proof.
  induction v as [|b|n|s|l IH|o IH] using json_induction; intros context Hjs Hr;
    try discriminate.
  - simpl. destruct (resolveStringRef_unresolvable env options s context Hr) as [m ->].
    simpl. eauto.
  - rewrite resolveValue_arr. simpl in *.
    assert (forall i, exists m, resolve_items env options l context i = Throw m) as Hl.
    { induction IH as [|x l Hx _ IHl]; intros i; simpl in *; [done|].
      apply andb_true_iff in Hjs as [Hjx Hjs].
      destruct (resolvable env options x) eqn:Hrx; simpl in Hr.
      - rewrite (resolveValue_resolvable env options x _ Hjx Hrx). simpl.
        destruct (IHl Hjs Hr (S i)) as [m ->]. simpl. eauto.
      - destruct (Hx (index_context context i) Hjx eq_refl) as [m ->]. simpl. eauto. }
    destruct (Hl 0) as [m ->]. simpl. eauto.
  - rewrite resolveValue_obj. simpl in *. apply andb_true_iff in Hjs as [_ Hjs].
    assert (exists m, resolve_props env options o context = Throw m) as [m ->];
      [|simpl; eauto].
    induction IH as [|[k x] o Hx _ IHl]; simpl in *; [done|].
    apply andb_true_iff in Hjs as [Hjx Hjs].
    destruct (resolvable env options x) eqn:Hrx; simpl in Hr.
    + rewrite (resolveValue_resolvable env options x _ Hjx Hrx). simpl.
      destruct (IHl Hjs Hr) as [m ->]. simpl. eauto.
    + destruct (Hx (key_context context k) Hjx eq_refl) as [m ->]. simpl. eauto.
Qed.

(** X6: resolution succeeds exactly when every reference can be resolved,
    and then returns the definition with each set variable substituted
    and, in every object, a property named [__proto__] left out. *)
Theorem resolution_succeeds_iff (env : Env) (options : SecretResolveOptions)
    (serverId : string) (server : json) :
  js_value server = true ->
  (resolvable env options server = true ->
     resolveServerSecrets env serverId server options = Ok (substitute env server))
  /\ (resolvable env options server = false ->
        exists m, resolveServerSecrets env serverId server options = Throw m)
  /\ (forall r, resolveServerSecrets env serverId server options = Ok r ->
        resolvable env options server = true /\ r = substitute env server).
Proof.
  intros Hjs. unfold resolveServerSecrets. split; [|split].
  - by apply resolveValue_resolvable.
  - by apply resolveValue_unresolvable.
  - intros r Hr. destruct (resolvable env options server) eqn:Hres.
    + rewrite resolveValue_resolvable in Hr by done. by injection Hr as <-.
    + destruct (resolveValue_unresolvable env options server
                  ("mcp.servers." +:+ serverId) Hjs Hres) as [m Hm].
      congruence.
Qed.


(** ** The canonical form *)

Lemma obj_insert_index_perm {A} i k (v : A) o : obj_insert_index i k v o ≡ₚ (k, v) :: o.
Proof.
  induction o as [|[k' v'] o IH]; simpl; [done|].
  destruct (array_index k') as [j|]; [|done].
  destruct (j <? i)%N; [|done]. rewrite IH. apply perm_swap.
Qed.

Lemma obj_set_fresh_perm {A} k (v : A) o :
  obj_has k o = false -> obj_set o k v ≡ₚ (k, v) :: o.
Proof.
  intros Hk. unfold obj_set. rewrite Hk. destruct (array_index k).
  - apply obj_insert_index_perm.
  - by rewrite Permutation_app_comm.
Qed.

Lemma fold_set_perm {A} (es : list (string * A)) : forall acc,
  NoDup (keys (acc ++ es)) ->
  fold_left (fun acc e => obj_set acc (fst e) (snd e)) es acc ≡ₚ acc ++ es.
Proof.
  induction es as [|[k v] es IH]; intros acc Hnd; simpl.
  - by rewrite app_nil_r.
  - assert (obj_has k acc = false) as Hk.
    { apply obj_has_false. rewrite keys_app in Hnd. simpl in Hnd.
      apply NoDup_app in Hnd as (_ & Hd & _). intros Hin. apply (Hd k Hin). by left. }
    assert (obj_set acc k v ≡ₚ acc ++ [(k, v)]) as Hp.
    { rewrite (obj_set_fresh_perm k v acc Hk). by rewrite <- Permutation_cons_append. }
    rewrite IH.
    + rewrite Hp. by rewrite <- app_assoc.
    + unfold keys in *. rewrite Hp, <- app_assoc. exact Hnd.
Qed.

Lemma own_entries_perm {A} (es : list (string * A)) :
  NoDup (keys es) -> own_entries es ≡ₚ es.
Proof. intros Hnd. unfold own_entries. by rewrite fold_set_perm. Qed.

Lemma obj_of_entries_perm {A} (es : list (string * A)) :
  NoDup (keys es) -> obj_of_entries es ≡ₚ kept es.
Proof.
  intros Hnd. rewrite obj_of_entries_own. by apply own_entries_perm, NoDup_keys_kept.
Qed.

Lemma sorted_filter (p : string -> bool) l :
  Sorted str_le l -> Sorted str_le (List.filter p l).
Proof.
  intros Hs. apply Sorted_StronglySorted in Hs; [|apply _].
  apply StronglySorted_Sorted.
  induction Hs as [|x l Hs IH Hall]; simpl; [constructor|].
  destruct (p x); [|done]. constructor; [done|].
  apply List.Forall_forall. intros y Hy. apply filter_In in Hy as [Hy _].
  rewrite List.Forall_forall in Hall. by apply Hall.
Qed.

Lemma sort_filter (p : string -> bool) l :
  List.filter p (sort_strings l) = sort_strings (List.filter p l).
Proof.
  apply (Sorted_unique str_le).
  - apply sorted_filter, sort_strings_sorted.
  - apply sort_strings_sorted.
  - assert (forall l1 l2 : list string, l1 ≡ₚ l2 -> List.filter p l1 ≡ₚ List.filter p l2)
      as Hf.
    { induction 1 as [|x l1 l2 Hp IH|x y l0|l1 l2 l3 H1 IH1 H2 IH2]; simpl; try done.
      - destruct (p x); by rewrite ?IH.
      - destruct (p x), (p y); try done. apply perm_swap.
      - etrans; eauto. }
    etrans; [apply Hf, sort_strings_perm|]. symmetry. apply sort_strings_perm.
Qed.

Lemma canon_props_eq r :
  canon_props r
  = own_entries (map (fun key => (key, obj_at key r))
                     (sort_strings (List.filter (fun k => negb (is_proto k)) (keys r)))).
Proof.
  unfold canon_props. rewrite obj_of_entries_own, kept_tabulate. by rewrite sort_filter.
Qed.

Lemma filter_filter_same {A} (p : A -> bool) l :
  List.filter p (List.filter p l) = List.filter p l.
Proof.
  induction l as [|x l IH]; simpl; [done|].
  destruct (p x) eqn:Hx; simpl; [|done]. by rewrite Hx, IH.
Qed.

Lemma canon_props_kept r : canon_props (kept r) = canon_props r.
Proof.
  rewrite !canon_props_eq. f_equal. rewrite keys_kept, filter_filter_same.
  apply map_ext_in. intros k Hk. f_equal.
  apply list_elem_of_In in Hk. rewrite sort_strings_elem in Hk.
  apply list_elem_of_In, filter_In in Hk as [_ Hk]. apply negb_true_iff in Hk.
  unfold obj_at. by rewrite obj_get_kept, Hk.
Qed.

Lemma tabulate_self r :
  NoDup (keys r) -> map (fun key => (key, obj_at key r)) (keys r) = r.
Proof.
  intros Hnd. unfold keys. rewrite map_map.
  rewrite <- (map_id r) at 2. apply map_ext_in. intros [k v] Hin. simpl.
  unfold obj_at. rewrite (obj_get_elem k v r Hnd); [done|]. by apply list_elem_of_In.
Qed.

Lemma kept_perm {A} (o1 o2 : list (string * A)) : o1 ≡ₚ o2 -> kept o1 ≡ₚ kept o2.
Proof.
  unfold kept. induction 1 as [|[k v] l1 l2 Hp IH|[k1 v1] [k2 v2] l|l1 l2 l3 H1 IH1 H2 IH2];
    simpl; try done.
  - destruct (is_proto k); simpl; by rewrite ?IH.
  - destruct (is_proto k1), (is_proto k2); simpl; try done. apply perm_swap.
  - etrans; eauto.
Qed.

Lemma canon_props_self_perm r : NoDup (keys r) -> canon_props r ≡ₚ kept r.
Proof.
  intros Hnd. unfold canon_props.
  assert (map (fun key => (key, obj_at key r)) (sort_strings (keys r)) ≡ₚ r) as Hp.
  { rewrite sort_strings_perm. by rewrite tabulate_self. }
  rewrite obj_of_entries_perm.
  - by apply kept_perm.
  - unfold keys. rewrite Hp. exact Hnd.
Qed.

Lemma entry_map_fixed (f : json -> json) o :
  Forall (fun kv => f (snd kv) = snd kv) o -> entry_map f o = o.
Proof.
  unfold entry_map. induction 1 as [|[k v] o Hv _ IH]; simpl in *; [done|].
  by rewrite Hv, IH.
Qed.

Lemma sortValue_idempotent v :
  distinct_keys v = true -> sortValue (sortValue v) = sortValue v.
Proof.
  induction v as [|b|n|s|l IH|o IH] using json_induction; intros Hd; try reflexivity.
  - simpl in *. f_equal. rewrite map_map.
    induction IH as [|x l Hx _ IHl]; simpl in *; [done|].
    apply andb_true_iff in Hd as [Hdx Hd]. by rewrite Hx, IHl.
  - rewrite sortValue_obj. simpl in Hd. apply andb_true_iff in Hd as [Hnd Hd].
    apply bool_decide_eq_true in Hnd.
    set (r := entry_map sortValue o).
    assert (NoDup (keys r)) as Hr by (unfold r; by rewrite keys_entry_map).
    assert (Forall (fun kv => sortValue (snd kv) = snd kv) r) as Hfix.
    { unfold r, entry_map. clear Hnd Hr r.
      induction IH as [|[k x] o Hx _ IHl]; simpl in *; constructor.
      - simpl. apply Hx. by apply andb_true_iff in Hd as [-> _].
      - apply IHl. by apply andb_true_iff in Hd as [_ ->]. }
    pose proof (canon_props_self_perm r Hr) as Hp.
    rewrite sortValue_obj. f_equal.
    rewrite entry_map_fixed by (rewrite Hp; by apply Forall_kept).
    transitivity (canon_props (kept r)); [|apply canon_props_kept].
    apply canon_props_perm; [|done].
    unfold keys. rewrite Hp. by apply NoDup_keys_kept.
Qed.

Lemma proto_free_sortValue v :
  distinct_keys v = true -> proto_free (sortValue v) = true.
Proof.
  induction v as [|b|n|s|l IH|o IH] using json_induction; intros Hd; try reflexivity.
  - simpl in *.
    induction IH as [|x l Hx _ IHl]; simpl in *; [done|].
    apply andb_true_iff in Hd as [Hdx Hd]. by rewrite Hx, IHl.
  - rewrite sortValue_obj. simpl in Hd. apply andb_true_iff in Hd as [Hnd Hd].
    apply bool_decide_eq_true in Hnd.
    set (r := entry_map sortValue o).
    assert (NoDup (keys r)) as Hr by (unfold r; by rewrite keys_entry_map).
    assert (Forall (fun kv => proto_free (snd kv) = true) r) as Hfree.
    { unfold r, entry_map. clear Hnd Hr r.
      induction IH as [|[k x] o Hx _ IHl]; simpl in *; constructor.
      - simpl. apply Hx. by apply andb_true_iff in Hd as [-> _].
      - apply IHl. by apply andb_true_iff in Hd as [_ ->]. }
    pose proof (canon_props_self_perm r Hr) as Hp. simpl.
    apply forallb_forall. intros [k x] Hin. simpl.
    apply list_elem_of_In in Hin. rewrite Hp in Hin.
    unfold kept in Hin. apply list_elem_of_In, filter_In in Hin as [Hin Hk].
    simpl in Hk. rewrite Hk. simpl.
    rewrite Forall_forall in Hfree. apply list_elem_of_In in Hin.
    exact (Hfree _ Hin).
Qed.

(** X8: the canonical form is stable: canonicalising it again changes
    nothing, it has the canonical text of the value, and none of its
    objects has a property named [__proto__]. *)
Theorem canonical_form (v : json) :
  distinct_keys v = true ->
  sortValue (sortValue v) = sortValue v
  /\ stableStringify (sortValue v) = stableStringify v
  /\ proto_free (sortValue v) = true.
Proof.
  intros Hd. split; [by apply sortValue_idempotent|]. split.
  - unfold stableStringify. by rewrite sortValue_idempotent.
  - by apply proto_free_sortValue.
Qed.

(** ** More on the file utilities *)

Lemma set_origin_self w : set_origin (origin w) w = w.
Proof. by destruct w. Qed.

Section Files.
Context `{Platform}.

Lemma ancestors_head fuel dir : dir ∈ ancestors fuel dir.
Proof.
  destruct fuel; simpl; [by left|].
  destruct (String.eqb (path_dirname dir) dir); by left.
Qed.

(** X9: on a disk that refuses no write, [writeTextAtomic] returns, and
    what it wrote is what [readTextIfExists] reads; no temporary file
    stays behind, no other file changes, and the parent directory exists
    afterwards. *)
Theorem write_then_read (filePath content : string) (w : World) :
  let w' := (writeTextAtomic filePath content w).2 in
  let temp := temp_path filePath process_pid (clock_ms (ticks w)) in
  (writeTextAtomic filePath content w).1 = Ok tt
  /\ readTextIfExists filePath w' = (Ok (Some content), w')
  /\ files (disk w') !! temp = None
  /\ (forall q, q <> filePath -> q <> temp ->
        files (disk w') !! q = files (disk w) !! q)
  /\ path_dirname filePath ∈ dirs (disk w').
Proof.
  intros w' temp. subst w'. rewrite writeTextAtomic_run. simpl.
  rewrite lookup_insert_eq. simpl. fold temp.
  pose proof (temp_path_fresh filePath process_pid (clock_ms (ticks w))) as Hfresh.
  fold temp in Hfresh.
  split; [done|]. split; [|split; [|split]].
  - apply readTextIfExists_file. simpl. by rewrite lookup_insert_eq.
  - rewrite lookup_insert_ne by done. by rewrite lookup_delete_eq.
  - intros q Hq Ht. rewrite lookup_insert_ne by done.
    rewrite lookup_delete_ne by done. by rewrite lookup_insert_ne.
  - apply elem_of_union_l, elem_of_list_to_set, ancestors_head.
Qed.

(** X10: [copyIfExists] copies a file that exists, after creating the
    directory of the copy, and does nothing at all when the source path
    does not exist. *)
Theorem copyIfExists_spec (fromPath toPath : string) (w : World) :
  match files (disk w) !! fromPath with
  | Some F =>
      exists w', copyIfExists fromPath toPath w = (Ok true, w')
                 /\ files (disk w') = <[toPath := F]> (files (disk w))
                 /\ path_dirname toPath ∈ dirs (disk w')
  | None =>
      fromPath ∉ dirs (disk w) -> copyIfExists fromPath toPath w = (Ok false, w)
  end.
Proof.
  unfold copyIfExists, pathExists, sys_access, ensureParentDir, sys_mkdir_recursive,
    sys_copyFile, issue, bind, ret, is_file, is_dir. simpl.
  destruct (files (disk w) !! fromPath) as [F|] eqn:Hf; simpl.
  - rewrite Hf. simpl. eexists. split; [reflexivity|]. simpl. split; [done|].
    apply elem_of_union_l, elem_of_list_to_set, ancestors_head.
  - intros Hd. by rewrite bool_decide_eq_false_2.
Qed.
End Files.

(** ** Snapshots *)

Section Snapshots.
Context `{Platform}.

Lemma insert_desc_perm x l : insert_desc x l ≡ₚ x :: l.
Proof.
  induction l as [|y l IH]; simpl; [done|].
  destruct (locale_leb x y); [|done]. rewrite IH. apply perm_swap.
Qed.

Lemma sort_desc_perm l : sort_desc l ≡ₚ l.
Proof.
  unfold sort_desc.
  assert (forall acc, fold_left (fun acc x => insert_desc x acc) l acc ≡ₚ acc ++ l) as Hf.
  { induction l as [|x l IH]; intros acc; simpl; [by rewrite app_nil_r|].
    rewrite IH, insert_desc_perm. simpl. apply Permutation_middle. }
  apply Hf.
Qed.

Lemma insert_desc_sorted x l :
  (forall a b, locale_leb a b = true \/ locale_leb b a = true) ->
  descending l -> descending (insert_desc x l).
Proof.
  intros Htotal. unfold descending.
  induction l as [|y l IH]; simpl; intros Hs; [by repeat constructor|].
  apply Sorted_inv in Hs as [Hs Hhd].
  destruct (locale_leb x y) eqn:Hxy.
  - constructor; [by apply IH|].
    destruct l as [|z l]; simpl; [by constructor|].
    apply HdRel_inv in Hhd. destruct (locale_leb x z); by constructor.
  - constructor; [by constructor|]. constructor.
    destruct (Htotal x y) as [Hle|Hle]; [congruence|done].
Qed.

Lemma sort_desc_sorted l :
  (forall a b, locale_leb a b = true \/ locale_leb b a = true) ->
  descending (sort_desc l).
Proof.
  intros Htotal. unfold sort_desc.
  assert (forall acc, descending acc ->
            descending (fold_left (fun acc x => insert_desc x acc) l acc)) as Hf.
  { induction l as [|x l IH]; intros acc Hacc; simpl; [done|].
    apply IH. by apply insert_desc_sorted. }
  apply Hf. constructor.
Qed.

Lemma descending_take n l : descending l -> descending (take n l).
Proof.
  unfold descending. revert n. induction l as [|x l IH]; intros [|n] Hs; simpl;
    try constructor.
  - apply IH. by apply Sorted_inv in Hs as [Hs _].
  - apply Sorted_inv in Hs as [_ Hhd]. destruct l as [|y l]; [destruct n; constructor|].
    apply HdRel_inv in Hhd. destruct n; by constructor.
Qed.

(** X11: [listSnapshots] changes nothing and returns at most [limit]
    names, each the name of a directory directly under the snapshot
    root, in descending order; without a snapshot root it returns the
    empty list. *)
Theorem listSnapshots_spec (limit : nat) (w : World) (ids : list string) :
  (forall a b, locale_leb a b = true \/ locale_leb b a = true) ->
  (listSnapshots limit w).1 = Ok ids ->
  (listSnapshots limit w).2 = w
  /\ length ids <= limit
  /\ descending ids
  /\ (forall id, id ∈ ids ->
        exists p, p ∈ dirs (disk w) /\ path_dirname p = getSnapshotRoot
                  /\ p <> getSnapshotRoot /\ path_basename p = id)
  /\ (files (disk w) !! getSnapshotRoot = None ->
      getSnapshotRoot ∉ dirs (disk w) -> ids = []).
Proof.
  intros Htotal. unfold listSnapshots. cbv zeta. rewrite !bind_eq.
  unfold pathExists, sys_access. simpl.
  destruct (is_file (disk w) getSnapshotRoot || is_dir (disk w) getSnapshotRoot)
    eqn:Hroot; simpl.
  - rewrite !bind_eq. unfold sys_readdir_dirs.
    destruct (is_dir (disk w) getSnapshotRoot) eqn:Hdir; simpl; [|done].
    intros [= <-]. split; [done|]. split; [rewrite length_take; lia|].
    split; [apply descending_take, sort_desc_sorted, Htotal|]. split.
    + intros id Hid. apply elem_of_take in Hid as (i & Hid & _).
      apply list_elem_of_lookup_2 in Hid. rewrite sort_desc_perm in Hid.
      apply list_elem_of_fmap in Hid as (p & -> & Hp).
      apply list_elem_of_In, filter_In in Hp as [Hp Hc].
      apply andb_true_iff in Hc as [Hd Hne]. apply String.eqb_eq in Hd.
      apply negb_true_iff, String.eqb_neq in Hne.
      exists p. repeat split; try done. apply elem_of_elements. by apply list_elem_of_In.
    + intros _ Hno. unfold is_dir in Hdir. apply bool_decide_eq_true in Hdir. done.
  - intros [= <-]. split; [done|]. split; [simpl; lia|]. split; [constructor|].
    split; [intros id Hid; by apply elem_of_nil in Hid|done].
Qed.

(** X12: the meta data that a successful [applyPlan] wrote is what
    [readSnapshotMeta] parses for the returned id. *)
Theorem sync_then_readSnapshotMeta (plans : list AgentPlan) (w : World)
    (res : SyncResult) (w' : World) :
  applyPlan plans w = (Ok res, w') ->
  snapshotDir res = path_join getSnapshotRoot (snapshotId res)
  /\ exists createdAt,
       files (disk w') !! meta_path (snapshotDir res)
         = Some (format_json (meta_value (snapshotId res) createdAt (applied res)))
       /\ readSnapshotMeta (snapshotId res) w'
          = (result_map Some
               (JSON_parse (format_json
                  (meta_value (snapshotId res) createdAt (applied res)))), w').
Proof.
  rewrite applyPlan_eq. cbv zeta.
  destruct (map_M _ plans _) as [[dn|err] w2]; [|done]. intros [= <- <-]. simpl.
  split; [done|]. eexists. split; [by rewrite lookup_insert_eq|].
  unfold readSnapshotMeta. cbv zeta. rewrite bind_eq.
  rewrite pathExists_file by (simpl; by rewrite lookup_insert_eq). simpl.
  rewrite bind_eq. unfold sys_readFile. simpl. rewrite lookup_insert_eq.
  rewrite bind_eq. unfold lift at 1.
  by destruct (JSON_parse _).
Qed.
End Snapshots.

(** ** More on the sync *)

Section SyncMore.
Context `{Platform}.

Lemma with_origin_ret {A} o (a : A) w : with_origin o (ret a) w = (Ok a, w).
Proof. unfold with_origin, ret. simpl. by destruct w. Qed.

(** X13: for an agent whose plan shows no difference, the sync issues no
    call, records that nothing was changed, and the rollback of that
    record issues no call either. *)
Theorem unchanged_agent_untouched (snapDir : string) (plan : AgentPlan) (w : World) :
  hasDiff (diff plan) = false ->
  hasSkillsDiff plan = false ->
  exists entry,
    apply_one snapDir plan w = (Ok entry, w)
    /\ mcpChanged entry = false /\ skillsChanged entry = false
    /\ mcpBackupPath entry = None /\ skillsBackupDir entry = None
    /\ restore_entry (applied_value entry) w = (Ok tt, w).
Proof.
  intros Hd Hs. eexists. split; [|split; [|split; [|split; [|split]]]].
  - unfold apply_one. cbv zeta. rewrite Hd, Hs.
    rewrite bind_eq, with_origin_ret. rewrite bind_eq, with_origin_ret.
    rewrite bind_eq, with_origin_ret. rewrite bind_eq, with_origin_ret. reflexivity.
  - done.
  - done.
  - done.
  - done.
  - unfold restore_entry. cbv zeta. simpl.
    rewrite bind_eq. unfold restoreMcp, restoreSkills. simpl.
    rewrite with_origin_ret. by destruct w.
Qed.

Lemma apply_one_record snapDir q w e w' :
  apply_one snapDir q w = (Ok e, w') ->
  ap_agent e = agent_name (plan_agent q)
  /\ mcpPath e = plan_path q
  /\ mcpChanged e = hasDiff (diff q)
  /\ skillsChanged e = hasSkillsDiff q
  /\ ap_skillsDir e = plan_skillsDir q
  /\ mcpExistedBefore e = fileExists q
  /\ skillsManifestExistedBefore e = skillsManifestExists q
  /\ (hasDiff (diff q) = false -> mcpBackupPath e = None)
  /\ (forall b, mcpBackupPath e = Some b -> b = mcp_backup_path snapDir q).
Proof.
  unfold apply_one. cbv zeta. intros Hrun.
  apply bind_ok in Hrun as (backup & w1 & H1 & Hrun).
  apply bind_ok in Hrun as (skBackup & w2 & H2 & Hrun).
  apply bind_ok in Hrun as ([] & w3 & H3 & Hrun).
  apply bind_ok in Hrun as ([] & w4 & H4 & Hrun).
  injection Hrun as <- <-. simpl. repeat split; try done.
  - intros Hd. rewrite Hd in H1. rewrite with_origin_ret in H1. by injection H1 as <- _.
  - intros b ->. apply with_origin_run in H1 as (w1' & H1 & _).
    destruct (hasDiff (diff q)); [|unfold ret in H1; simpl in H1; discriminate].
    apply bind_ok in H1 as (made & w1'' & _ & Hret). unfold ret in Hret.
    destruct made; [|discriminate]. by injection Hret as <- _.
Qed.

Lemma replace_colon_dot_safe s :
  Forall (fun c => c <> ":"%char /\ c <> "."%char)
         (list_ascii_of_string (replace_colon_dot s)).
Proof.
  induction s as [|c s IH]; simpl; constructor; [|done].
  destruct (Ascii.eqb c ":") eqn:H1; simpl; [done|].
  destruct (Ascii.eqb c ".") eqn:H2; simpl; [done|].
  apply Ascii.eqb_neq in H1, H2. done.
Qed.

(** X14: a successful [applyPlan] returns one record per plan, in the
    order of the plans, each with the agent, path and flags of its plan;
    a backup path is recorded only for a plan with a difference. *)
Theorem applied_follows_plans (plans : list AgentPlan) (w : World)
    (res : SyncResult) (w' : World) :
  applyPlan plans w = (Ok res, w') ->
  Forall2 (fun plan entry =>
             ap_agent entry = agent_name (plan_agent plan)
             /\ mcpPath entry = plan_path plan
             /\ mcpChanged entry = hasDiff (diff plan)
             /\ skillsChanged entry = hasSkillsDiff plan
             /\ ap_skillsDir entry = plan_skillsDir plan
             /\ mcpExistedBefore entry = fileExists plan
             /\ skillsManifestExistedBefore entry = skillsManifestExists plan
             /\ (hasDiff (diff plan) = false -> mcpBackupPath entry = None)
             /\ (forall b, mcpBackupPath entry = Some b ->
                   b = mcp_backup_path (snapshotDir res) plan))
          plans (applied res).
Proof.
  rewrite applyPlan_eq. cbv zeta.
  destruct (map_M _ plans _) as [[dn|err] w2] eqn:Hloop; [|done].
  intros [= <- <-]. simpl. revert Hloop.
  generalize (after_call 1 OSnapshot
                (OpMkdir (ancestors
                   (String.length (path_join getSnapshotRoot
                      (replace_colon_dot (iso_string (clock_ms (ticks w))))))
                   (path_join getSnapshotRoot
                      (replace_colon_dot (iso_string (clock_ms (ticks w))))))) w).
  revert dn w2. induction plans as [|q plans IH]; intros dn w2 w1 Hloop.
  - injection Hloop as <- <-. constructor.
  - apply map_M_cons_ok in Hloop as (y & wa & ys & Hq & Hl & ->).
    constructor; [by apply apply_one_record with w1 wa|]. by apply IH with w2 wa.
Qed.

(** X15: the snapshot id is the reading of the clock at the start of
    [applyPlan] with every colon and dot replaced, so it holds neither;
    it does not depend on the plans or on the disk. *)
Theorem snapshot_id_from_clock (plans : list AgentPlan) (w : World)
    (res : SyncResult) (w' : World) :
  applyPlan plans w = (Ok res, w') ->
  snapshotId res = replace_colon_dot (iso_string (clock_ms (ticks w)))
  /\ snapshotDir res = path_join getSnapshotRoot (snapshotId res)
  /\ Forall (fun c => c <> ":"%char /\ c <> "."%char)
            (list_ascii_of_string (snapshotId res))
  /\ String.length (snapshotId res)
     = String.length (iso_string (clock_ms (ticks w))).
Proof.
  rewrite applyPlan_eq. cbv zeta.
  destruct (map_M _ plans _) as [[dn|err] w2]; [|done]. intros [= <- <-]. simpl.
  split; [done|]. split; [done|]. split; [apply replace_colon_dot_safe|].
  induction (iso_string (clock_ms (ticks w))) as [|c s IH]; simpl; [done|].
  by rewrite IH.
Qed.
End SyncMore.

(** ** More on the planner *)

Lemma elem_keys_obj_set {A} k k' (v : A) o :
  k ∈ keys (obj_set o k' v) <-> k = k' \/ k ∈ keys o.
Proof.
  rewrite <- !obj_has_elem. unfold obj_has. rewrite obj_get_set.
  destruct (String.eqb_spec k k') as [->|Hne].
  - split; [by left|done].
  - split; [by right|]. by intros [?|?].
Qed.

Lemma is_proto_false k : is_proto k = false <-> k <> "__proto__".
Proof. unfold is_proto. apply String.eqb_neq. Qed.

Lemma elem_keys_assign {A} k k' (v : A) o :
  k ∈ keys (assign o k' v) <-> (k = k' /\ k' <> "__proto__") \/ k ∈ keys o.
Proof.
  unfold assign. destruct (is_proto k') eqn:Hp.
  - apply String.eqb_eq in Hp. split; [by right|]. by intros [[_ ?]|?].
  - apply is_proto_false in Hp. rewrite elem_keys_obj_set. naive_solver.
Qed.

Section PlannerMore.
Context `{Platform}.

Lemma normalizeForAgent_keys a adapter config target options desired :
  normalizeForAgent a adapter config target options = Ok desired ->
  forall id, id ∈ keys desired
             <-> enabled_server config a target id /\ id <> "__proto__".
Proof.
  unfold normalizeForAgent, enabled_server.
  set (each := fix each (l : list (string * json)) (acc : list (string * json))
                 : result (list (string * json)) := _).
  assert (forall l acc,
            each l acc = Ok desired ->
            forall id, id ∈ keys desired
                       <-> id ∈ keys acc
                           \/ ((exists server, (id, server) ∈ l
                                  /\ serverEnabledForAgent id server a target = true)
                               /\ id <> "__proto__"))
    as Hloop.
  { induction l as [|[sid server] l IH]; intros acc Hrun id; simpl in Hrun.
    - injection Hrun as <-. split; [by left|]. intros [?|[(? & Hin & _) _]]; [done|].
      by apply elem_of_nil in Hin.
    - destruct (serverEnabledForAgent sid server a target) eqn:Hen; simpl in Hrun.
      + destruct (resolveServerSecrets _ _ _ _) as [resolved|e]; [|done]. simpl in Hrun.
        destruct (normalizeServer adapter sid resolved) as [record|e]; [|done].
        simpl in Hrun. rewrite (IH _ Hrun id), elem_keys_assign. split.
        * intros [[[-> Hne]|Hacc]|[(s' & Hin & Hs') Hne]].
          -- right. split; [|done]. exists server. split; [by left|done].
          -- by left.
          -- right. split; [|done]. exists s'. split; [by right|done].
        * intros [Hacc|[(s' & Hin & Hs') Hne]]; [by left; right|].
          apply elem_of_cons in Hin as [[= -> ->]|Hin]; [by left; left|].
          right. eauto.
      + rewrite (IH _ Hrun id). split.
        * intros [Hacc|[(s' & Hin & Hs') Hne]]; [by left|]. right. split; [|done].
          exists s'. split; [by right|done].
        * intros [Hacc|[(s' & Hin & Hs') Hne]]; [by left|].
          apply elem_of_cons in Hin as [[= -> ->]|Hin]; [congruence|].
          right. eauto. }
  intros Hrun id. rewrite (Hloop _ _ Hrun id). split.
  - intros [Hin|?]; [by apply elem_of_nil in Hin|done].
  - by right.
Qed.

Lemma plan_for_plan config options configDir adapter w plan w' :
  plan_for config options configDir adapter w = (Ok plan, w') ->
  plan_agent plan = agent adapter
  /\ plan_adapter plan = adapter
  /\ targetConfig plan = target_of config (agent adapter)
  /\ diff plan = diffServerMaps (currentServers plan) (desiredServers plan)
  /\ skillsDiff plan = diffServerMaps (skill_values (currentSkills plan))
                                      (skill_values (desiredSkills plan))
  /\ normalizeForAgent (agent adapter) adapter config
       (target_of config (agent adapter)) options = Ok (desiredServers plan)
  /\ extractServers adapter (currentData plan) = Ok (currentServers plan).
Proof.
  unfold plan_for. intros Hplan.
  apply bind_ok in Hplan as (targetPath & w1 & Htarget & Hplan).
  apply bind_ok in Hplan as (loaded & w2 & Hloaded & Hplan).
  apply bind_ok in Hplan as (current & w3 & Hcur & Hplan).
  apply bind_ok in Hplan as (desired & w4 & Hdes & Hplan).
  apply bind_ok in Hplan as (st & w5 & _ & Hplan).
  apply bind_ok in Hplan as (sk & w6 & _ & Hplan).
  unfold ret in Hplan. injection Hplan as <- <-. simpl.
  unfold lift in Hcur, Hdes.
  destruct (extractServers adapter (data loaded)); [|done].
  destruct (normalizeForAgent _ _ _ _ _); [|done].
  injection Hcur as <- _. injection Hdes as <- _. done.
Qed.

Lemma map_M_Forall2 {A B} (f : A -> M B) (l : list A) : forall w ys w',
  map_M f l w = (Ok ys, w') ->
  Forall2 (fun x y => exists w1 w2, f x w1 = (Ok y, w2)) l ys.
Proof.
  induction l as [|x l IH]; intros w ys w' Hrun.
  - injection Hrun as <- <-. constructor.
  - apply map_M_cons_ok in Hrun as (y & w1 & ys' & Hx & Hl & ->).
    constructor; [eauto|]. by apply IH with w1 w'.
Qed.

Lemma selected_adapters (keep : AgentName -> bool) :
  map agent (List.filter (fun item => keep (agent item)) getAdapters)
  = List.filter keep AGENTS.
Proof.
  unfold getAdapters, AGENTS. simpl.
  destruct (keep codex), (keep gemini), (keep claude), (keep vscode),
    (keep antigravity); reflexivity.
Qed.

(** X16: [buildPlan] returns one plan for each selected agent, in the
    fixed order of the agent list whatever the order of the selection;
    the desired servers of a plan are exactly the servers switched on
    for its agent, except one with the id [__proto__], which the map
    cannot hold; its diff is the diff of current against desired. *)
Theorem plans_follow_selection (config : UnifiedConfig) (options : BuildPlanOptions)
    (w : World) (plans : list AgentPlan) (w' : World) :
  buildPlan config options w = (Ok plans, w') ->
  map plan_agent plans
  = List.filter (fun a => bool_decide (a ∈ default AGENTS (opt_agents options))) AGENTS
  /\ Forall (fun plan =>
               targetConfig plan = target_of config (plan_agent plan)
               /\ diff plan = diffServerMaps (currentServers plan) (desiredServers plan)
               /\ skillsDiff plan
                  = diffServerMaps (skill_values (currentSkills plan))
                                   (skill_values (desiredSkills plan))
               /\ forall id, id ∈ keys (desiredServers plan)
                    <-> enabled_server config (plan_agent plan) (targetConfig plan) id
                        /\ id <> "__proto__")
            plans.
Proof.
  unfold buildPlan. cbv zeta. intros Hrun. apply map_M_Forall2 in Hrun.
  split.
  - rewrite <- (selected_adapters
                 (fun a => bool_decide (a ∈ default AGENTS (opt_agents options)))).
    induction Hrun as [|adapter plan l ys (w1 & w2 & Hp) _ IH]; simpl; [done|].
    apply plan_for_plan in Hp as (-> & _). by rewrite IH.
  - induction Hrun as [|adapter plan l ys (w1 & w2 & Hp) _ IH]; constructor; [|done].
    apply plan_for_plan in Hp as (Ha & _ & Ht & Hd & Hs & Hn & _).
    rewrite Ha, Ht. split; [done|]. split; [done|]. split; [done|].
    intros id. exact (normalizeForAgent_keys _ _ _ _ _ _ Hn id).
Qed.
End PlannerMore.

(** ** More on the rollback *)

Section RollbackMore.
Context `{Platform}.

Lemma Q_for_nil agents o : Q_for agents o [].
Proof. constructor. Qed.

Lemma Q_for_app agents o c1 c2 :
  Q_for agents o c1 -> Q_for agents o c2 -> Q_for agents o (c1 ++ c2).
Proof. unfold Q_for, on_behalf_of. intros. by apply Forall_app. Qed.

Lemma for_with_origin {A} agents o (m : M A) :
  (exists name, name ∈ agents /\ (o = OMcp name \/ o = OSkills name)) ->
  emits Q_leaf m -> emits (Q_for agents) (with_origin o m).
Proof.
  intros Ho. apply emits_with_origin. intros o' c [Hl _].
  unfold Q_for, on_behalf_of. eapply Forall_impl; [exact Hl|].
  intros [o1 op]. simpl. by intros ->.
Qed.

Lemma selected_restore_entry agents item :
  agent_selected agents item = true -> emits (Q_for agents) (restore_entry item).
Proof.
  unfold agent_selected. destruct (prop "agent" item) as [[| | |a| |]|] eqn:Ha;
    try discriminate.
  intros Hin%includes_elem. unfold restore_entry. cbv zeta. rewrite Ha. simpl.
  apply emits_bind; [apply Q_for_app| |intros _].
  - apply for_with_origin; [eauto|apply leaf_restoreMcp].
  - apply for_with_origin; [eauto|apply leaf_restoreSkills].
Qed.

Lemma selected_loop agents items :
  Forall (fun item => agent_selected agents item = true) items ->
  emits (Q_for agents) (for_each items restore_entry).
Proof.
  induction 1 as [|item items Hi _ IH]; simpl.
  - apply emits_ret, Q_for_nil.
  - apply emits_bind; [apply Q_for_app|by apply selected_restore_entry|]. by intros _.
Qed.

Lemma filter_Forall {A} (p : A -> bool) l : Forall (fun x => p x = true) (List.filter p l).
Proof.
  apply Forall_forall. intros x Hx. by apply list_elem_of_In, filter_In in Hx as [_ ?].
Qed.

(** X17: a rollback restricted to some agents issues calls for these
    agents only, and returns only their records. *)
Theorem rollback_respects_selection (id a : string) (l : list string) (w : World) :
  on_behalf_of (a :: l) (since w (rollbackSnapshot id (Some (a :: l)) w).2)
  /\ forall restored,
       (rollbackSnapshot id (Some (a :: l)) w).1 = Ok restored ->
       Forall (fun item => agent_selected (a :: l) item = true) restored.
Proof.
  assert (emits (Q_for (a :: l)) (rollbackSnapshot id (Some (a :: l)))) as Hemit.
  { unfold rollbackSnapshot. cbv zeta.
    apply emits_bind; [apply Q_for_app| |intros [raw|]].
    - apply emits_pure; [apply Q_for_nil|apply readonly_readTextIfExists].
    - apply emits_bind; [apply Q_for_app|apply emits_lift, Q_for_nil|intros parsed].
      apply emits_bind; [apply Q_for_app|apply emits_lift, Q_for_nil|intros entries].
      apply emits_bind; [apply Q_for_app| |intros _; apply emits_ret, Q_for_nil].
      apply selected_loop, filter_Forall.
    - apply emits_throw, Q_for_nil. }
  split.
  - by destruct (emits_since _ _ w Hemit) as (_ & _ & _ & Hq).
  - intros restored. unfold rollbackSnapshot. cbv zeta. rewrite bind_eq.
    destruct (readTextIfExists _ w) as [[[raw|]|err] w1]; simpl; try done.
    rewrite bind_eq. unfold lift at 1. destruct (JSON_parse raw) as [parsed|err];
      simpl; [|done].
    rewrite bind_eq. unfold lift at 1.
    destruct (applied_entries parsed) as [entries|err]; simpl; [|done].
    rewrite bind_eq. destruct (for_each _ _ _) as [[[]|err] w2]; simpl; [|done].
    intros [= <-]. apply filter_Forall.
Qed.
End RollbackMore.

(** ** Planning again after a sync *)

Section Replan.
Context `{Platform}.

Lemma diff_self_none A : hasDiff (diffServerMaps A A) = false.
Proof.
  rewrite hasDiff_false, diffServerMaps_eq. simpl.
  rewrite !sort_strings_nil_iff, !filter_nil_iff. split; [|split].
  - intros id Hid. unfold is_added. by apply negb_false_iff, obj_has_elem.
  - intros id Hid. by apply negb_false_iff, obj_has_elem.
  - intros id Hid. unfold is_changed.
    assert (same_value A A id = true) as -> by (by apply same_value_text).
    simpl. apply andb_false_r.
Qed.

Lemma json_adapter_shape adapter :
  adapter ∈ json_adapters ->
  exists what key,
    load adapter = load_with JSON_parse what (createEmpty adapter)
    /\ format adapter = format_json
    /\ extractServers adapter = extract_key key
    /\ withServers adapter = with_key key.
Proof.
  unfold json_adapters. rewrite !elem_of_cons, elem_of_nil.
  intros [->|[->|[->|[]]]]; simpl; eauto 10.
Qed.

(** X18: what the step of the sync wrote to the native file is what
    [load] reads next: the file holds the text the adapter formatted,
    and [load] returns what [JSON.parse] makes of that text. *)
Theorem load_after_sync (snapDir : string) (plan : AgentPlan) (w : World)
    (entry : AppliedAgent) (w' : World) :
  let adapter := plan_adapter plan in
  let text := format_json (withServers adapter (currentData plan) (desiredServers plan)) in
  adapter ∈ json_adapters ->
  hasDiff (diff plan) = true ->
  apply_one snapDir plan w = (Ok entry, w') ->
  isolated_file (agent_name (plan_agent plan)) (plan_path plan)
                (mcp_backup_path snapDir plan) (since w w') ->
  files (disk w') !! plan_path plan = Some text
  /\ (trim text = "" ->
        load adapter (plan_path plan) w'
        = (Ok {| exists_ := false; data := createEmpty adapter |}, w'))
  /\ (trim text <> "" ->
        (forall d, JSON_parse text = Ok d ->
           load adapter (plan_path plan) w' = (Ok {| exists_ := true; data := d |}, w'))
        /\ (forall e, JSON_parse text = Throw e ->
              exists message, load adapter (plan_path plan) w' = (Throw message, w'))).
Proof.
  intros adapter text Hin Hdiff Hrun Hiso. apply isolated_file_isolated in Hiso.
  destruct (own_apply_one snapDir plan w entry w' Hrun Hdiff Hiso) as (Hfile & _).
  unfold serialized in Hfile. fold adapter in Hfile.
  destruct (json_adapter_shape _ Hin) as (what & key & Hload & Hformat & Hext & Hwith).
  rewrite Hformat in Hfile. fold text in Hfile.
  split; [done|]. rewrite Hload. unfold load_with. rewrite !bind_eq.
  rewrite (readTextIfExists_file _ _ _ Hfile). split.
  - intros Hblank. by rewrite Hblank.
  - intros Hblank. apply String.eqb_neq in Hblank. rewrite Hblank. split.
    + intros d Hd. by rewrite Hd.
    + intros e He. rewrite He. by eexists.
Qed.
End Replan.

(** ** Skills *)

Section SkillsMore.
Context `{Platform}.

(** X19: a skills manifest that is missing, empty or white space reads as
    no managed skills, without an error and without touching the disk. *)
Theorem readManagedSkills_absent (skillsDir : string) (w : World) :
  (files (disk w) !! getManifestPath skillsDir = None
   /\ getManifestPath skillsDir ∉ dirs (disk w))
  \/ (exists raw, files (disk w) !! getManifestPath skillsDir = Some raw
                  /\ trim raw = "") ->
  readManagedSkills skillsDir w
  = (Ok {| manifestExists := false; manifest := empty_manifest; skillsById := [] |}, w).
Proof.
  unfold readManagedSkills. cbv zeta. rewrite bind_eq.
  intros [[Hno Hd]|(raw & Hraw & Hblank)].
  - by rewrite (readTextIfExists_missing _ _ Hno Hd).
  - rewrite (readTextIfExists_file _ _ _ Hraw). by rewrite Hblank.
Qed.

(** X20: the desired skills of an agent are exactly the skills switched on
    for it, except one with the id [__proto__], which the map cannot
    hold; a skill without a file name gets its id followed by [.md], and
    a skill with inline content gets that content. *)
Theorem desired_skills_enabled_only (config : UnifiedConfig) (a : AgentName)
    (target : TargetConfig) (configDir : string) (w : World)
    (desired : list (string * SkillMaterialized)) (w' : World) :
  buildDesiredSkills config a target configDir w = (Ok desired, w') ->
  w' = w
  /\ (forall id, id ∈ keys desired
        <-> (exists skill, (id, skill) ∈ default [] (skills_items config)
               /\ skillEnabledForAgent id skill a target = true)
            /\ id <> "__proto__")
  /\ (forall id m, obj_get id desired = Some m ->
        exists skill, (id, skill) ∈ default [] (skills_items config)
          /\ skillEnabledForAgent id skill a target = true
          /\ sm_fileName m = default (id +:+ ".md") (fileName skill)
          /\ (forall text, content skill = Some text -> sm_content m = text)).
Proof.
  intros Hrun. split.
  { pose proof (readonly_buildDesiredSkills config a target configDir w) as Hr.
    by rewrite Hrun in Hr. }
  revert Hrun. unfold buildDesiredSkills. cbv zeta.
  set (each := fix each (l : list (string * UnifiedSkill))
                 (acc : list (string * SkillMaterialized))
                 : M (list (string * SkillMaterialized)) := _).
  assert (forall l acc w0 w1,
            each l acc w0 = (Ok desired, w1) ->
            (forall id, id ∈ keys desired
               <-> id ∈ keys acc
                   \/ ((exists skill, (id, skill) ∈ l
                          /\ skillEnabledForAgent id skill a target = true)
                       /\ id <> "__proto__"))
            /\ (forall id m, obj_get id desired = Some m ->
                  obj_get id acc = Some m
                  \/ exists skill, (id, skill) ∈ l
                       /\ skillEnabledForAgent id skill a target = true
                       /\ sm_fileName m = default (id +:+ ".md") (fileName skill)
                       /\ (forall text, content skill = Some text ->
                             sm_content m = text))) as Hloop.
  { induction l as [|[sid skill] l IH]; intros acc w0 w1 Hrun; simpl in Hrun.
    - injection Hrun as <- <-. split.
      + intros id. split; [by left|]. intros [?|[(? & Hin & _) _]]; [done|].
        by apply elem_of_nil in Hin.
      + intros id m Hm. by left.
    - destruct (skillEnabledForAgent sid skill a target) eqn:Hen; simpl in Hrun.
      + apply bind_ok in Hrun as (text & w2 & Htext & Hrun).
        destruct (IH _ _ _ Hrun) as [Hk Hv]. split.
        * intros id. rewrite (Hk id), elem_keys_assign. split.
          -- intros [[[-> Hne]|Hacc]|[(s' & Hin & Hs') Hne]].
             ++ right. split; [|done]. exists skill. split; [by left|done].
             ++ by left.
             ++ right. split; [|done]. exists s'. split; [by right|done].
          -- intros [Hacc|[(s' & Hin & Hs') Hne]]; [by left; right|].
             apply elem_of_cons in Hin as [[= -> ->]|Hin]; [by left; left|].
             right. eauto.
        * intros id m Hm. destruct (Hv id m Hm) as [Hacc|(s' & Hin & Hs')].
          -- unfold assign in Hacc. destruct (is_proto sid); [by left|].
             rewrite obj_get_set in Hacc.
             destruct (String.eqb_spec id sid) as [->|Hne]; [|by left].
             injection Hacc as <-. right. exists skill. simpl.
             split; [by left|]. split; [done|]. split; [done|].
             intros text' Hc. unfold loadSkillContent in Htext. rewrite Hc in Htext.
             by injection Htext as <- _.
          -- right. exists s'. split; [by right|done].
      + destruct (IH _ _ _ Hrun) as [Hk Hv]. split.
        * intros id. rewrite (Hk id). split.
          -- intros [Hacc|[(s' & Hin & Hs') Hne]]; [by left|]. right. split; [|done].
             exists s'. split; [by right|done].
          -- intros [Hacc|[(s' & Hin & Hs') Hne]]; [by left|].
             apply elem_of_cons in Hin as [[= -> ->]|Hin]; [congruence|].
             right. eauto.
        * intros id m Hm. destruct (Hv id m Hm) as [Hacc|(s' & Hin & Hs')];
            [by left|]. right. exists s'. split; [by right|done]. }
  intros Hrun. destruct (Hloop _ _ _ _ Hrun) as [Hk Hv]. split.
  - intros id. rewrite (Hk id). split.
    + intros [Hin|?]; [by apply elem_of_nil in Hin|done].
    + by right.
  - intros id m Hm. by destruct (Hv id m Hm) as [?|?].
Qed.
End SkillsMore.

(** ** The importer *)

Lemma import_entry_usable id entry :
  usable entry = true <-> exists server, import_entry id entry = inl server.
Proof.
  unfold usable, import_entry. destruct entry; try (split; [done|by intros [? ?]]).
  destruct (toNonEmptyString (prop "url" _)); [split; eauto|].
  destruct (toNonEmptyString (prop "command" _)); [split; eauto|].
  split; [done|by intros [? ?]].
Qed.

Lemma import_step_fields st id entry :
  let st' := import_step st (id, entry) in
  st_imported st' = st_imported st ++ (if usable entry then [id] else [])
  /\ st_skipped st' = st_skipped st ++ (if usable entry then [] else [id])
  /\ length (st_warnings st') + length (st_skipped st)
     = length (st_warnings st) + length (st_skipped st').
Proof.
  unfold import_step. simpl.
  destruct (usable entry) eqn:Hu.
  - apply (import_entry_usable id) in Hu as [server Hu]. rewrite Hu. simpl.
    by rewrite app_nil_r.
  - destruct (import_entry id entry) as [server|m] eqn:He.
    + assert (usable entry = true) by (apply (import_entry_usable id); eauto).
      congruence.
    + simpl. rewrite app_nil_r, !length_app. simpl. repeat split; lia.
Qed.

Lemma import_loop entries : forall st,
  let st' := fold_left import_step entries st in
  st_imported st' = st_imported st ++ keys (List.filter (fun e => usable (snd e)) entries)
  /\ st_skipped st'
     = st_skipped st ++ keys (List.filter (fun e => negb (usable (snd e))) entries)
  /\ length (st_warnings st') + length (st_skipped st)
     = length (st_warnings st) + length (st_skipped st').
Proof.
  induction entries as [|[id entry] entries IH]; intros st; simpl.
  - by rewrite !app_nil_r.
  - destruct (IH (import_step st (id, entry))) as (Hi & Hs & Hw).
    destruct (import_step_fields st id entry) as (Hi1 & Hs1 & Hw1).
    simpl in Hi1, Hs1, Hw1.
    split; [|split].
    + rewrite Hi, Hi1, <- app_assoc. by destruct (usable entry).
    + rewrite Hs, Hs1, <- app_assoc. by destruct (usable entry).
    + lia.
Qed.

Lemma filter_partition_perm {A} (p : A -> bool) l :
  List.filter p l ++ List.filter (fun x => negb (p x)) l ≡ₚ l.
Proof.
  induction l as [|x l IH]; simpl; [done|].
  destruct (p x); simpl; [by rewrite IH|].
  rewrite <- Permutation_middle. by rewrite IH.
Qed.

Lemma import_result input entries r :
  prop "mcpServers" input = Some (JObj entries) ->
  importFromMcpRouterJson input = Ok r ->
  let st := fold_left import_step entries import_start in
  st_imported st <> []
  /\ importedServerIds r = sort_strings (st_imported st)
  /\ skippedServerIds r = sort_strings (st_skipped st)
  /\ warnings r = st_warnings st
  /\ mcp_servers (ir_config r) = st_servers st
  /\ forall a, target_of (ir_config r) a
       = {| enabled := Some true; allow := Some (importedServerIds r);
            deny := None; outputPath := None;
            skillsEnabled := None; allowSkills := None;
            denySkills := None; skillsOutputDir := None |}.
Proof.
  intros Hprop. unfold importFromMcpRouterJson.
  assert (match input with JObj _ | JArr _ => True | _ => False end) as Hin
    by (by destruct input).
  destruct input; try done; rewrite Hprop; cbv zeta.
  all: destruct (st_imported (fold_left import_step entries import_start)) eqn:Himp;
    [done|].
  all: intros [= <-]; cbn [importedServerIds skippedServerIds warnings ir_config
                            mcp_servers]; repeat split; done.
Qed.

Lemma import_failure input entries :
  prop "mcpServers" input = Some (JObj entries) ->
  st_imported (fold_left import_step entries import_start) = [] ->
  importFromMcpRouterJson input = Throw "No valid MCP servers were imported.".
Proof.
  intros Hprop Himp. unfold importFromMcpRouterJson.
  assert (match input with JObj _ | JArr _ => True | _ => False end) as Hin
    by (by destruct input).
  destruct input; try done; rewrite Hprop; cbv zeta; by rewrite Himp.
Qed.

Lemma import_success input entries :
  prop "mcpServers" input = Some (JObj entries) ->
  st_imported (fold_left import_step entries import_start) <> [] ->
  exists r, importFromMcpRouterJson input = Ok r.
Proof.
  intros Hprop Himp. unfold importFromMcpRouterJson.
  assert (match input with JObj _ | JArr _ => True | _ => False end) as Hin
    by (by destruct input).
  destruct input; try done; rewrite Hprop; cbv zeta;
    destruct (st_imported (fold_left import_step entries import_start)); try done; eauto.
Qed.

Lemma none_usable entries :
  forallb (fun e : string * json => negb (usable (snd e))) entries = true
  <-> st_imported (fold_left import_step entries import_start) = [].
Proof.
  destruct (import_loop entries import_start) as (Hi & _ & _). simpl in Hi.
  rewrite Hi. unfold keys. clear. induction entries as [|[id e] entries IH]; simpl.
  - done.
  - destruct (usable e); simpl; [split; done|]. exact IH.
Qed.

(** X21: the importer sorts the ids of [mcpServers] into imported and
    skipped: an id is imported exactly when its entry is an object with a
    non-blank [url] or [command]; each id lands in one list, both lists
    are sorted, and there is one warning for each skipped id. *)
Theorem import_classifies (input : json) (entries : list (string * json))
    (r : ImportResult) :
  prop "mcpServers" input = Some (JObj entries) ->
  importFromMcpRouterJson input = Ok r ->
  importedServerIds r
    = sort_strings (keys (List.filter (fun e => usable (snd e)) entries))
  /\ skippedServerIds r
     = sort_strings (keys (List.filter (fun e => negb (usable (snd e))) entries))
  /\ importedServerIds r ++ skippedServerIds r ≡ₚ keys entries
  /\ importedServerIds r <> []
  /\ length (warnings r) = length (skippedServerIds r).
Proof.
  intros Hprop Hr.
  destruct (import_result _ _ _ Hprop Hr) as (Hne & Hi & Hs & Hw & _).
  destruct (import_loop entries import_start) as (Hi' & Hs' & Hw').
  cbv zeta in *. cbn [import_start st_imported st_skipped st_warnings app length] in Hi', Hs', Hw'.
  rewrite Hi, Hs, Hw, <- Hi', <- Hs'. split; [done|]. split; [done|].
  split; [|split].
  - rewrite !sort_strings_perm, Hi', Hs'. unfold keys. rewrite <- map_app.
    by rewrite filter_partition_perm.
  - intros Hnil. apply Hne. by apply sort_strings_nil_iff.
  - pose proof (sort_strings_perm (st_skipped (fold_left import_step entries import_start)))
      as Hp.
    apply Permutation_length in Hp. rewrite Hp. lia.
Qed.

(** X22: the importer fails on a document that is not an object, on one
    without an object [mcpServers], and when no entry can be used; in
    every other case it succeeds. *)
Theorem import_succeeds_iff (input : json) :
  (match input with
   | JObj _ | JArr _ => True
   | _ => importFromMcpRouterJson input = Throw "Invalid JSON document."
   end)
  /\ (forall o, input = JObj o ->
        (forall entries, obj_get "mcpServers" o <> Some (JObj entries)) ->
        importFromMcpRouterJson input = Throw missing_mcpServers)
  /\ (forall entries, prop "mcpServers" input = Some (JObj entries) ->
        (forallb (fun e => negb (usable (snd e))) entries = true ->
           importFromMcpRouterJson input = Throw "No valid MCP servers were imported.")
        /\ (forallb (fun e => negb (usable (snd e))) entries = false ->
              exists r, importFromMcpRouterJson input = Ok r)).
Proof.
  split; [by destruct input|]. split.
  - intros o -> Hno. unfold importFromMcpRouterJson. simpl.
    destruct (obj_get "mcpServers" o) as [[| | | | |entries]|] eqn:Hm; try done.
    by destruct (Hno entries).
  - intros entries Hprop. split; intros Hu.
    + apply none_usable in Hu. by apply import_failure with entries.
    + apply import_success with entries; [done|]. intros Hnil.
      apply none_usable in Hnil. congruence.
Qed.

Lemma toNonEmptyString_truthy v s :
  toNonEmptyString v = Some s -> truthy (Some (JStr s)) = true.
Proof.
  unfold toNonEmptyString. destruct v as [[| | |x| |]|]; try done.
  destruct (0 <? String.length (trim x))%nat eqn:Hlen; [|done].
  intros [= <-]. simpl. destruct (trim x); [done|done].
Qed.

Lemma import_entry_syncable id entry server :
  import_entry id entry = inl server -> syncable server.
Proof.
  unfold import_entry. destruct entry; try done.
  destruct (toNonEmptyString (prop "url" _)) as [u|] eqn:Hu.
  - intros [= <-]. apply toNonEmptyString_truthy in Hu.
    assert (forall t h, syncable (remote_server (if String.eqb t "http" then "http" else "sse")
                                    u h)) as Hr.
    { intros t h. unfold syncable, remote_server, is_stdio.
      destruct (String.eqb t "http"); destruct h; simpl; (split; [done|by intros []]). }
    match goal with
    | |- context [match ?x with Some _ => _ | None => "sse" end] => destruct x as [t|]
    end.
    + apply Hr.
    + apply (Hr "sse").
  - destruct (toNonEmptyString (prop "command" _)) as [c|] eqn:Hc; [|done].
    intros [= <-]. apply toNonEmptyString_truthy in Hc.
    unfold syncable, stdio_server, is_stdio.
    destruct (toStringArray _); destruct (toStringRecord _); simpl;
      (split; [done|by intros []]).
Qed.

Lemma obj_get_assign {A} k k' (v : A) o :
  obj_get k (assign o k' v)
  = if is_proto k' then obj_get k o
    else if String.eqb k k' then Some v else obj_get k o.
Proof. unfold assign. destruct (is_proto k'); [done|]. apply obj_get_set. Qed.

Lemma import_servers entries : forall st,
  (forall id, id ∈ st_imported st /\ id <> "__proto__"
              <-> is_Some (obj_get id (st_servers st))) ->
  (forall id server, obj_get id (st_servers st) = Some server -> syncable server) ->
  let st' := fold_left import_step entries st in
  (forall id, id ∈ st_imported st' /\ id <> "__proto__"
              <-> is_Some (obj_get id (st_servers st')))
  /\ (forall id server, obj_get id (st_servers st') = Some server -> syncable server).
Proof.
  induction entries as [|[k entry] entries IH]; intros st Hids Hgood; simpl; [done|].
  apply IH; unfold import_step; simpl.
  - intros id. destruct (import_entry k entry) as [server|m]; simpl; [|apply Hids].
    rewrite elem_of_app, list_elem_of_singleton, obj_get_assign.
    destruct (is_proto k) eqn:Hk.
    + rewrite <- Hids. apply String.eqb_eq in Hk. subst k. naive_solver.
    + apply is_proto_false in Hk.
      destruct (String.eqb_spec id k) as [->|Hne]; [|rewrite <- Hids; naive_solver].
      split; [eauto|]. intros _. split; [by right|done].
  - intros id server. destruct (import_entry k entry) as [s|m] eqn:He; simpl; [|apply Hgood].
    rewrite obj_get_assign. destruct (is_proto k); [apply Hgood|].
    destruct (String.eqb_spec id k) as [->|Hne]; [|apply Hgood].
    intros [= <-]. by apply import_entry_syncable in He.
Qed.

Lemma import_ok_entries input r :
  importFromMcpRouterJson input = Ok r ->
  exists entries, prop "mcpServers" input = Some (JObj entries).
Proof.
  unfold importFromMcpRouterJson.
  destruct input as [| | | |l|o]; try done;
    destruct (prop "mcpServers" _) as [[| | | | |entries]|]; try done; eauto.
Qed.

Section Imported.
Context `{Platform}.

Lemma normalize_syncable adapter serverId server :
  adapter ∈ source_adapters ->
  truthy (prop (if is_stdio server then "command" else "url") server) = true ->
  exists record, normalizeServer adapter serverId server = Ok (JObj record).
Proof.
  intros Hin. destruct (adapter_normalize adapter Hin) as (b1 & b2 & b3 & ->).
  unfold normalize_with. destruct (is_stdio server); intros Ht.
  - destruct (prop "command" server) as [c|]; [|done]. rewrite Ht. eauto.
  - destruct (prop "url" server) as [u|]; [|done]. rewrite Ht. eauto.
Qed.

(** X23: what the importer produces can be synchronised as it is: the
    servers of the new configuration are the imported ids, except an id
    [__proto__], which the map of servers cannot hold; each server is
    enabled for every agent under the targets the importer writes, and
    each has a native record in every dialect. *)
Theorem imported_servers_sync (input : json) (r : ImportResult) :
  importFromMcpRouterJson input = Ok r ->
  forall id,
    (id ∈ importedServerIds r /\ id <> "__proto__"
     <-> is_Some (obj_get id (mcp_servers (ir_config r))))
    /\ forall server, obj_get id (mcp_servers (ir_config r)) = Some server ->
         (forall a, serverEnabledForAgent id server a (target_of (ir_config r) a) = true)
         /\ Forall (fun adapter =>
                      exists record, normalizeServer adapter id server = Ok (JObj record))
                   source_adapters.
Proof.
  intros Hr id. destruct (import_ok_entries _ _ Hr) as [entries Hprop].
  destruct (import_result _ _ _ Hprop Hr) as (_ & Hi & _ & _ & Hs & Ht).
  destruct (import_servers entries import_start) as [Hids Hgood].
  { intros k. simpl. split; [by intros [?%elem_of_nil _]|by intros [? ?]]. }
  { intros k server. simpl. done. }
  cbv zeta in *. rewrite Hs.
  assert (id ∈ importedServerIds r /\ id <> "__proto__"
          <-> is_Some (obj_get id (st_servers (fold_left import_step entries import_start))))
    as Hid.
  { rewrite Hi, <- Hids. by rewrite sort_strings_perm. }
  split; [exact Hid|]. intros server Hget.
  destruct (Hgood _ _ Hget) as [Hfield Hflags]. split.
  - intros a. unfold serverEnabledForAgent. rewrite Ht. simpl.
    assert (includes id (importedServerIds r) = true) as ->.
    { apply includes_elem. apply Hid. eauto. }
    rewrite andb_false_r. by rewrite Hflags.
  - apply Forall_forall. intros adapter Hin. by apply normalize_syncable.
Qed.
End Imported.

(** ** The agent lists *)

Lemma agent_of_name_name a : agent_of_name (agent_name a) = Some a.
Proof. by destruct a. Qed.

Lemma agent_of_name_some name a : agent_of_name name = Some a -> agent_name a = name.
Proof.
  unfold agent_of_name. intros Hf. apply find_some in Hf as [_ He].
  by apply String.eqb_eq in He.
Qed.

Lemma check_agents_ok requested l :
  check_agents requested = Ok l <-> map agent_name l = requested.
Proof.
  revert l. induction requested as [|name rest IH]; intros l; simpl.
  - split; [by intros [= <-]|]. by destruct l.
  - destruct (agent_of_name name) as [a|] eqn:Ha.
    + destruct (check_agents rest) as [l'|m]; simpl.
      * split.
        -- intros [= <-]. simpl. f_equal; [by apply agent_of_name_some|by apply IH].
        -- destruct l as [|b l]; [done|]. simpl. intros [= Hb Hl].
           apply IH in Hl. injection Hl as ->.
           rewrite <- Hb, agent_of_name_name in Ha. by injection Ha as ->.
      * split; [done|]. destruct l as [|b l]; [done|]. simpl. intros [= Hb Hl].
        by apply IH in Hl.
    + split; [done|]. destruct l as [|b l]; [done|]. simpl. intros [= Hb Hl].
      by rewrite <- Hb, agent_of_name_name in Ha.
Qed.

Lemma check_agents_throw requested m :
  check_agents requested = Throw m ->
  exists name, name ∈ requested /\ agent_of_name name = None /\ m = invalid_agent name.
Proof.
  induction requested as [|name rest IH]; simpl; [done|].
  destruct (agent_of_name name) as [a|] eqn:Ha.
  - destruct (check_agents rest) as [l'|m']; simpl; [done|].
    intros [= <-]. destruct IH as (n & Hin & Hn & ->); [done|].
    exists n. split; [by right|done].
  - intros [= <-]. exists name. split; [by left|done].
Qed.

Lemma parseAgents_spec_ok s l :
  s <> "" ->
  map agent_name l
  = List.filter (fun entry => (0 <? String.length entry)%nat) (map trim (split_on "," s)) ->
  parseAgents (Some s) = Ok (Some l).
Proof.
  intros Hs Hl. unfold parseAgents.
  destruct (String.eqb_spec s "") as [->|_]; [done|].
  apply check_agents_ok in Hl. by rewrite Hl.
Qed.

(** X24: [parseAgents] returns the requested names as they are listed,
    white space and empty pieces dropped, order and repetitions kept; it
    fails exactly when one of them is not an agent, naming one that is
    not. *)
Theorem parseAgents_spec (s : string) :
  s <> "" ->
  let requested :=
    List.filter (fun entry => (0 <? String.length entry)%nat)
                (map trim (split_on "," s)) in
  (forall l, parseAgents (Some s) = Ok (Some l) <-> map agent_name l = requested)
  /\ (forall r, parseAgents (Some s) = Ok r -> r <> None)
  /\ (forall m, parseAgents (Some s) = Throw m ->
        exists name, name ∈ requested /\ agent_of_name name = None
                     /\ m = invalid_agent name).
Proof.
  intros Hs requested. unfold parseAgents.
  destruct (String.eqb_spec s "") as [->|_]; [done|]. fold requested.
  split; [|split].
  - intros l. rewrite <- check_agents_ok.
    destruct (check_agents requested); simpl; split; congruence.
  - intros r. destruct (check_agents requested); simpl; congruence.
  - intros m. destruct (check_agents requested) eqn:Hc; simpl; [done|].
    intros [= <-]. by apply check_agents_throw.
Qed.

Lemma split_on_piece x :
  no_comma x = true -> split_on "," x = [x].
Proof.
  unfold no_comma. induction x as [|c x IH]; simpl; [done|].
  intros [Hc Hx]%andb_true_iff. apply negb_true_iff in Hc. rewrite Hc.
  by rewrite (IH Hx).
Qed.

Lemma split_on_cons x rest :
  no_comma x = true ->
  split_on "," (x +:+ String "," rest) = x :: split_on "," rest.
Proof.
  unfold no_comma. induction x as [|c x IH]; simpl.
  - intros _. by sapp.
  - intros [Hc Hx]%andb_true_iff. apply negb_true_iff in Hc.
    rewrite Hc. by rewrite (IH Hx).
Qed.

Lemma split_on_join pad x xs :
  no_comma pad = true -> no_comma x = true -> Forall (fun y => no_comma y = true) xs ->
  split_on "," (join ("," +:+ pad) (x :: xs)) = x :: map (String.append pad) xs.
Proof.
  intros Hpad. revert x. induction xs as [|y xs IH]; intros x Hx Hxs.
  - simpl. by apply split_on_piece.
  - apply Forall_cons in Hxs as [Hy Hxs].
    change (join ("," +:+ pad) (x :: y :: xs))
      with (x +:+ ("," +:+ pad) +:+ join ("," +:+ pad) (y :: xs)).
    replace (x +:+ ("," +:+ pad) +:+ join ("," +:+ pad) (y :: xs))
      with (x +:+ String "," (pad +:+ join ("," +:+ pad) (y :: xs))) by (by sapp).
    rewrite split_on_cons by done. f_equal.
    assert (forall p s, no_comma p = true ->
              split_on "," (p +:+ s)
              = match split_on "," s with
                | piece :: more => (p +:+ piece) :: more
                | [] => [p]
                end) as Hpre.
    { clear. unfold no_comma. induction p as [|c p IHp]; intros s; simpl.
      - intros _. sapp. destruct (split_on "," s) eqn:Hs; [|by sapp].
        by destruct s; simpl in Hs; try destruct (Ascii.eqb _ _); try destruct (split_on _ _).
      - intros [Hc Hp]%andb_true_iff. apply negb_true_iff in Hc.
        rewrite Hc, (IHp s Hp).
        destruct (split_on "," s); by sapp. }
    rewrite (Hpre pad _ Hpad), (IH y Hy Hxs). done.
Qed.

Lemma agent_name_piece a pad :
  pad = "" \/ pad = " " ->
  no_comma (agent_name a) = true
  /\ trim (pad +:+ agent_name a) = agent_name a
  /\ (0 <? String.length (agent_name a))%nat = true.
Proof. intros [->| ->]; by destruct a. Qed.

(** X25: a list of agent names, joined by commas with or without a space
    after each, is read back as the same list. *)
Theorem parseAgents_round_trip (l : list AgentName) (pad : string) :
  l <> [] -> pad = "" \/ pad = " " ->
  parseAgents (Some (join ("," +:+ pad) (map agent_name l))) = Ok (Some l).
Proof.
  intros Hl Hpad. destruct l as [|a l]; [done|]. clear Hl.
  apply parseAgents_spec_ok.
  - destruct l; destruct a; simpl; sapp; done.
  - change (map agent_name (a :: l)) with (agent_name a :: map agent_name l).
    rewrite split_on_join.
    + assert (no_comma (agent_name a) = true /\ trim (agent_name a) = agent_name a
              /\ (0 <? String.length (agent_name a))%nat = true) as (_ & Ht & Hlen)
        by (by destruct a).
      simpl. rewrite Ht, Hlen. f_equal.
      induction l as [|b l IH]; simpl; [done|].
      destruct (agent_name_piece b pad Hpad) as (_ & -> & ->). by rewrite <- IH.
    + by destruct Hpad as [->| ->].
    + by destruct a.
    + apply Forall_forall. intros y (b & -> & _)%list_elem_of_fmap. by destruct b.
Qed.

Section Selection.
Context `{Platform}.

(** X26: an [--agents] text made of separators and white space only
    selects no agent: the planner then plans for no agent and touches
    nothing, while a rollback restores every agent of the snapshot, as
    it does without a selection. *)
Theorem empty_selection (s : string) (config : UnifiedConfig)
    (configDir : option string) (resolveSecrets : option bool) (id : string)
    (w : World) :
  s <> "" ->
  Forall (fun piece => trim piece = "") (split_on "," s) ->
  parseAgents (Some s) = Ok (Some [])
  /\ buildPlan config {| opt_agents := Some []; opt_configDir := configDir;
                         opt_resolveSecrets := resolveSecrets |} w = (Ok [], w)
  /\ rollbackSnapshot id (Some (map agent_name [])) w = rollbackSnapshot id None w.
Proof.
  intros Hs Hblank. split; [|split].
  - apply parseAgents_spec_ok; [done|]. simpl.
    induction Hblank as [|piece l Hp _ IH]; simpl; [done|]. by rewrite Hp.
  - reflexivity.
  - done.
Qed.
End Selection.

(** X27: the agents the MCP server lists for a server are the agents for
    which the planner's own test finds it enabled when the target sets
    nothing. *)
Theorem getEnabledAgents_agrees (serverId : string) (server : json) (a : AgentName) :
  a ∈ getEnabledAgents server
  <-> serverEnabledForAgent serverId server a empty_target = true.
Proof.
  assert (a ∈ AGENTS) as Ha by (destruct a; set_solver).
  assert (serverEnabledForAgent serverId server a empty_target
          = negb (json_is_false (server_enabledIn server a))) as ->.
  { unfold serverEnabledForAgent. simpl. by destruct (json_is_false _). }
  unfold getEnabledAgents.
  destruct (truthy (prop "enabledIn" server)) eqn:Ht; cbn [negb].
  - rewrite list_elem_of_In, filter_In, <- list_elem_of_In.
    unfold server_enabledIn, prop in *. destruct server as [| | | | |props]; try done.
    destruct (obj_get "enabledIn" props) as [flags|]; [|done].
    destruct flags; try (split; [done|by split]).
    split; [by intros [_ ?]|by split].
  - unfold server_enabledIn, prop in *. destruct server as [| | | | |props]; try done.
    destruct (obj_get "enabledIn" props) as [flags|]; [|done].
    by destruct flags.
Qed.

(** ** The manifest of the managed skills *)

Section Manifest.
Context `{Platform}.

Lemma insert_by_id_perm x l : insert_by_id x l ≡ₚ x :: l.
Proof.
  induction l as [|y l IH]; simpl; [done|].
  destruct (locale_leb (fst y) (fst x)); [|done]. rewrite IH. apply perm_swap.
Qed.

Lemma sort_by_id_perm l : sort_by_id l ≡ₚ l.
Proof.
  unfold sort_by_id.
  assert (forall acc, fold_left (fun acc x => insert_by_id x acc) l acc ≡ₚ acc ++ l) as Hf.
  { induction l as [|x l IH]; intros acc; simpl; [by rewrite app_nil_r|].
    rewrite IH, insert_by_id_perm. simpl. apply Permutation_middle. }
  apply (Hf []).
Qed.

Lemma insert_by_id_sorted x l :
  (forall a b, locale_leb a b = true \/ locale_leb b a = true) ->
  ascending_ids l -> ascending_ids (insert_by_id x l).
Proof.
  intros Htotal. unfold ascending_ids.
  induction l as [|y l IH]; simpl; intros Hs; [by repeat constructor|].
  apply Sorted_inv in Hs as [Hs Hhd].
  destruct (locale_leb (fst y) (fst x)) eqn:Hyx.
  - constructor; [by apply IH|].
    destruct l as [|z l]; simpl; [by constructor|].
    apply HdRel_inv in Hhd. destruct (locale_leb (fst z) (fst x)); by constructor.
  - constructor; [by constructor|]. constructor.
    destruct (Htotal (fst x) (fst y)) as [Hle|Hle]; [done|congruence].
Qed.

Lemma sort_by_id_sorted l :
  (forall a b, locale_leb a b = true \/ locale_leb b a = true) ->
  ascending_ids (sort_by_id l).
Proof.
  intros Htotal. unfold sort_by_id.
  assert (forall acc, ascending_ids acc ->
            ascending_ids (fold_left (fun acc x => insert_by_id x acc) l acc)) as Hf.
  { induction l as [|x l IH]; intros acc Hacc; simpl; [done|].
    apply IH. by apply insert_by_id_sorted. }
  apply Hf. constructor.
Qed.

(** X28: when [applySkills] returns, the manifest on the disk lists the
    desired skills, each once with its file name, in ascending order of
    the ids. *)
Theorem applySkills_manifest (plan : AgentPlan) (w w' : World) :
  (forall a b, locale_leb a b = true \/ locale_leb b a = true) ->
  applySkills plan w = (Ok tt, w') ->
  exists items,
    files (disk w') !! getManifestPath (plan_skillsDir plan)
      = Some (format_json (manifest_value items))
    /\ items ≡ₚ desired_items plan
    /\ ascending_ids items.
Proof.
  intros Htotal Hrun. exists (sort_by_id (desired_items plan)).
  split; [|split; [apply sort_by_id_perm|by apply sort_by_id_sorted]].
  unfold applySkills in Hrun.
  apply bind_ok in Hrun as ([] & w1 & _ & Hrun).
  apply bind_ok in Hrun as ([] & w2 & _ & Hrun).
  apply bind_ok in Hrun as ([] & w3 & _ & Hrun).
  rewrite writeTextAtomic_run in Hrun. injection Hrun as <-. simpl.
  rewrite lookup_insert_eq. cbn [files]. apply lookup_insert_eq.
Qed.
End Manifest.

(** ** More examples *)

(** X2: two maps with one id each. *)
Lemma diff_swap_example :
  added (diffServerMaps [("files", command_first)] [("web", args_first)])
  = removed (diffServerMaps [("web", args_first)] [("files", command_first)]).
Proof.
  apply (diff_swap [("files", command_first)] [("web", args_first)]);
    simpl; apply NoDup_singleton.
Defined.

(** X6: the reference to [TOKEN], resolved. *)
Lemma resolution_example :
  resolveServerSecrets example_env "files" with_token strict
  = Ok (JObj [("transport", JStr "stdio"); ("command", JStr "npx");
              ("env", JObj [("API_KEY", JStr "s3cret")])]).
Proof.
  apply (proj1 (resolution_succeeds_iff example_env strict "files" with_token eq_refl)).
  reflexivity.
Defined.


(** X8: the canonical form of a record. *)
Lemma canonical_form_example :
  sortValue (sortValue args_first) = sortValue args_first.
Proof.
  apply (proj1 (canonical_form args_first ltac:(vm_compute; reflexivity))).
Defined.

(** X24: the agents option as a user types it. *)
Lemma parseAgents_example :
  parseAgents (Some " gemini, codex,") = Ok (Some [gemini; codex]).
Proof.
  apply (proj1 (parseAgents_spec " gemini, codex," ltac:(discriminate)) [gemini; codex]).
  reflexivity.
Defined.

(** X25: two names with a space after the comma. *)
Lemma parseAgents_round_trip_example :
  parseAgents (Some "claude, gemini") = Ok (Some [claude; gemini]).
Proof.
  apply (parseAgents_round_trip [claude; gemini] " "); [discriminate|by right].
Defined.

(** The router document is imported. *)
Lemma router_import_ok : importFromMcpRouterJson router_document = Ok router_import.
Proof. reflexivity. Qed.

(** X21: the ids of the router document. *)
Lemma import_example :
  importedServerIds router_import = ["files"; "web"]
  /\ skippedServerIds router_import = ["broken"].
Proof.
  destruct (import_classifies router_document router_entries router_import eq_refl
              router_import_ok) as (Hi & Hs & _).
  split; [exact Hi|exact Hs].
Defined.

Section MoreExamples.
#[local] Existing Instance example_platform.

Lemma gemini_source : GeminiAdapter ∈ source_adapters.
Proof. unfold source_adapters. rewrite !elem_of_cons. right. left. reflexivity. Qed.

Lemma gemini_json : GeminiAdapter ∈ json_adapters.
Proof. unfold json_adapters. rewrite !elem_of_cons. left. reflexivity. Qed.

(** X4: a stdio server without a command. *)
Lemma requirements_example :
normalizeServer GeminiAdapter "files" no_command = Throw (requires_command "files").
Proof.
apply (proj1 (normalizeServer_requirements GeminiAdapter "files" no_command
                gemini_source)); reflexivity.
Defined.

(** X5: the arguments of the example server in its Gemini record. *)
Lemma fields_example :
"args" ∈ native_fields
/\ length_positive (JArr [JStr "-y"; JStr "files-server"]) = true.
Proof.
destruct (normalizeServer_fields GeminiAdapter "files" example_server
            [("type", JStr "stdio"); ("command", JStr "npx");
             ("args", JArr [JStr "-y"; JStr "files-server"])]
            "args" (JArr [JStr "-y"; JStr "files-server"])
            gemini_source eq_refl eq_refl) as (Hn & _ & Ha & _).
split; [exact Hn|exact (Ha eq_refl)].
Defined.

(** X23: the imported stdio server is enabled for VS Code. *)
Lemma imported_sync_example :
serverEnabledForAgent "files"
  (stdio_server "npx" [JStr "-y"; JStr "files-server"] []) vscode
  (target_of (ir_config router_import) vscode) = true.
Proof.
apply (proj1 (proj2 (imported_servers_sync router_document router_import
                       router_import_ok "files")
                (stdio_server "npx" [JStr "-y"; JStr "files-server"] []) eq_refl) vscode).
Defined.

(** X26: commas and blanks select no agent. *)
Lemma empty_selection_example :
parseAgents (Some " , ") = Ok (Some [])
/\ buildPlan example_config
     {| opt_agents := Some []; opt_configDir := None; opt_resolveSecrets := None |}
     example_machine = (Ok [], example_machine).
Proof.
destruct (empty_selection " , " example_config None None "s1" example_machine
            ltac:(discriminate)
            ltac:(repeat constructor)) as (Hp & Hb & _).
split; [exact Hp|exact Hb].
Defined.

(** X11: the snapshots of the interrupted machine. *)
Lemma listSnapshots_example :
(listSnapshots 20 (at_rest interrupted)).2 = at_rest interrupted
/\ descending ["1970-01-01T00-00-00-000Z"].
Proof.
destruct (listSnapshots_spec 20 (at_rest interrupted) ["1970-01-01T00-00-00-000Z"])
  as (Hw & _ & Hd & _).
- intros a b. destruct (str_le_total a b) as [Hab|Hba]; [by left|by right].
- vm_compute. reflexivity.
- split; [exact Hw|exact Hd].
Defined.

Lemma example_sync_ok :
applyPlan [example_plan] example_machine = (Ok (result_of example_sync), example_sync.2).
Proof. vm_compute. reflexivity. Qed.

(** X12: the snapshot of the example sync. *)
Lemma readSnapshotMeta_example :
snapshotDir (result_of example_sync)
= path_join getSnapshotRoot (snapshotId (result_of example_sync)).
Proof.
apply (proj1 (sync_then_readSnapshotMeta [example_plan] example_machine
                (result_of example_sync) example_sync.2 example_sync_ok)).
Defined.

(** X14: the entry recorded for the example plan. *)
Lemma applied_example :
Forall2 (fun plan entry => ap_agent entry = agent_name (plan_agent plan)
                           /\ mcpPath entry = plan_path plan)
        [example_plan] (applied (result_of example_sync)).
Proof.
eapply Forall2_impl.
- apply (applied_follows_plans [example_plan] example_machine
           (result_of example_sync) example_sync.2 example_sync_ok).
- intros plan entry (Ha & Hp & _). split; [exact Ha|exact Hp].
Defined.

(** X15: the id of the snapshot taken at the epoch. *)
Lemma snapshot_id_example :
snapshotId (result_of example_sync) = "1970-01-01T00-00-00-000Z".
Proof.
apply (proj1 (snapshot_id_from_clock [example_plan] example_machine
                (result_of example_sync) example_sync.2 example_sync_ok)).
Defined.

(** X13: the plan for an agent that needs no change. *)
Lemma unchanged_example :
exists entry, apply_one example_snapshot idle_plan example_machine
              = (Ok entry, example_machine).
Proof.
destruct (unchanged_agent_untouched example_snapshot idle_plan example_machine
            eq_refl eq_refl) as (entry & He & _).
exists entry. exact He.
Defined.

(** X16: the selection of Gemini alone. *)
Lemma selection_example :
map plan_agent [example_plan] = [gemini].
Proof.
apply (proj1 (plans_follow_selection example_config (only [gemini]) example_machine
                [example_plan] example_machine example_plan_built)).
Defined.

(** X18: after the step of the sync, the file loads as the new document. *)
Lemma load_example :
load GeminiAdapter gemini_settings example_apply.2
= (Ok {| exists_ := true; data := example_next |}, example_apply.2).
Proof.
apply (proj1 (proj2 (proj2 (load_after_sync example_snapshot example_plan example_machine
                (entry_of example_apply) example_apply.2
                gemini_json eq_refl
                ltac:(vm_compute; reflexivity)
                ltac:(apply (bool_decide_unpack _); vm_compute; exact I)))
                ltac:(vm_compute; discriminate))).
vm_compute. reflexivity.
Defined.

(** X19: no manifest on the example machine. *)
Lemma no_manifest_example :
readManagedSkills "/home/user/.gemini/skills/uac-managed" example_machine
= (Ok {| manifestExists := false; manifest := empty_manifest; skillsById := [] |},
   example_machine).
Proof.
apply (readManagedSkills_absent "/home/user/.gemini/skills/uac-managed" example_machine).
left. split; [vm_compute; reflexivity|].
intros Hin. apply (bool_decide_pack _) in Hin. vm_compute in Hin. exact Hin.
Defined.

(** X20: the inline skill, for Gemini. *)
Lemma desired_skills_example :
exists skill, ("notes", skill) ∈ [("notes", notes_skill)]
              /\ skillEnabledForAgent "notes" skill gemini empty_target = true.
Proof.
apply (proj1 (proj1 (proj2 (desired_skills_enabled_only skilled_config gemini
                              empty_target "/" example_machine
                              [("notes", {| sm_fileName := "notes.md";
                                            sm_content := "Take notes." |})]
                              example_machine ltac:(vm_compute; reflexivity)))
                "notes")).
simpl. constructor.
Defined.

(** X28: the manifest written for the inline skill. *)
Lemma manifest_example :
exists items,
  files (disk (applySkills skills_plan example_machine).2)
    !! getManifestPath "/home/user/.gemini/skills/uac-managed"
  = Some (format_json (manifest_value items))
  /\ items ≡ₚ [("notes", "notes.md")]
  /\ ascending_ids items.
Proof.
apply (applySkills_manifest skills_plan example_machine
         (applySkills skills_plan example_machine).2).
- intros a b. destruct (str_le_total a b) as [Hab|Hba]; [by left|by right].
- vm_compute. reflexivity.
Defined.
End MoreExamples.
